(** * uniformGridMath: finite-difference operators and the red-black
      Gauss-Seidel / SOR vector Poisson solver on uniform grids.

    The embedding follows
    [Samples/MjgIntelFluidDemo_Part20/Core/SpatialPartition/uniformGridMath.cpp]
    in its serial build ([USE_TBB] off,
    [POISSON_TECHNIQUE == POISSON_TECHNIQUE_GAUSS_SEIDEL_RED_BLACK]).

    The C++ code computes on [float].  Every operator below is written once,
    over a scalar interface, and is run on two scalar types:
    - [spec_float] at precision 24 and exponent bound 128, i.e. IEEE-754
      binary32 with round-to-nearest-even: the arithmetic the program runs;
    - [R], exact arithmetic: what the formulas of the documentation mean
      "up to floating-point rounding".

    Indices and offsets are [size_t] in the source and [nat] here.  The
    subtractions [dims - 1] and [index - 1] wrap around in the source when
    the left operand is 0; here they truncate.  The statements below only
    read such an offset where the source guards it (the index is positive),
    and speak of grids with at least one point per axis.

    An [ASSERT] of the source is a debug-build check of a precondition; it
    appears below as a hypothesis of the statements that need it
    ([ShapeMatches], [Size() == GetGridCapacity()]), not as behaviour.

    A loop nest that stores into a grid is given by the list of the points
    it visits, in its order, and a fold of the loop body over that list. *)

From stdpp Require Import base list.
From Stdlib Require Import Reals Lra Lia List ZArith Bool Arith QArith Qreals.
From Stdlib Require Import SpecFloat.
Import ListNotations.
#[local] Open Scope nat_scope.

(* ================================================================== *)
(** ** Scalars *)

(** The operations of [float] that the translation unit uses.  [fsqrtf] is
    the repository's own square root helper; it is defined outside the
    translation unit, so it stays a parameter of the model: the generic
    statements hold for any [fsqrtf], and each instance fixes one. *)
Class Scalar (F : Type) : Type := {
  fconst : Q -> F;          (* a literal such as [1.72f] *)
  fofnat : nat -> F;        (* [float( n )] for an unsigned count *)
  fadd : F -> F -> F;
  fsub : F -> F -> F;
  fmul : F -> F -> F;
  fdiv : F -> F -> F;
  fopp : F -> F;
  fltb : F -> F -> bool;    (* [a < b] *)
  fsqrt : F -> F;           (* [sqrt] / [sqrtf] of <cmath> *)
  fsqrtf : F -> F;          (* [fsqrtf] *)
  FLT_MAX : F;
  FLT_EPSILON : F
}.

(** Modelled from the spec: [UNIFORM_GRID_INVALID_VALUE] and [IsNan] are
    declared with the grid container, not in the translation unit; the
    specification calls the invalid sample a not-a-number sentinel.  A
    scalar type with such a value carries the sentinel, the test, and the
    propagation of not-a-number through [-] and [*] of IEEE arithmetic. *)
Class NanScalar (F : Type) `{Scalar F} : Type := {
  UNIFORM_GRID_INVALID_VALUE : F;
  IsNan : F -> bool;
  IsNan_invalid : IsNan UNIFORM_GRID_INVALID_VALUE = true;
  IsNan_fsub_l : forall a b, IsNan a = true -> IsNan (fsub a b) = true;
  IsNan_fsub_r : forall a b, IsNan b = true -> IsNan (fsub a b) = true;
  IsNan_fmul_l : forall a b, IsNan a = true -> IsNan (fmul a b) = true
}.

(** *** Exact arithmetic *)

(** [Rdiv] is total: 1/0 is 0 over [R], where binary32 gives an infinity
    and, further on, a not-a-number.  A statement over [R] says what the
    code computes up to rounding only where the code divides by a non-zero
    value. *)

#[export] Instance R_Scalar : Scalar R := {|
  fconst := Q2R;
  fofnat := INR;
  fadd := Rplus;
  fsub := Rminus;
  fmul := Rmult;
  fdiv := Rdiv;
  fopp := Ropp;
  fltb := fun a b => if Rlt_dec a b then true else false;
  fsqrt := sqrt;
  fsqrtf := sqrt;
  FLT_MAX := 340282346638528859811704183484516925440%R;
  FLT_EPSILON := (/ 8388608)%R
|}.

#[export] Instance R_inhabited : Inhabited R := populate 0%R.

(** *** IEEE-754 binary32 *)

Module Binary32.

Definition prec : Z := 24.
Definition emax : Z := 128.

Definition ofZ (n : Z) : spec_float := binary_normalize prec emax n 0 false.

(** A decimal literal [p/q] whose numerator and denominator are below 2^24
    is rounded once, by the division. *)
Definition ofQ (q : Q) : spec_float :=
  SFdiv prec emax (ofZ (Qnum q)) (ofZ (Zpos (Qden q))).

Definition isNan (f : spec_float) : bool :=
  match f with S754_nan => true | _ => false end.

Definition isFinite (f : spec_float) : bool :=
  match f with S754_zero _ | S754_finite _ _ _ => true | _ => false end.

End Binary32.

#[export] Instance Binary32_Scalar : Scalar spec_float := {|
  fconst := Binary32.ofQ;
  fofnat := fun n => Binary32.ofZ (Z.of_nat n);
  fadd := SFadd Binary32.prec Binary32.emax;
  fsub := SFsub Binary32.prec Binary32.emax;
  fmul := SFmul Binary32.prec Binary32.emax;
  fdiv := SFdiv Binary32.prec Binary32.emax;
  fopp := SFopp;
  fltb := SFltb;
  fsqrt := SFsqrt Binary32.prec Binary32.emax;
  fsqrtf := SFsqrt Binary32.prec Binary32.emax;
  FLT_MAX := S754_finite false 16777215 104;
  FLT_EPSILON := S754_finite false 8388608 (-46)
|}.

#[export] Instance spec_float_inhabited : Inhabited spec_float :=
  populate (S754_zero false).

#[export, refine] Instance Binary32_NanScalar : NanScalar spec_float := {|
  UNIFORM_GRID_INVALID_VALUE := S754_nan;
  IsNan := Binary32.isNan
|}.
Proof.
  - reflexivity.
  - intros [] b; simpl; try discriminate; intros _; destruct b; reflexivity.
  - intros a []; simpl; try discriminate; intros _; destruct a; reflexivity.
  - intros [] b; simpl; try discriminate; intros _; destruct b; reflexivity.
Defined.

(* ================================================================== *)
(** ** Helper macros and templates of [Core/Utility/macros.h] and
       [Core/Math]: they are used, not defined, by the translation unit. *)

(** Modelled from the spec: [Min2], [Max2], [MAX3], [Clamp] are not in the
    sources at hand; they are the minimum, maximum, maximum of three and the
    clamp of a value into [[lo, hi]] that the specification names
    ("max(dims)", "max(variance,0)"). *)
Definition Min2 {F} `{Scalar F} (a b : F) : F := if fltb a b then a else b.
Definition Max2 {F} `{Scalar F} (a b : F) : F := if fltb b a then a else b.
Definition MAX3 (a b c : nat) : nat := Nat.max (Nat.max a b) c.
Definition Clamp (v lo hi : nat) : nat := Nat.min (Nat.max v lo) hi.

(** Modelled from the spec: [POW2] and [Pow2] square their argument
    ("1/spacing[a]^2", "its square"). *)
Definition POW2 {F} `{Scalar F} (a : F) : F := fmul a a.
Definition Pow2 {F} `{Scalar F} (a : F) : F := fmul a a.

(* ================================================================== *)
(** ** Vec3 *)

Module Vec3.
Record t (F : Type) : Type := mk { x : F; y : F; z : F }.
Arguments mk {F} _ _ _.
Arguments x {F} _.
Arguments y {F} _.
Arguments z {F} _.
End Vec3.
Abbreviation Vec3 := Vec3.t.

Section Vec3Ops.
Context {F : Type} `{Scalar F}.

(** Modelled from the spec: the Vec3 class ([Core/Math/vec3.h]) is not in
    the translation unit.  [a + b], [a - b], [v * s], [s * v] act
    component-wise and [Magnitude] is the Euclidean length ("per-point
    update magnitude |new - old|"). *)
Definition vadd (a b : Vec3 F) : Vec3 F :=
  Vec3.mk (fadd (Vec3.x a) (Vec3.x b)) (fadd (Vec3.y a) (Vec3.y b))
          (fadd (Vec3.z a) (Vec3.z b)).
Definition vsub (a b : Vec3 F) : Vec3 F :=
  Vec3.mk (fsub (Vec3.x a) (Vec3.x b)) (fsub (Vec3.y a) (Vec3.y b))
          (fsub (Vec3.z a) (Vec3.z b)).
Definition vscale (v : Vec3 F) (s : F) : Vec3 F :=
  Vec3.mk (fmul (Vec3.x v) s) (fmul (Vec3.y v) s) (fmul (Vec3.z v) s).
Definition svmul (s : F) (v : Vec3 F) : Vec3 F :=
  Vec3.mk (fmul s (Vec3.x v)) (fmul s (Vec3.y v)) (fmul s (Vec3.z v)).
Definition Magnitude (v : Vec3 F) : F :=
  fsqrt (fadd (fadd (fmul (Vec3.x v) (Vec3.x v)) (fmul (Vec3.y v) (Vec3.y v)))
              (fmul (Vec3.z v) (Vec3.z v))).

Definition vzero : Vec3 F := Vec3.mk (fconst 0) (fconst 0) (fconst 0).

End Vec3Ops.

#[export] Instance Vec3_inhabited {F} `{Inhabited F} : Inhabited (Vec3 F) :=
  populate (Vec3.mk inhabitant inhabitant inhabitant).

(* ================================================================== *)
(** ** UniformGrid *)

(** Modelled from the spec: the container is declared in
    [Core/SpatialPartition/uniformGrid.h], not in the translation unit: "a
    dense, row-major (X fastest, then Y, then Z) 3D lattice" with "fixed
    point counts per axis", "a fixed physical cell spacing per axis" and
    "flat-index addressing offset = x + dims.x*y + dims.x*dims.y*z".
    [gridGet] is [operator[]] on an rvalue, [gridSet] an assignment through
    [operator[]].  Out of range the source has no defined behaviour; the
    model reads the default element and writes nothing, and the statements
    below are about offsets of points of the grid. *)
Record UniformGrid (F T : Type) : Type := mkGrid {
  numPoints0 : nat;
  numPoints1 : nat;
  numPoints2 : nat;
  cellSpacing : Vec3 F;
  contents : list T
}.
Arguments mkGrid {F T} _ _ _ _ _.
Arguments numPoints0 {F T} _.
Arguments numPoints1 {F T} _.
Arguments numPoints2 {F T} _.
Arguments cellSpacing {F T} _.
Arguments contents {F T} _.

Section Grid.
Context {F T : Type}.

Definition GetNumPoints (g : UniformGrid F T) (axis : nat) : nat :=
  match axis with
  | 0 => numPoints0 g
  | 1 => numPoints1 g
  | _ => numPoints2 g
  end.

Definition GetCellSpacing (g : UniformGrid F T) : Vec3 F := cellSpacing g.

Definition Size (g : UniformGrid F T) : nat := length (contents g).

Definition GetGridCapacity (g : UniformGrid F T) : nat :=
  numPoints0 g * numPoints1 g * numPoints2 g.

Definition ShapeMatches {T'} (g : UniformGrid F T) (h : UniformGrid F T') : bool :=
  (numPoints0 g =? numPoints0 h) && (numPoints1 g =? numPoints1 h)
  && (numPoints2 g =? numPoints2 h).

Definition gridGet `{Inhabited T} (g : UniformGrid F T) (offset : nat) : T :=
  contents g !!! offset.

Definition gridSet (g : UniformGrid F T) (offset : nat) (v : T) : UniformGrid F T :=
  mkGrid (numPoints0 g) (numPoints1 g) (numPoints2 g) (cellSpacing g)
         (<[offset := v]> (contents g)).

End Grid.

(** A grid index [index[0], index[1], index[2]]. *)
Definition Index : Type := nat * nat * nat.

Definition Index_eq_dec (p q : Index) : {p = q} + {p <> q}.
Proof. repeat decide equality. Defined.

(** [OffsetFromIndices]: x + dims.x*y + dims.x*dims.y*z. *)
Definition OffsetFromIndices {F T} (g : UniformGrid F T) (idx : Index) : nat :=
  let '(ix, iy, iz) := idx in
  ix + numPoints0 g * iy + numPoints0 g * numPoints1 g * iz.

(* ================================================================== *)
(** ** Loops and stencil offsets *)

(** [for( i = start ; i < stop ; i += step )]: the values [i] takes. *)
Fixpoint forLoopFuel (fuel start stop step : nat) : list nat :=
  match fuel with
  | 0 => []
  | S fuel' =>
      if start <? stop then start :: forLoopFuel fuel' (start + step) stop step
      else []
  end.

Definition forLoop (start stop step : nat) : list nat :=
  forLoopFuel stop start stop step.

(** The offsets that [ASSIGN_Z_OFFSETS], [ASSIGN_YZ_OFFSETS] and
    [ASSIGN_XYZ_OFFSETS] bind, for given [dims] and [index].  [index - 1]
    stops at 0 here, where [size_t] wraps: the statements read a minus
    offset only at a positive index. *)
Record StencilOffsets : Type := mkStencil {
  offsetX0Y0Z0 : nat;
  offsetXMY0Z0 : nat;
  offsetXPY0Z0 : nat;
  offsetX0YMZ0 : nat;
  offsetX0YPZ0 : nat;
  offsetX0Y0ZM : nat;
  offsetX0Y0ZP : nat
}.

Definition ASSIGN_XYZ_OFFSETS (dims0 dims1 : nat) (index : Index) : StencilOffsets :=
  let numXY := dims0 * dims1 in
  let index0 := fst (fst index) in
  let index1 := snd (fst index) in
  let index2 := snd index in
  let offsetZM := numXY * (index2 - 1) in
  let offsetZ0 := numXY * index2 in
  let offsetZP := numXY * (index2 + 1) in
  let offsetYMZ0 := dims0 * (index1 - 1) + offsetZ0 in
  let offsetY0Z0 := dims0 * index1 + offsetZ0 in
  let offsetYPZ0 := dims0 * (index1 + 1) + offsetZ0 in
  let offsetY0ZM := dims0 * index1 + offsetZM in
  let offsetY0ZP := dims0 * index1 + offsetZP in
  {| offsetX0Y0Z0 := index0 + offsetY0Z0;
     offsetXMY0Z0 := index0 - 1 + offsetY0Z0;
     offsetXPY0Z0 := index0 + 1 + offsetY0Z0;
     offsetX0YMZ0 := index0 + offsetYMZ0;
     offsetX0YPZ0 := index0 + offsetYPZ0;
     offsetX0Y0ZM := index0 + offsetY0ZM;
     offsetX0Y0ZP := index0 + offsetY0ZP |}.

(** The spacing reciprocals every operator starts from:
    [reciprocalSpacing( 1.0f / spacing.x , 1.0f / spacing.y ,
       spacing.z > FLT_EPSILON ? 1.0f / spacing.z : 0.0f )]. *)
Definition reciprocalSpacing {F} `{Scalar F} (spacing : Vec3 F) : Vec3 F :=
  Vec3.mk (fdiv (fconst 1) (Vec3.x spacing))
          (fdiv (fconst 1) (Vec3.y spacing))
          (if fltb FLT_EPSILON (Vec3.z spacing)
           then fdiv (fconst 1) (Vec3.z spacing) else fconst 0).

(** [halfReciprocalSpacing( 0.5f * reciprocalSpacing )]. *)
Definition halfReciprocalSpacing {F} `{Scalar F} (spacing : Vec3 F) : Vec3 F :=
  svmul (fconst (1 # 2)) (reciprocalSpacing spacing).

(** [reciprocalSpacing2( POW2( reciprocalSpacing.x ) , ... )]. *)
Definition reciprocalSpacing2 {F} `{Scalar F} (spacing : Vec3 F) : Vec3 F :=
  let r := reciprocalSpacing spacing in
  Vec3.mk (POW2 (Vec3.x r)) (POW2 (Vec3.y r)) (POW2 (Vec3.z r)).

(* ================================================================== *)
(** ** Poisson relaxation step *)

Inductive BoundaryConditionE : Type := BC_NEUMANN | BC_DIRICHLET.

Inductive GaussSeidelPortionE : Type := GS_RED | GS_BLACK | GS_BOTH.

(** [unsigned( redOrBlack )]: the enumerators' values. *)
Definition unsignedOfPortion (redOrBlack : GaussSeidelPortionE) : nat :=
  match redOrBlack with GS_RED => 0 | GS_BLACK => 1 | GS_BOTH => 2 end.

(** Modelled from the spec: [Stats_Float] is declared outside the
    translation unit; "ResidualStats: {mean, stddev, min, max}", with the
    field names the source uses. *)
Record Stats_Float (F : Type) : Type := mkStats {
  mMean : F;
  mStdDev : F;
  mMin : F;
  mMax : F
}.
Arguments mkStats {F} _ _ _ _.
Arguments mMean {F} _.
Arguments mStdDev {F} _.
Arguments mMin {F} _.
Arguments mMax {F} _.

(** [ASSIGN_Y_SHIFT]:
    [idxYShift = ( index[2] % 2 == unsigned( redOrBlack ) ) ? 1 : 0]. *)
Definition idxYShift (index2 : nat) (redOrBlack : GaussSeidelPortionE) : nat :=
  if index2 mod 2 =? unsignedOfPortion redOrBlack then 1 else 0.

(** [iyStep = ( GS_BOTH == redOrBlack ) ? 1 : 2]. *)
Definition iyStep (redOrBlack : GaussSeidelPortionE) : nat :=
  match redOrBlack with GS_BOTH => 1 | _ => 2 end.

(** The points the interior loop nest visits, in its order. *)
Definition interiorPoints (dims0 dims1 dims2 izStart izEnd : nat)
    (redOrBlack : GaussSeidelPortionE) : list Index :=
  let idxZMinInterior := Nat.max 1 izStart in
  let idxZMaxInterior := Nat.min (dims2 - 1) izEnd in
  flat_map (fun index2 =>
    flat_map (fun index1 =>
      map (fun index0 => (index0, index1, index2)) (forLoop 1 (dims0 - 1) 1))
      (forLoop (1 + idxYShift index2 redOrBlack) (dims1 - 1) (iyStep redOrBlack)))
    (forLoop idxZMinInterior idxZMaxInterior 1).

(** The points the six boundary loop nests of the Neumann block visit, in
    their order: -X, -Y, -Z, +X, +Y, +Z. *)
Definition boundaryPoints (dims0 dims1 dims2 izStart izEnd : nat)
    (redOrBlack : GaussSeidelPortionE) : list Index :=
  let step := iyStep redOrBlack in
  (* -X *)
  flat_map (fun index2 =>
    map (fun index1 => (0, index1, index2))
        (forLoop (idxYShift index2 redOrBlack) dims1 step))
    (forLoop izStart izEnd 1)
  (* -Y *)
  ++ flat_map (fun index2 =>
       map (fun index0 => (index0, 0, index2)) (forLoop 0 dims0 1))
       (forLoop izStart izEnd 1)
  (* -Z *)
  ++ (if 0 =? izStart then
        flat_map (fun index1 =>
          map (fun index0 => (index0, index1, 0)) (forLoop 0 dims0 1))
          (forLoop (idxYShift 0 redOrBlack) dims1 step)
      else [])
  (* +X *)
  ++ flat_map (fun index2 =>
       map (fun index1 => (dims0 - 1, index1, index2)) (forLoop 0 dims1 step))
       (forLoop izStart izEnd 1)
  (* +Y *)
  ++ flat_map (fun index2 =>
       map (fun index0 => (index0, dims1 - 1, index2)) (forLoop 0 dims0 1))
       (forLoop izStart izEnd 1)
  (* +Z *)
  ++ (if izEnd =? dims2 then
        flat_map (fun index1 =>
          map (fun index0 => (index0, index1, dims2 - 1)) (forLoop 0 dims0 1))
          (forLoop (idxYShift (dims2 - 1) redOrBlack) dims1 step)
      else []).

Section Poisson.
Context {F : Type} `{Scalar F} `{Inhabited F}.

(** [relax = 1.72f] and [oneMinusRelax = 1.0f - relax]. *)
Definition relax : F := fconst (172 # 100).
Definition oneMinusRelax : F := fsub (fconst 1) relax.

(** [HalfSpacing2Sum = 0.5f / ( reciprocalSpacing2.x + reciprocalSpacing2.y
      + reciprocalSpacing2.z )]. *)
Definition HalfSpacing2Sum (spacing : Vec3 F) : F :=
  let r2 := reciprocalSpacing2 spacing in
  fdiv (fconst (1 # 2)) (fadd (fadd (Vec3.x r2) (Vec3.y r2)) (Vec3.z r2)).

(** [vSolution] of the interior loop body at [index], read from the current
    contents of [soln]. *)
Definition vSolution (soln lap : UniformGrid F (Vec3 F)) (index : Index) : Vec3 F :=
  let o := ASSIGN_XYZ_OFFSETS (GetNumPoints lap 0) (GetNumPoints lap 1) index in
  let r2 := reciprocalSpacing2 (GetCellSpacing lap) in
  vscale
    (vsub
      (vadd
        (vadd
          (vscale (vadd (gridGet soln (offsetXPY0Z0 o)) (gridGet soln (offsetXMY0Z0 o)))
                  (Vec3.x r2))
          (vscale (vadd (gridGet soln (offsetX0YPZ0 o)) (gridGet soln (offsetX0YMZ0 o)))
                  (Vec3.y r2)))
        (vscale (vadd (gridGet soln (offsetX0Y0ZP o)) (gridGet soln (offsetX0Y0ZM o)))
                (Vec3.z r2)))
      (gridGet lap (offsetX0Y0Z0 o)))
    (HalfSpacing2Sum (GetCellSpacing lap)).

(** [oneMinusRelax * soln[ offsetX0Y0Z0 ] + relax * vSolution]. *)
Definition updatedVal (soln lap : UniformGrid F (Vec3 F)) (index : Index) : Vec3 F :=
  let o := ASSIGN_XYZ_OFFSETS (GetNumPoints lap 0) (GetNumPoints lap 1) index in
  vadd (svmul oneMinusRelax (gridGet soln (offsetX0Y0Z0 o)))
       (svmul relax (vSolution soln lap index)).

(** The state the interior loop carries: the solution grid, the raw
    residual tallies and [residualsCount]. *)
Record RelaxState : Type := mkRelaxState {
  rsSoln : UniformGrid F (Vec3 F);
  rsStats : Stats_Float F;
  rsCount : nat
}.

(** One execution of the interior loop body. *)
Definition relaxPoint (lap : UniformGrid F (Vec3 F)) (st : RelaxState)
    (index : Index) : RelaxState :=
  let soln := rsSoln st in
  let o := ASSIGN_XYZ_OFFSETS (GetNumPoints lap 0) (GetNumPoints lap 1) index in
  let residualVec := vsub (updatedVal soln lap index) (gridGet soln (offsetX0Y0Z0 o)) in
  let residual := Magnitude residualVec in
  let stats := rsStats st in
  {| rsSoln := gridSet soln (offsetX0Y0Z0 o) (updatedVal soln lap index);
     rsStats := {| mMean := fadd (mMean stats) residual;
                   mStdDev := fadd (mStdDev stats) (Pow2 residual);
                   mMin := Min2 residual (mMin stats);
                   mMax := Max2 residual (mMax stats) |};
     rsCount := S (rsCount st) |}.

(** [ASSIGN_VALUES_ON_BOUNDARY_POINTS] at [index].  [dims - 1 - 1] stops
    at 0 here, where the source wraps on an axis of one point: the
    statements that depend on the value this block stores are about grids
    with at least three points per axis. *)
Definition assignBoundaryPoint (dims0 dims1 dims2 : nat)
    (soln : UniformGrid F (Vec3 F)) (index : Index) : UniformGrid F (Vec3 F) :=
  let o := ASSIGN_XYZ_OFFSETS dims0 dims1 index in
  let numXY := dims0 * dims1 in
  let idxInterior0 := Clamp (fst (fst index)) 1 (dims0 - 1 - 1) in
  let idxInterior1 := Clamp (snd (fst index)) 1 (dims1 - 1 - 1) in
  let idxInterior2 := Clamp (snd index) 1 (dims2 - 1 - 1) in
  let offsetInterior := idxInterior0 + dims0 * idxInterior1 + numXY * idxInterior2 in
  gridSet soln (offsetX0Y0Z0 o) (gridGet soln offsetInterior).

(** The final block: the raw tallies become mean and standard deviation. *)
Definition cookResidualStats (stats : Stats_Float F) (residualsCount : nat)
    : Stats_Float F :=
  if residualsCount =? 0 then stats
  else
    let mean := fdiv (mMean stats) (fofnat residualsCount) in
    let mean2 := fdiv (mStdDev stats) (fofnat residualsCount) in
    let variance := fsub mean2 (Pow2 mean) in
    {| mMean := mean; mStdDev := fsqrtf variance;
       mMin := mMin stats; mMax := mMax stats |}.

Definition StepTowardVectorPoissonSolution
    (soln lap : UniformGrid F (Vec3 F)) (izStart izEnd : nat)
    (redOrBlack : GaussSeidelPortionE) (boundaryCondition : BoundaryConditionE)
    (residualStats : Stats_Float F)
    : UniformGrid F (Vec3 F) * Stats_Float F :=
  let dims0 := GetNumPoints lap 0 in
  let dims1 := GetNumPoints lap 1 in
  let dims2 := GetNumPoints lap 2 in
  let st0 := {| rsSoln := soln;
                rsStats := {| mMean := fconst 0; mStdDev := fconst 0;
                              mMin := FLT_MAX; mMax := fopp FLT_MAX |};
                rsCount := 0 |} in
  let st1 := fold_left (relaxPoint lap)
               (interiorPoints dims0 dims1 dims2 izStart izEnd redOrBlack) st0 in
  let soln' :=
    match boundaryCondition with
    | BC_NEUMANN =>
        fold_left (assignBoundaryPoint dims0 dims1 dims2)
          (boundaryPoints dims0 dims1 dims2 izStart izEnd redOrBlack) (rsSoln st1)
    | BC_DIRICHLET => rsSoln st1
    end in
  (soln', cookResidualStats (rsStats st1) (rsCount st1)).

(** One trip through the body of the solver loop: a red pass, then a black
    pass, each over [0, numZ). *)
Definition relaxationRound (lap : UniformGrid F (Vec3 F))
    (boundaryCondition : BoundaryConditionE)
    (st : UniformGrid F (Vec3 F) * Stats_Float F)
    : UniformGrid F (Vec3 F) * Stats_Float F :=
  let numZ := GetNumPoints (fst st) 2 in
  let st1 := StepTowardVectorPoissonSolution (fst st) lap 0 numZ GS_RED
               boundaryCondition (snd st) in
  StepTowardVectorPoissonSolution (fst st1) lap 0 numZ GS_BLACK
    boundaryCondition (snd st1).

(** The values [iter] takes in [for( iter = 0 ; iter < maxIters ; ++ iter )]. *)
Definition solverIterations (soln : UniformGrid F (Vec3 F)) (numSteps : nat)
    : list nat :=
  let gridDimMax :=
    MAX3 (GetNumPoints soln 0) (GetNumPoints soln 1) (GetNumPoints soln 2) in
  let numStepsAuto := 2 * gridDimMax in
  let maxIters := if 0 <? numSteps then numSteps else numStepsAuto in
  forLoop 0 maxIters 1.

Definition SolveVectorPoisson (soln lap : UniformGrid F (Vec3 F)) (numSteps : nat)
    (boundaryCondition : BoundaryConditionE) (residualStats : Stats_Float F)
    : UniformGrid F (Vec3 F) * Stats_Float F :=
  fold_left (fun st (iter : nat) => relaxationRound lap boundaryCondition st)
    (solverIterations soln numSteps) (soln, residualStats).

End Poisson.

(* ================================================================== *)
(** ** Gradient of a scalar field *)

Section Gradient.
Context {F : Type} `{Scalar F} `{Inhabited F}.

(** The body of the interior loop of [ComputeGradientInteriorSlice]:
    centered differences on the three axes. *)
Definition gradientInterior (val : UniformGrid F F) (index : Index) : Vec3 F :=
  let o := ASSIGN_XYZ_OFFSETS (GetNumPoints val 0) (GetNumPoints val 1) index in
  let h := halfReciprocalSpacing (GetCellSpacing val) in
  Vec3.mk
    (fmul (fsub (gridGet val (offsetXPY0Z0 o)) (gridGet val (offsetXMY0Z0 o))) (Vec3.x h))
    (fmul (fsub (gridGet val (offsetX0YPZ0 o)) (gridGet val (offsetX0YMZ0 o))) (Vec3.y h))
    (fmul (fsub (gridGet val (offsetX0Y0ZP o)) (gridGet val (offsetX0Y0ZM o))) (Vec3.z h)).

(** One axis of [COMPUTE_FINITE_PARTIAL_DIFFERENTIALS_AT_BOUNDARIES]:
    forward difference at index 0, backward difference at [dimsMinus1],
    centered difference in between. *)
Definition partialAtBoundary (val : UniformGrid F F)
    (idx dimsMinus1 offsetM offset0 offsetP : nat) (recip halfRecip : F) : F :=
  if idx =? 0 then
    fmul (fsub (gridGet val offsetP) (gridGet val offset0)) recip
  else if idx =? dimsMinus1 then
    fmul (fsub (gridGet val offset0) (gridGet val offsetM)) recip
  else
    fmul (fsub (gridGet val offsetP) (gridGet val offsetM)) halfRecip.

Definition gradientAtBoundary (scalarVals : UniformGrid F F) (index : Index) : Vec3 F :=
  let dims0 := GetNumPoints scalarVals 0 in
  let dims1 := GetNumPoints scalarVals 1 in
  let dims2 := GetNumPoints scalarVals 2 in
  let o := ASSIGN_XYZ_OFFSETS dims0 dims1 index in
  let r := reciprocalSpacing (GetCellSpacing scalarVals) in
  let h := halfReciprocalSpacing (GetCellSpacing scalarVals) in
  Vec3.mk
    (partialAtBoundary scalarVals (fst (fst index)) (dims0 - 1)
       (offsetXMY0Z0 o) (offsetX0Y0Z0 o) (offsetXPY0Z0 o) (Vec3.x r) (Vec3.x h))
    (partialAtBoundary scalarVals (snd (fst index)) (dims1 - 1)
       (offsetX0YMZ0 o) (offsetX0Y0Z0 o) (offsetX0YPZ0 o) (Vec3.y r) (Vec3.y h))
    (partialAtBoundary scalarVals (snd index) (dims2 - 1)
       (offsetX0Y0ZM o) (offsetX0Y0Z0 o) (offsetX0Y0ZP o) (Vec3.z r) (Vec3.z h)).

(** Writing [f index] at the offset of [index]. *)
Definition writeAt {T : Type} (dims0 dims1 : nat) (f : Index -> T)
    (output : UniformGrid F T) (index : Index) : UniformGrid F T :=
  gridSet output (offsetX0Y0Z0 (ASSIGN_XYZ_OFFSETS dims0 dims1 index)) (f index).

Definition interiorSlicePoints (dims0 dims1 izStart izEnd : nat) : list Index :=
  flat_map (fun index2 =>
    flat_map (fun index1 =>
      map (fun index0 => (index0, index1, index2)) (forLoop 1 (dims0 - 1) 1))
      (forLoop 1 (dims1 - 1) 1))
    (forLoop izStart izEnd 1).

Definition ComputeGradientInteriorSlice (gradientGrid : UniformGrid F (Vec3 F))
    (val : UniformGrid F F) (izStart izEnd : nat) : UniformGrid F (Vec3 F) :=
  let dims0 := GetNumPoints val 0 in
  let dims1 := GetNumPoints val 1 in
  fold_left (writeAt dims0 dims1 (gradientInterior val))
    (interiorSlicePoints dims0 dims1 izStart izEnd) gradientGrid.

(** The six face loop nests of [ComputeGradient], in their order:
    -X, -Y, -Z, +X, +Y, +Z. *)
Definition facePoints (dims0 dims1 dims2 : nat) : list Index :=
  flat_map (fun index2 =>
    map (fun index1 => (0, index1, index2)) (forLoop 0 dims1 1)) (forLoop 0 dims2 1)
  ++ flat_map (fun index2 =>
       map (fun index0 => (index0, 0, index2)) (forLoop 0 dims0 1)) (forLoop 0 dims2 1)
  ++ flat_map (fun index1 =>
       map (fun index0 => (index0, index1, 0)) (forLoop 0 dims0 1)) (forLoop 0 dims1 1)
  ++ flat_map (fun index2 =>
       map (fun index1 => (dims0 - 1, index1, index2)) (forLoop 0 dims1 1))
       (forLoop 0 dims2 1)
  ++ flat_map (fun index2 =>
       map (fun index0 => (index0, dims1 - 1, index2)) (forLoop 0 dims0 1))
       (forLoop 0 dims2 1)
  ++ flat_map (fun index1 =>
       map (fun index0 => (index0, index1, dims2 - 1)) (forLoop 0 dims0 1))
       (forLoop 0 dims1 1).

Definition ComputeGradient (gradientGrid : UniformGrid F (Vec3 F))
    (scalarVals : UniformGrid F F) : UniformGrid F (Vec3 F) :=
  let dims0 := GetNumPoints scalarVals 0 in
  let dims1 := GetNumPoints scalarVals 1 in
  let dims2 := GetNumPoints scalarVals 2 in
  let g1 := ComputeGradientInteriorSlice gradientGrid scalarVals 1 (dims2 - 1) in
  fold_left (writeAt dims0 dims1 (gradientAtBoundary scalarVals))
    (facePoints dims0 dims1 dims2) g1.

End Gradient.

(* ================================================================== *)
(** ** Gradient of a scalar field with invalid samples *)

Section ConditionalGradient.
Context {F : Type} `{NanScalar F} `{Inhabited F}.

(** [SET_PARTIAL_DERIVATIVE_CONDITIONALLY( componentIndex , minusIndex ,
    plusIndex , component )].  [idx] is [index[ componentIndex ]],
    [previous] the component's value before the macro runs.  The three
    [IsNan] tests read the grid at the axis index itself, and the second
    [if] is not chained to the first by an [else]: both as written. *)
Definition SET_PARTIAL_DERIVATIVE_CONDITIONALLY (scalarVals : UniformGrid F F)
    (idx dimsMinus1 minusIndex offset0 plusIndex : nat) (recip halfRecip : F)
    (previous : F) : F :=
  if IsNan (gridGet scalarVals idx) then UNIFORM_GRID_INVALID_VALUE
  else
    let idxUpper :=
      if (idx <? dimsMinus1) && negb (IsNan (gridGet scalarVals (idx + 1)))
      then plusIndex else offset0 in
    let idxLower :=
      if (0 <? idx) && negb (IsNan (gridGet scalarVals (idx - 1)))
      then minusIndex else offset0 in
    let idxDiff := idxUpper - idxLower in
    let afterFirstIf :=
      if 2 =? idxDiff
      then fmul (fsub (gridGet scalarVals idxUpper) (gridGet scalarVals idxLower)) halfRecip
      else previous in
    if 1 =? idxDiff
    then fmul (fsub (gridGet scalarVals idxUpper) (gridGet scalarVals idxLower)) recip
    else UNIFORM_GRID_INVALID_VALUE.

(** The body of the loop nest of [ComputeGradientConditionallySlice]. *)
Definition gradientConditionally (scalarVals : UniformGrid F F)
    (previous : Vec3 F) (index : Index) : Vec3 F :=
  let dims0 := GetNumPoints scalarVals 0 in
  let dims1 := GetNumPoints scalarVals 1 in
  let dims2 := GetNumPoints scalarVals 2 in
  let o := ASSIGN_XYZ_OFFSETS dims0 dims1 index in
  let r := reciprocalSpacing (GetCellSpacing scalarVals) in
  let h := halfReciprocalSpacing (GetCellSpacing scalarVals) in
  Vec3.mk
    (SET_PARTIAL_DERIVATIVE_CONDITIONALLY scalarVals (fst (fst index)) (dims0 - 1)
       (offsetXMY0Z0 o) (offsetX0Y0Z0 o) (offsetXPY0Z0 o) (Vec3.x r) (Vec3.x h)
       (Vec3.x previous))
    (SET_PARTIAL_DERIVATIVE_CONDITIONALLY scalarVals (snd (fst index)) (dims1 - 1)
       (offsetX0YMZ0 o) (offsetX0Y0Z0 o) (offsetX0YPZ0 o) (Vec3.y r) (Vec3.y h)
       (Vec3.y previous))
    (SET_PARTIAL_DERIVATIVE_CONDITIONALLY scalarVals (snd index) (dims2 - 1)
       (offsetX0Y0ZM o) (offsetX0Y0Z0 o) (offsetX0Y0ZP o) (Vec3.z r) (Vec3.z h)
       (Vec3.z previous)).

Definition conditionalPoints (dims0 dims1 izStart izEnd : nat) : list Index :=
  flat_map (fun index2 =>
    flat_map (fun index1 =>
      map (fun index0 => (index0, index1, index2)) (forLoop 1 dims0 1))
      (forLoop 1 dims1 1))
    (forLoop izStart izEnd 1).

Definition conditionalStep (scalarVals : UniformGrid F F)
    (gradientGrid : UniformGrid F (Vec3 F)) (index : Index)
    : UniformGrid F (Vec3 F) :=
  let offset := offsetX0Y0Z0 (ASSIGN_XYZ_OFFSETS (GetNumPoints scalarVals 0)
                                (GetNumPoints scalarVals 1) index) in
  gridSet gradientGrid offset
    (gradientConditionally scalarVals (gridGet gradientGrid offset) index).

Definition ComputeGradientConditionallySlice (gradientGrid : UniformGrid F (Vec3 F))
    (scalarVals : UniformGrid F F) (izStart izEnd : nat) : UniformGrid F (Vec3 F) :=
  fold_left (conditionalStep scalarVals)
    (conditionalPoints (GetNumPoints scalarVals 0) (GetNumPoints scalarVals 1)
       izStart izEnd)
    gradientGrid.

Definition ComputeGradientConditionally (gradient : UniformGrid F (Vec3 F))
    (scalarVals : UniformGrid F F) : UniformGrid F (Vec3 F) :=
  ComputeGradientConditionallySlice gradient scalarVals 1 (GetNumPoints scalarVals 2).

End ConditionalGradient.

(* ================================================================== *)
(** ** Jacobian and Laplacian of a vector field *)

(** Modelled from the spec: [Mat33] ([Core/Math/mat33.h]) is not in the
    translation unit: "a 3x3 matrix whose row a holds the derivative of the
    vector with respect to axis a", rows [x], [y], [z]. *)
Module Mat33.
Record t (F : Type) : Type := mk { x : Vec3 F; y : Vec3 F; z : Vec3 F }.
Arguments mk {F} _ _ _.
Arguments x {F} _.
Arguments y {F} _.
Arguments z {F} _.
End Mat33.
Abbreviation Mat33 := Mat33.t.

#[export] Instance Mat33_inhabited {F} `{Inhabited F} : Inhabited (Mat33 F) :=
  populate (Mat33.mk inhabitant inhabitant inhabitant).

(** The offsets two steps away that [ASSIGN_ZZ_OFFSETS],
    [ASSIGN_YYZZ_OFFSETS] and [ASSIGN_XXYYZZ_OFFSETS] add. *)
Record StencilOffsets2 : Type := mkStencil2 {
  offsetXMMY0Z0 : nat;
  offsetXPPY0Z0 : nat;
  offsetX0YMMZ0 : nat;
  offsetX0YPPZ0 : nat;
  offsetX0Y0ZMM : nat;
  offsetX0Y0ZPP : nat
}.

Definition ASSIGN_XXYYZZ_OFFSETS (dims0 dims1 : nat) (index : Index) : StencilOffsets2 :=
  let numXY := dims0 * dims1 in
  let index0 := fst (fst index) in
  let index1 := snd (fst index) in
  let index2 := snd index in
  let offsetZ0 := numXY * index2 in
  let offsetZMM := numXY * (index2 - 2) in
  let offsetZPP := numXY * (index2 + 2) in
  let offsetY0Z0 := dims0 * index1 + offsetZ0 in
  let offsetYMMZ0 := dims0 * (index1 - 2) + offsetZ0 in
  let offsetYPPZ0 := dims0 * (index1 + 2) + offsetZ0 in
  let offsetY0ZMM := dims0 * index1 + offsetZMM in
  let offsetY0ZPP := dims0 * index1 + offsetZPP in
  {| offsetXMMY0Z0 := index0 - 2 + offsetY0Z0;
     offsetXPPY0Z0 := index0 + 2 + offsetY0Z0;
     offsetX0YMMZ0 := index0 + offsetYMMZ0;
     offsetX0YPPZ0 := index0 + offsetYPPZ0;
     offsetX0Y0ZMM := index0 + offsetY0ZMM;
     offsetX0Y0ZPP := index0 + offsetY0ZPP |}.

Section JacobianLaplacian.
Context {F : Type} `{Scalar F} `{Inhabited F}.

(** [( vec[ a ] - vec[ b ] ) * r]. *)
Definition vectorDifference (vec : UniformGrid F (Vec3 F)) (a b : nat) (r : F)
    : Vec3 F :=
  vscale (vsub (gridGet vec a) (gridGet vec b)) r.

(** The body of the interior loop of [ComputeJacobian]. *)
Definition jacobianInterior (vec : UniformGrid F (Vec3 F)) (index : Index) : Mat33 F :=
  let o := ASSIGN_XYZ_OFFSETS (GetNumPoints vec 0) (GetNumPoints vec 1) index in
  let h := halfReciprocalSpacing (GetCellSpacing vec) in
  Mat33.mk (vectorDifference vec (offsetXPY0Z0 o) (offsetXMY0Z0 o) (Vec3.x h))
           (vectorDifference vec (offsetX0YPZ0 o) (offsetX0YMZ0 o) (Vec3.y h))
           (vectorDifference vec (offsetX0Y0ZP o) (offsetX0Y0ZM o) (Vec3.z h)).

(** One row of [COMPUTE_FINITE_PARTIAL_DIFFERENTIALS_AT_BOUNDARIES] of
    [ComputeJacobian]. *)
Definition jacobianRowAtBoundary (vec : UniformGrid F (Vec3 F))
    (idx dimsMinus1 offsetM offset0 offsetP : nat) (recip halfRecip : F) : Vec3 F :=
  if idx =? 0 then vectorDifference vec offsetP offset0 recip
  else if idx =? dimsMinus1 then vectorDifference vec offset0 offsetM recip
  else vectorDifference vec offsetP offsetM halfRecip.

Definition jacobianAtBoundary (vec : UniformGrid F (Vec3 F)) (index : Index) : Mat33 F :=
  let dims0 := GetNumPoints vec 0 in
  let dims1 := GetNumPoints vec 1 in
  let dims2 := GetNumPoints vec 2 in
  let o := ASSIGN_XYZ_OFFSETS dims0 dims1 index in
  let r := reciprocalSpacing (GetCellSpacing vec) in
  let h := halfReciprocalSpacing (GetCellSpacing vec) in
  Mat33.mk
    (jacobianRowAtBoundary vec (fst (fst index)) (dims0 - 1)
       (offsetXMY0Z0 o) (offsetX0Y0Z0 o) (offsetXPY0Z0 o) (Vec3.x r) (Vec3.x h))
    (jacobianRowAtBoundary vec (snd (fst index)) (dims1 - 1)
       (offsetX0YMZ0 o) (offsetX0Y0Z0 o) (offsetX0YPZ0 o) (Vec3.y r) (Vec3.y h))
    (jacobianRowAtBoundary vec (snd index) (dims2 - 1)
       (offsetX0Y0ZM o) (offsetX0Y0Z0 o) (offsetX0Y0ZP o) (Vec3.z r) (Vec3.z h)).

Definition ComputeJacobian (jacobian : UniformGrid F (Mat33 F))
    (vec : UniformGrid F (Vec3 F)) : UniformGrid F (Mat33 F) :=
  let dims0 := GetNumPoints vec 0 in
  let dims1 := GetNumPoints vec 1 in
  let dims2 := GetNumPoints vec 2 in
  fold_left (writeAt dims0 dims1 (jacobianAtBoundary vec))
    (facePoints dims0 dims1 dims2)
    (fold_left (writeAt dims0 dims1 (jacobianInterior vec))
       (interiorSlicePoints dims0 dims1 1 (dims2 - 1)) jacobian).

(** [( vec[ a ] + vec[ b ] - 2.0f * vec[ c ] ) * r2]: one axis of the
    Laplacian. *)
Definition secondDifference (vec : UniformGrid F (Vec3 F)) (a b c : nat) (r2 : F)
    : Vec3 F :=
  vscale (vsub (vadd (gridGet vec a) (gridGet vec b))
               (svmul (fconst 2) (gridGet vec c))) r2.

(** The body of the interior loop of [ComputeLaplacian] (its [#if 1]
    branch). *)
Definition laplacianInterior (vec : UniformGrid F (Vec3 F)) (index : Index) : Vec3 F :=
  let o := ASSIGN_XYZ_OFFSETS (GetNumPoints vec 0) (GetNumPoints vec 1) index in
  let r2 := reciprocalSpacing2 (GetCellSpacing vec) in
  vadd
    (vadd
      (secondDifference vec (offsetXPY0Z0 o) (offsetXMY0Z0 o) (offsetX0Y0Z0 o) (Vec3.x r2))
      (secondDifference vec (offsetX0YPZ0 o) (offsetX0YMZ0 o) (offsetX0Y0Z0 o) (Vec3.y r2)))
    (secondDifference vec (offsetX0Y0ZP o) (offsetX0Y0ZM o) (offsetX0Y0Z0 o) (Vec3.z r2)).

(** One axis of [COMPUTE_FINITE_PARTIAL_DIFFERENTIALS_AT_BOUNDARIES] of
    [ComputeLaplacian]: a one-sided second difference reaching two steps
    inward at either end, the centered one in between. *)
Definition laplacianTermAtBoundary (vec : UniformGrid F (Vec3 F))
    (idx dimsMinus1 offsetMM offsetM offset0 offsetP offsetPP : nat) (r2 : F) : Vec3 F :=
  if idx =? 0 then secondDifference vec offsetPP offset0 offsetP r2
  else if idx =? dimsMinus1 then secondDifference vec offset0 offsetMM offsetM r2
  else secondDifference vec offsetP offsetM offset0 r2.

Definition laplacianAtBoundary (vec : UniformGrid F (Vec3 F)) (index : Index) : Vec3 F :=
  let dims0 := GetNumPoints vec 0 in
  let dims1 := GetNumPoints vec 1 in
  let dims2 := GetNumPoints vec 2 in
  let o := ASSIGN_XYZ_OFFSETS dims0 dims1 index in
  let oo := ASSIGN_XXYYZZ_OFFSETS dims0 dims1 index in
  let r2 := reciprocalSpacing2 (GetCellSpacing vec) in
  vadd
    (vadd
      (laplacianTermAtBoundary vec (fst (fst index)) (dims0 - 1)
         (offsetXMMY0Z0 oo) (offsetXMY0Z0 o) (offsetX0Y0Z0 o) (offsetXPY0Z0 o)
         (offsetXPPY0Z0 oo) (Vec3.x r2))
      (laplacianTermAtBoundary vec (snd (fst index)) (dims1 - 1)
         (offsetX0YMMZ0 oo) (offsetX0YMZ0 o) (offsetX0Y0Z0 o) (offsetX0YPZ0 o)
         (offsetX0YPPZ0 oo) (Vec3.y r2)))
    (laplacianTermAtBoundary vec (snd index) (dims2 - 1)
       (offsetX0Y0ZMM oo) (offsetX0Y0ZM o) (offsetX0Y0Z0 o) (offsetX0Y0ZP o)
       (offsetX0Y0ZPP oo) (Vec3.z r2)).

Definition ComputeLaplacian (laplacian vec : UniformGrid F (Vec3 F))
    : UniformGrid F (Vec3 F) :=
  let dims0 := GetNumPoints vec 0 in
  let dims1 := GetNumPoints vec 1 in
  let dims2 := GetNumPoints vec 2 in
  fold_left (writeAt dims0 dims1 (laplacianAtBoundary vec))
    (facePoints dims0 dims1 dims2)
    (fold_left (writeAt dims0 dims1 (laplacianInterior vec))
       (interiorSlicePoints dims0 dims1 1 (dims2 - 1)) laplacian).

End JacobianLaplacian.

(* ================================================================== *)
(** ** Grid statistics *)

Section Statistics.
Context {F : Type} `{Scalar F} `{Inhabited F}.

(** Every point of the grid, z outermost, x innermost. *)
Definition allPoints (end0 end1 end2 : nat) : list Index :=
  flat_map (fun idx2 =>
    flat_map (fun idx1 =>
      map (fun idx0 => (idx0, idx1, idx2)) (forLoop 0 end0 1))
      (forLoop 0 end1 1))
    (forLoop 0 end2 1).

(** The tallies of the loop of [FindValueStats]:
    [valMin], [valMax], [sum], [sum2]. *)
Definition tallyValue (scalarGrid : UniformGrid F F) (acc : F * F * F * F)
    (idx : Index) : F * F * F * F :=
  let '(valMin, valMax, sum, sum2) := acc in
  let value := gridGet scalarGrid (OffsetFromIndices scalarGrid idx) in
  (Min2 value valMin, Max2 value valMax, fadd sum value, fadd sum2 (fmul value value)).

(** [FindValueStats]: its four outputs [valMin], [valMax], [valMean],
    [valStdDev]. *)
Definition FindValueStats (scalarGrid : UniformGrid F F) : F * F * F * F :=
  let '(valMin, valMax, sum, sum2) :=
    fold_left (tallyValue scalarGrid)
      (allPoints (GetNumPoints scalarGrid 0) (GetNumPoints scalarGrid 1)
                 (GetNumPoints scalarGrid 2))
      (FLT_MAX, fopp FLT_MAX, fconst 0, fconst 0) in
  let numValues := Size scalarGrid in
  let valMean := fdiv sum (fofnat numValues) in
  let mean2 := fdiv sum2 (fofnat numValues) in
  let mean_2 := fmul valMean valMean in
  let variance := fsub mean2 mean_2 in
  (valMin, valMax, valMean, fsqrt (Max2 variance (fconst 0))).

End Statistics.

(* ================================================================== *)
(** ** Vocabulary of the statements *)

(** A loop body that stores [val g p] at offset [off p] of the grid. *)
Definition writeStep {F T : Type} (off : Index -> nat)
    (val : UniformGrid F T -> Index -> T) (g : UniformGrid F T) (p : Index)
    : UniformGrid F T :=
  gridSet g (off p) (val g p).

(** The colour of a point: [(z_index + y_index) mod 2]. *)
Definition colorParity (iy iz : nat) : nat := (iy + iz) mod 2.

Section PassVocabulary.
Context {F : Type} `{Scalar F} `{Inhabited F}.

(** The offset [offsetX0Y0Z0] of a point, with the point counts of [lap]
    (the grid every loop of the pass takes its bounds from). *)
Definition pointOffset {T} (lap : UniformGrid F T) (index : Index) : nat :=
  offsetX0Y0Z0 (ASSIGN_XYZ_OFFSETS (GetNumPoints lap 0) (GetNumPoints lap 1) index).

(** [offsetInterior] of [ASSIGN_VALUES_ON_BOUNDARY_POINTS]. *)
Definition interiorOffset {T} (lap : UniformGrid F T) (index : Index) : nat :=
  Clamp (fst (fst index)) 1 (GetNumPoints lap 0 - 1 - 1)
  + GetNumPoints lap 0 * Clamp (snd (fst index)) 1 (GetNumPoints lap 1 - 1 - 1)
  + GetNumPoints lap 0 * GetNumPoints lap 1
    * Clamp (snd index) 1 (GetNumPoints lap 2 - 1 - 1).

(** The solution grid after the interior loop body has run at the points
    [l], in that order. *)
Definition relaxPoints (lap : UniformGrid F (Vec3 F)) (l : list Index)
    (soln : UniformGrid F (Vec3 F)) : UniformGrid F (Vec3 F) :=
  fold_left (writeStep (pointOffset lap) (fun g p => updatedVal g lap p)) l soln.

(** The solution grid after the interior loop nest of a pass. *)
Definition relaxInterior (lap : UniformGrid F (Vec3 F)) (izStart izEnd : nat)
    (redOrBlack : GaussSeidelPortionE) (soln : UniformGrid F (Vec3 F))
    : UniformGrid F (Vec3 F) :=
  relaxPoints lap
    (interiorPoints (GetNumPoints lap 0) (GetNumPoints lap 1) (GetNumPoints lap 2)
       izStart izEnd redOrBlack)
    soln.

(** The boundary block of a pass, applied to the grid the interior loop
    nest leaves. *)
Definition applyBoundary (lap : UniformGrid F (Vec3 F)) (izStart izEnd : nat)
    (redOrBlack : GaussSeidelPortionE) (boundaryCondition : BoundaryConditionE)
    (soln : UniformGrid F (Vec3 F)) : UniformGrid F (Vec3 F) :=
  match boundaryCondition with
  | BC_NEUMANN =>
      fold_left (assignBoundaryPoint (GetNumPoints lap 0) (GetNumPoints lap 1)
                   (GetNumPoints lap 2))
        (boundaryPoints (GetNumPoints lap 0) (GetNumPoints lap 1) (GetNumPoints lap 2)
           izStart izEnd redOrBlack)
        soln
  | BC_DIRICHLET => soln
  end.

(** The offsets a pass stores to, in the order of the stores. *)
Definition writtenOffsets (lap : UniformGrid F (Vec3 F)) (izStart izEnd : nat)
    (redOrBlack : GaussSeidelPortionE) (boundaryCondition : BoundaryConditionE)
    : list nat :=
  map (pointOffset lap)
    (interiorPoints (GetNumPoints lap 0) (GetNumPoints lap 1) (GetNumPoints lap 2)
       izStart izEnd redOrBlack)
  ++ match boundaryCondition with
     | BC_NEUMANN =>
         map (pointOffset lap)
           (boundaryPoints (GetNumPoints lap 0) (GetNumPoints lap 1)
              (GetNumPoints lap 2) izStart izEnd redOrBlack)
     | BC_DIRICHLET => []
     end.

End PassVocabulary.

(* ================================================================== *)
(** ** The relaxation rule in the words of the specification *)

Section SpecRule.
#[local] Open Scope R_scope.

(** [1/spacing[a]^2] on the three axes. *)
Definition specReciprocal2 (spacing : Vec3 R) : Vec3 R :=
  Vec3.mk (1 / (Vec3.x spacing * Vec3.x spacing))
          (1 / (Vec3.y spacing * Vec3.y spacing))
          (1 / (Vec3.z spacing * Vec3.z spacing)).

(** The same, with 0 on the z axis when [spacing.z] does not exceed
    [FLT_EPSILON]. *)
Definition guardedReciprocal2 (spacing : Vec3 R) : Vec3 R :=
  Vec3.mk (1 / (Vec3.x spacing * Vec3.x spacing))
          (1 / (Vec3.y spacing * Vec3.y spacing))
          (if Rlt_dec FLT_EPSILON (Vec3.z spacing)
           then 1 / (Vec3.z spacing * Vec3.z spacing) else 0).

(** [(1-w)*old + w*HalfSpacing2Sum*(sum over the axes of
    (soln[+1]+soln[-1])*recip2[a] - source[point])] with
    [HalfSpacing2Sum = 0.5 / (sum of recip2[a])] and [w = 1.72], the
    neighbours being addressed by their indices. *)
Definition sorUpdate (recip2 : Vec3 R) (soln lap : UniformGrid R (Vec3 R))
    (index : Index) : Vec3 R :=
  let ix := fst (fst index) in
  let iy := snd (fst index) in
  let iz := snd index in
  let sample p := gridGet soln (OffsetFromIndices soln p) in
  let omega := 1.72 in
  let HalfSpacing2Sum := 0.5 / (Vec3.x recip2 + Vec3.y recip2 + Vec3.z recip2) in
  vadd (svmul (1 - omega) (sample (ix, iy, iz)))
       (svmul (omega * HalfSpacing2Sum)
          (vsub
             (vadd
                (vadd
                   (svmul (Vec3.x recip2)
                      (vadd (sample (ix + 1, iy, iz)%nat) (sample (ix - 1, iy, iz)%nat)))
                   (svmul (Vec3.y recip2)
                      (vadd (sample (ix, iy + 1, iz)%nat) (sample (ix, iy - 1, iz)%nat))))
                (svmul (Vec3.z recip2)
                   (vadd (sample (ix, iy, iz + 1)%nat) (sample (ix, iy, iz - 1)%nat))))
             (gridGet lap (OffsetFromIndices lap (ix, iy, iz))))).

End SpecRule.

(* ================================================================== *)
(** ** Concrete grids for the worked cases *)

Module ExactExamples.
#[local] Open Scope R_scope.

Definition zero3 : Vec3 R := Vec3.mk 0 0 0.
Definition stats0 : Stats_Float R := mkStats 0 0 0 0.

(** A 3x3x3 box whose z spacing, 2^-24, is below [FLT_EPSILON]; the sample
    above the centre, (1,1,2), holds (1,0,0), the rest is zero. *)
Definition thinSpacing : Vec3 R := Vec3.mk 1 1 (/ 16777216).
Definition solnThin : UniformGrid R (Vec3 R) :=
  mkGrid 3 3 3 thinSpacing (<[22%nat := Vec3.mk 1 0 0]> (repeat zero3 27)).
Definition lapThin : UniformGrid R (Vec3 R) :=
  mkGrid 3 3 3 thinSpacing (repeat zero3 27).

End ExactExamples.

Module FloatExamples.

Definition b32 (n : Z) : spec_float := Binary32.ofZ n.
Definition vec (a b c : Z) : Vec3 spec_float := Vec3.mk (b32 a) (b32 b) (b32 c).
Definition stats0 : Stats_Float spec_float :=
  mkStats (b32 0) (b32 0) (b32 0) (b32 0).

(** The 3x3x3 box with unit spacing: a zero solution, and a source that is
    (1,0,0) at the centre (1,1,1) and zero elsewhere. *)
Definition solnZero : UniformGrid spec_float (Vec3 spec_float) :=
  mkGrid 3 3 3 (vec 1 1 1) (repeat (vec 0 0 0) 27).
Definition lapCentre : UniformGrid spec_float (Vec3 spec_float) :=
  mkGrid 3 3 3 (vec 1 1 1) (<[13 := vec 1 0 0]> (repeat (vec 0 0 0) 27)).

End FloatExamples.

Module ConditionalExamples.
Import FloatExamples.

(** The 3x3x3 box with unit spacing and the scalar field f = x index, every
    sample a number; and a zeroed gradient grid of that shape. *)
Definition rampX : UniformGrid spec_float spec_float :=
  mkGrid 3 3 3 (vec 1 1 1)
    (flat_map (fun _ => [b32 0; b32 1; b32 2]) (seq 0 9)).
Definition gradZero : UniformGrid spec_float (Vec3 spec_float) :=
  mkGrid 3 3 3 (vec 1 1 1) (repeat (vec 0 0 0) 27).

(** The same field with the centre sample (1,1,1) invalid. *)
Definition rampXHole : UniformGrid spec_float spec_float :=
  mkGrid 3 3 3 (vec 1 1 1)
    (<[13 := S754_nan]> (flat_map (fun _ => [b32 0; b32 1; b32 2]) (seq 0 9))).

End ConditionalExamples.

(* ================================================================== *)
(** ** The gradient stencil in the words of the specification *)

Section SpecStencil.
#[local] Open Scope R_scope.

(** The reciprocal spacings, the one of z being 0 when [spacing.z] does not
    exceed [FLT_EPSILON]. *)
Definition guardedReciprocal (spacing : Vec3 R) : Vec3 R :=
  Vec3.mk (1 / Vec3.x spacing) (1 / Vec3.y spacing)
          (if Rlt_dec FLT_EPSILON (Vec3.z spacing) then 1 / Vec3.z spacing else 0).

(** Along one axis, [f] being the samples of the line through the point:
    forward difference at index 0, backward difference at index dims - 1,
    centered difference [(f[+1]-f[-1]) * 0.5/spacing] in between. *)
Definition stencilDifference (f : nat -> R) (idx dims : nat) (recip : R) : R :=
  if (idx =? 0)%nat then (f (idx + 1)%nat - f idx) * recip
  else if (idx =? dims - 1)%nat then (f idx - f (idx - 1)%nat) * recip
  else (f (idx + 1)%nat - f (idx - 1)%nat) * (0.5 * recip).

Definition specGradient (scalarVals : UniformGrid R R) (index : Index) : Vec3 R :=
  let ix := fst (fst index) in
  let iy := snd (fst index) in
  let iz := snd index in
  let sample p := gridGet scalarVals (OffsetFromIndices scalarVals p) in
  let r := guardedReciprocal (cellSpacing scalarVals) in
  Vec3.mk
    (stencilDifference (fun i => sample (i, iy, iz)) ix (numPoints0 scalarVals) (Vec3.x r))
    (stencilDifference (fun j => sample (ix, j, iz)) iy (numPoints1 scalarVals) (Vec3.y r))
    (stencilDifference (fun k => sample (ix, iy, k)) iz (numPoints2 scalarVals) (Vec3.z r)).


End SpecStencil.

Module GradientExamples.
#[local] Open Scope R_scope.

Definition gradZero : UniformGrid R (Vec3 R) :=
  mkGrid 2 2 2 (Vec3.mk 2 1 1) (repeat (Vec3.mk 0 0 0) 8).

End GradientExamples.

Module DegenerateExamples.
Import FloatExamples.

(** A 2x2x2 box whose x spacing is 0, holding the constant field 1; and a
    zeroed gradient grid of that shape. *)
Definition flatX : Vec3 spec_float := vec 0 1 1.
Definition gradZero : UniformGrid spec_float (Vec3 spec_float) :=
  mkGrid 2 2 2 flatX (repeat (vec 0 0 0) 8).

End DegenerateExamples.

Module ResidualExamples.
Import FloatExamples.

(** The 3x3x8 box with unit spacing, a zero solution, and a source that is
    (183,0,0) at the three black interior points (1,1,2), (1,1,4), (1,1,6)
    and zero elsewhere. *)
Definition soln : UniformGrid spec_float (Vec3 spec_float) :=
  mkGrid 3 3 8 (vec 1 1 1) (repeat (vec 0 0 0) 72).
Definition lap : UniformGrid spec_float (Vec3 spec_float) :=
  mkGrid 3 3 8 (vec 1 1 1)
    (<[22 := vec 183 0 0]> (<[40 := vec 183 0 0]> (<[58 := vec 183 0 0]>
       (repeat (vec 0 0 0) 72)))).

(** The state of the interior loop of the black pass of the first round,
    when the loop ends: the raw tallies and the count. *)
Definition blackTallies : RelaxState :=
  fold_left (relaxPoint lap) (interiorPoints 3 3 8 0 8 GS_BLACK)
    {| rsSoln := fst (StepTowardVectorPoissonSolution soln lap 0 8 GS_RED
                        BC_DIRICHLET stats0);
       rsStats := {| mMean := fconst 0; mStdDev := fconst 0;
                     mMin := FLT_MAX; mMax := fopp FLT_MAX |};
       rsCount := 0 |}.

(** [variance] of the final block, from those tallies. *)
Definition blackVariance : spec_float :=
  let count := fofnat (rsCount blackTallies) in
  fsub (fdiv (mStdDev (rsStats blackTallies)) count)
       (Pow2 (fdiv (mMean (rsStats blackTallies)) count)).

End ResidualExamples.

Module NarrowExamples.
#[local] Open Scope R_scope.

Definition gradZero : UniformGrid R (Vec3 R) :=
  mkGrid 1 2 2 (Vec3.mk 1 1 1) (repeat (Vec3.mk 0 0 0) 4).

End NarrowExamples.

(* ================================================================== *)
(** ** Curl from the Jacobian *)

Section Curl.
Context {F : Type} `{Scalar F} `{Inhabited F}.

(** [Vec3( j.y.z - j.z.y , j.z.x - j.x.z , j.x.y - j.y.x )]. *)
Definition curlOfJacobian (j : Mat33 F) : Vec3 F :=
  Vec3.mk (fsub (Vec3.z (Mat33.y j)) (Vec3.y (Mat33.z j)))
          (fsub (Vec3.x (Mat33.z j)) (Vec3.z (Mat33.x j)))
          (fsub (Vec3.y (Mat33.x j)) (Vec3.x (Mat33.y j))).

(** [offsetXYZ] of the loop nests that run over every point:
    [index[0] + ( dims[ 0 ] * index[1] + numXY * index[2] )]. *)
Definition offsetXYZ (dims0 dims1 : nat) (index : Index) : nat :=
  let numXY := dims0 * dims1 in
  let offsetZ := numXY * snd index in
  let offsetYZ := dims0 * snd (fst index) + offsetZ in
  fst (fst index) + offsetYZ.

(** The body of the loop nest of [ComputeCurlFromJacobian]. *)
Definition curlStep (jacobian : UniformGrid F (Mat33 F))
    (curl : UniformGrid F (Vec3 F)) (index : Index) : UniformGrid F (Vec3 F) :=
  let o := offsetXYZ (GetNumPoints jacobian 0) (GetNumPoints jacobian 1) index in
  gridSet curl o (curlOfJacobian (gridGet jacobian o)).

Definition ComputeCurlFromJacobian (curl : UniformGrid F (Vec3 F))
    (jacobian : UniformGrid F (Mat33 F)) : UniformGrid F (Vec3 F) :=
  fold_left (curlStep jacobian)
    (allPoints (GetNumPoints jacobian 0) (GetNumPoints jacobian 1)
               (GetNumPoints jacobian 2))
    curl.

End Curl.

(* ================================================================== *)
(** ** Value and magnitude ranges, matrix statistics *)

Section Ranges.
Context {F : Type} `{Scalar F} `{Inhabited F}.

(** The tallies of the loop of [FindValueRange]: [valMin], [valMax]. *)
Definition tallyRange (scalarGrid : UniformGrid F F) (acc : F * F) (idx : Index)
    : F * F :=
  let '(valMin, valMax) := acc in
  let value := gridGet scalarGrid (OffsetFromIndices scalarGrid idx) in
  (Min2 value valMin, Max2 value valMax).

Definition FindValueRange (scalarGrid : UniformGrid F F) : F * F :=
  fold_left (tallyRange scalarGrid)
    (allPoints (GetNumPoints scalarGrid 0) (GetNumPoints scalarGrid 1)
               (GetNumPoints scalarGrid 2))
    (FLT_MAX, fopp FLT_MAX).

(** Modelled from the spec: [Vec3::Mag2] is not in the translation unit;
    "squared magnitude", the sum of the squares of the components, as under
    the root of [Magnitude]. *)
Definition Mag2 (v : Vec3 F) : F :=
  fadd (fadd (fmul (Vec3.x v) (Vec3.x v)) (fmul (Vec3.y v) (Vec3.y v)))
       (fmul (Vec3.z v) (Vec3.z v)).

(** The tallies of the loop of [FindMagnitudeRange]: the smallest and the
    largest squared magnitude. *)
Definition tallyMagnitude (vec : UniformGrid F (Vec3 F)) (acc : F * F)
    (index : Index) : F * F :=
  let '(magMin, magMax) := acc in
  let offset := offsetXYZ (GetNumPoints vec 0) (GetNumPoints vec 1) index in
  let mag2 := Mag2 (gridGet vec offset) in
  (Min2 magMin mag2, Max2 magMax mag2).

(** [FindMagnitudeRange]: its outputs [magMin], [magMax]. *)
Definition FindMagnitudeRange (vec : UniformGrid F (Vec3 F)) : F * F :=
  let '(magMin, magMax) :=
    fold_left (tallyMagnitude vec)
      (allPoints (GetNumPoints vec 0) (GetNumPoints vec 1) (GetNumPoints vec 2))
      (FLT_MAX, fopp FLT_MAX) in
  (fsqrt magMin, fsqrt magMax).

(** Component-wise [Min2] and [Max2] of two rows, as the eighteen
    assignments of the loop body of [ComputeStatistics] perform them. *)
Definition rowMin (a b : Vec3 F) : Vec3 F :=
  Vec3.mk (Min2 (Vec3.x a) (Vec3.x b)) (Min2 (Vec3.y a) (Vec3.y b))
          (Min2 (Vec3.z a) (Vec3.z b)).
Definition rowMax (a b : Vec3 F) : Vec3 F :=
  Vec3.mk (Max2 (Vec3.x a) (Vec3.x b)) (Max2 (Vec3.y a) (Vec3.y b))
          (Max2 (Vec3.z a) (Vec3.z b)).

(** The body of the loop nest of [UniformGrid<Mat33>::ComputeStatistics]:
    [min.r.c = Min2( min.r.c , rVal.r.c )] and
    [max.r.c = Max2( max.r.c , rVal.r.c )] for the nine components. *)
Definition tallyMat33 (grid : UniformGrid F (Mat33 F)) (acc : Mat33 F * Mat33 F)
    (index : Index) : Mat33 F * Mat33 F :=
  let '(min, max) := acc in
  let offset := offsetXYZ (GetNumPoints grid 0) (GetNumPoints grid 1) index in
  let rVal := gridGet grid offset in
  (Mat33.mk (rowMin (Mat33.x min) (Mat33.x rVal))
            (rowMin (Mat33.y min) (Mat33.y rVal))
            (rowMin (Mat33.z min) (Mat33.z rVal)),
   Mat33.mk (rowMax (Mat33.x max) (Mat33.x rVal))
            (rowMax (Mat33.y max) (Mat33.y rVal))
            (rowMax (Mat33.z max) (Mat33.z rVal))).

(** [UniformGrid<Mat33>::ComputeStatistics]: its outputs [min], [max];
    they start from [Mat33( vMax , vMax , vMax )] and its negation. *)
Definition ComputeStatistics (grid : UniformGrid F (Mat33 F)) : Mat33 F * Mat33 F :=
  let vMax := Vec3.mk FLT_MAX FLT_MAX FLT_MAX in
  let vMin := Vec3.mk (fopp FLT_MAX) (fopp FLT_MAX) (fopp FLT_MAX) in
  fold_left (tallyMat33 grid)
    (allPoints (GetNumPoints grid 0) (GetNumPoints grid 1) (GetNumPoints grid 2))
    (Mat33.mk vMax vMax vMax, Mat33.mk vMin vMin vMin).

End Ranges.

(* ================================================================== *)
(** ** Vocabulary of the further statements *)

(** The scalar field of one component of a vector field: the same grid,
    each sample replaced by its component [c]. *)
Definition componentGrid {F : Type} (c : Vec3 F -> F) (vec : UniformGrid F (Vec3 F))
    : UniformGrid F F :=
  mkGrid (numPoints0 vec) (numPoints1 vec) (numPoints2 vec) (cellSpacing vec)
         (map c (contents vec)).

(** The offsets whose samples the interior loop body of the relaxation pass
    reads at [index]: the six neighbours and the point itself. *)
Definition stencilReads (dims0 dims1 : nat) (index : Index) : list nat :=
  let o := ASSIGN_XYZ_OFFSETS dims0 dims1 index in
  [offsetXPY0Z0 o; offsetXMY0Z0 o; offsetX0YPZ0 o; offsetX0YMZ0 o;
   offsetX0Y0ZP o; offsetX0Y0ZM o; offsetX0Y0Z0 o].

(** Two points are independent when neither interior loop body reads the
    sample that the other one stores. *)
Definition independentPoints {F : Type} (lap : UniformGrid F (Vec3 F))
    (p q : Index) : Prop :=
  ~ In (pointOffset lap q) (stencilReads (numPoints0 lap) (numPoints1 lap) p) /\
  ~ In (pointOffset lap p) (stencilReads (numPoints0 lap) (numPoints1 lap) q).

Section ExactFields.
#[local] Open Scope R_scope.

(** The second difference of the Laplacian along one axis, [f] being the
    samples of the line through the point: one-sided, reaching two steps
    inward, at index 0 and at index dims - 1; centered in between. *)
Definition secondStencil (f : nat -> Vec3 R) (idx dims : nat) (r2 : R) : Vec3 R :=
  if (idx =? 0)%nat then
    vscale (vsub (vadd (f (idx + 2)%nat) (f idx)) (svmul (fconst 2) (f (idx + 1)%nat))) r2
  else if (idx =? dims - 1)%nat then
    vscale (vsub (vadd (f idx) (f (idx - 2)%nat)) (svmul (fconst 2) (f (idx - 1)%nat))) r2
  else
    vscale (vsub (vadd (f (idx + 1)%nat) (f (idx - 1)%nat)) (svmul (fconst 2) (f idx))) r2.

(** The physical position of a grid point relative to the corner of the
    grid: [(ix * spacing.x, iy * spacing.y, iz * spacing.z)]. *)
Definition positionOf (spacing : Vec3 R) (index : Index) : Vec3 R :=
  Vec3.mk (INR (fst (fst index)) * Vec3.x spacing)
          (INR (snd (fst index)) * Vec3.y spacing)
          (INR (snd index) * Vec3.z spacing).

(** The samples of [scalarVals] are [a + b . r] at the position [r] of each
    point. *)
Definition isAffineScalar (scalarVals : UniformGrid R R) (a : R) (b : Vec3 R)
    : Prop :=
  forall ix iy iz : nat,
    (ix < numPoints0 scalarVals)%nat -> (iy < numPoints1 scalarVals)%nat ->
    (iz < numPoints2 scalarVals)%nat ->
    let r := positionOf (cellSpacing scalarVals) (ix, iy, iz) in
    gridGet scalarVals (OffsetFromIndices scalarVals (ix, iy, iz))
    = a + Vec3.x b * Vec3.x r + Vec3.y b * Vec3.y r + Vec3.z b * Vec3.z r.

(** The samples of [vec] are [v0 + r.x * gx + r.y * gy + r.z * gz] at the
    position [r] of each point: an affine vector field whose derivative
    along axis a is the vector [ga]. *)
Definition isAffineVector (vec : UniformGrid R (Vec3 R)) (v0 gx gy gz : Vec3 R)
    : Prop :=
  forall ix iy iz : nat,
    (ix < numPoints0 vec)%nat -> (iy < numPoints1 vec)%nat ->
    (iz < numPoints2 vec)%nat ->
    let r := positionOf (cellSpacing vec) (ix, iy, iz) in
    gridGet vec (OffsetFromIndices vec (ix, iy, iz))
    = vadd (vadd (vadd v0 (svmul (Vec3.x r) gx)) (svmul (Vec3.y r) gy))
           (svmul (Vec3.z r) gz).

(** The cross product [a x b]. *)
Definition cross (a b : Vec3 R) : Vec3 R :=
  Vec3.mk (Vec3.y a * Vec3.z b - Vec3.z a * Vec3.y b)
          (Vec3.z a * Vec3.x b - Vec3.x a * Vec3.z b)
          (Vec3.x a * Vec3.y b - Vec3.y a * Vec3.x b).

(** The samples of [vec] are the velocity [omega x (r - centre)] of a rigid
    rotation. *)
Definition isRotationField (vec : UniformGrid R (Vec3 R)) (omega centre : Vec3 R)
    : Prop :=
  forall ix iy iz : nat,
    (ix < numPoints0 vec)%nat -> (iy < numPoints1 vec)%nat ->
    (iz < numPoints2 vec)%nat ->
    gridGet vec (OffsetFromIndices vec (ix, iy, iz))
    = cross omega (vsub (positionOf (cellSpacing vec) (ix, iy, iz)) centre).

(** The samples of [vec] are
    [v0 + r.x * gx + r.y * gy + r.z * gz + r.x^2 * qx + r.y^2 * qy + r.z^2 * qz]
    at the position [r] of each point. *)
Definition isQuadraticVector (vec : UniformGrid R (Vec3 R))
    (v0 gx gy gz qx qy qz : Vec3 R) : Prop :=
  forall ix iy iz : nat,
    (ix < numPoints0 vec)%nat -> (iy < numPoints1 vec)%nat ->
    (iz < numPoints2 vec)%nat ->
    let r := positionOf (cellSpacing vec) (ix, iy, iz) in
    gridGet vec (OffsetFromIndices vec (ix, iy, iz))
    = vadd
        (vadd (vadd (vadd v0 (svmul (Vec3.x r) gx)) (svmul (Vec3.y r) gy))
              (svmul (Vec3.z r) gz))
        (vadd (vadd (svmul (Vec3.x r * Vec3.x r) qx)
                    (svmul (Vec3.y r * Vec3.y r) qy))
              (svmul (Vec3.z r * Vec3.z r) qz)).

(** Component-wise order on matrices. *)
Definition rowLe (a b : Vec3 R) : Prop :=
  Vec3.x a <= Vec3.x b /\ Vec3.y a <= Vec3.y b /\ Vec3.z a <= Vec3.z b.
Definition mat33Le (a b : Mat33 R) : Prop :=
  rowLe (Mat33.x a) (Mat33.x b) /\ rowLe (Mat33.y a) (Mat33.y b) /\
  rowLe (Mat33.z a) (Mat33.z b).

End ExactFields.

(* ================================================================== *)
(** ** Concrete grids for the further worked cases *)

Module OperatorExamples.
Import FloatExamples.

(** 3x3x3 boxes with unit spacing: a gradient grid that holds (1,1,1)
    everywhere, a zeroed matrix grid, and a matrix grid that holds the
    Jacobian of the rotation about z everywhere. *)
Definition gradOnes : UniformGrid spec_float (Vec3 spec_float) :=
  mkGrid 3 3 3 (vec 1 1 1) (repeat (vec 1 1 1) 27).
Definition jacZero : UniformGrid spec_float (Mat33 spec_float) :=
  mkGrid 3 3 3 (vec 1 1 1)
    (repeat (Mat33.mk (vec 0 0 0) (vec 0 0 0) (vec 0 0 0)) 27).
Definition jacSkew : UniformGrid spec_float (Mat33 spec_float) :=
  mkGrid 3 3 3 (vec 1 1 1)
    (repeat (Mat33.mk (vec 0 1 0) (vec (-1) 0 0) (vec 0 0 0)) 27).

(** The 3x3x5 box with unit spacing and the scalar field f = x index; a
    gradient grid of that shape that holds (1,1,1) everywhere. *)
Definition rampX5 : UniformGrid spec_float spec_float :=
  mkGrid 3 3 5 (vec 1 1 1)
    (flat_map (fun _ => [b32 0; b32 1; b32 2]) (seq 0 15)).
Definition gradOnes5 : UniformGrid spec_float (Vec3 spec_float) :=
  mkGrid 3 3 5 (vec 1 1 1) (repeat (vec 1 1 1) 45).

(** A 2x3x3 box: it has no interior point. *)
Definition thinSoln : UniformGrid spec_float (Vec3 spec_float) :=
  mkGrid 2 3 3 (vec 1 1 1) (repeat (vec 1 2 3) 18).
Definition thinLap : UniformGrid spec_float (Vec3 spec_float) :=
  mkGrid 2 3 3 (vec 1 1 1) (repeat (vec 1 0 0) 18).

(** Grids without points. *)
Definition emptyScalar : UniformGrid spec_float spec_float :=
  mkGrid 0 3 3 (vec 1 1 1) [].
Definition emptyVec : UniformGrid spec_float (Vec3 spec_float) :=
  mkGrid 0 3 3 (vec 1 1 1) [].

End OperatorExamples.

Module FieldExamples.
#[local] Open Scope R_scope.

(** The 2x2x2 box with spacing (2,1,1) and the field 1 + 2x + 3y + 4z. *)
Definition plane : UniformGrid R R :=
  mkGrid 2 2 2 (Vec3.mk 2 1 1) [1; 5; 4; 8; 5; 9; 8; 12].

(** The 2x2x2 box with unit spacing and the velocity (-y, x, 0) of the
    rotation about the z axis with angular velocity (0, 0, 1); a zeroed
    matrix grid and a zeroed vector grid of that shape. *)
Definition rotation : UniformGrid R (Vec3 R) :=
  mkGrid 2 2 2 (Vec3.mk 1 1 1)
    [Vec3.mk 0 0 0; Vec3.mk 0 1 0; Vec3.mk (-1) 0 0; Vec3.mk (-1) 1 0;
     Vec3.mk 0 0 0; Vec3.mk 0 1 0; Vec3.mk (-1) 0 0; Vec3.mk (-1) 1 0].
Definition jacZero : UniformGrid R (Mat33 R) :=
  mkGrid 2 2 2 (Vec3.mk 1 1 1)
    (repeat (Mat33.mk (Vec3.mk 0 0 0) (Vec3.mk 0 0 0) (Vec3.mk 0 0 0)) 8).
Definition curlZero : UniformGrid R (Vec3 R) :=
  mkGrid 2 2 2 (Vec3.mk 1 1 1) (repeat (Vec3.mk 0 0 0) 8).

(** The 3x3x3 box with unit spacing and the field (x^2, 0, 0); a zeroed
    vector grid of that shape. *)
Definition parabola : UniformGrid R (Vec3 R) :=
  mkGrid 3 3 3 (Vec3.mk 1 1 1)
    (flat_map (fun _ => [Vec3.mk 0 0 0; Vec3.mk 1 0 0; Vec3.mk 4 0 0]) (seq 0 9)).
Definition lapZero : UniformGrid R (Vec3 R) :=
  mkGrid 3 3 3 (Vec3.mk 1 1 1) (repeat (Vec3.mk 0 0 0) 27).

(** The 3x3x5 box with unit spacing, a zero solution and a source that is
    (6,0,0) at (1,1,1), (12,0,0) at (1,1,3) and zero elsewhere. *)
Definition relaxSoln : UniformGrid R (Vec3 R) :=
  mkGrid 3 3 5 (Vec3.mk 1 1 1) (repeat (Vec3.mk 0 0 0) 45).
Definition relaxLap : UniformGrid R (Vec3 R) :=
  mkGrid 3 3 5 (Vec3.mk 1 1 1)
    (<[13%nat := Vec3.mk 6 0 0]>
       (<[31%nat := Vec3.mk 12 0 0]> (repeat (Vec3.mk 0 0 0) 45))).

(** A 1x1x2 box of two matrices. *)
Definition matrices : UniformGrid R (Mat33 R) :=
  mkGrid 1 1 2 (Vec3.mk 1 1 1)
    [Mat33.mk (Vec3.mk 1 2 3) (Vec3.mk 4 5 6) (Vec3.mk 7 8 9);
     Mat33.mk (Vec3.mk 9 8 7) (Vec3.mk 6 5 4) (Vec3.mk 3 2 1)].

End FieldExamples.
(* ================================================================== *)
(** * Properties *)

(** ** Loops *)

Lemma forLoopFuel_In (step : nat) : 1 <= step ->
  forall fuel start stop i, stop <= fuel + start ->
    (In i (forLoopFuel fuel start stop step) <->
     start <= i < stop /\ exists k, i = start + k * step).
Proof.
  intros Hstep. induction fuel as [|fuel IH]; intros start stop i Hfuel; simpl.
  - split; [tauto | lia].
  - destruct (Nat.ltb_spec start stop) as [Hlt|Hge]; simpl.
    + rewrite IH by lia. split.
      * intros [<- | [Hr [k ->]]].
        -- split; [lia | exists 0; lia].
        -- split; [lia | exists (S k); lia].
      * intros [Hr [k ->]]. destruct k as [|k]; [left; lia | right].
        split; [nia | exists k; lia].
    + split; [tauto | lia].
Qed.

Lemma forLoop_In (start stop step i : nat) : 1 <= step ->
  (In i (forLoop start stop step) <->
   start <= i < stop /\ exists k, i = start + k * step).
Proof. intros Hs. unfold forLoop. apply forLoopFuel_In; [exact Hs | lia]. Qed.

Lemma forLoop1_In (start stop i : nat) :
  In i (forLoop start stop 1) <-> start <= i < stop.
Proof.
  rewrite forLoop_In by lia. split; [tauto|].
  intros Hr. split; [exact Hr | exists (i - start); lia].
Qed.

Lemma forLoopFuel_NoDup (step : nat) : 1 <= step ->
  forall fuel start stop, NoDup (forLoopFuel fuel start stop step).
Proof.
  intros Hstep. induction fuel as [|fuel IH]; intros start stop; simpl.
  - constructor.
  - destruct (start <? stop); [|constructor].
    constructor; [|apply IH].
    intros Hin.
    assert (Hge : forall f s i, In i (forLoopFuel f s stop step) -> s <= i).
    { clear - Hstep. induction f as [|f IHf]; intros s i; simpl; [tauto|].
      destruct (s <? stop); simpl; [|tauto].
      intros [<- | Hi]; [lia | apply IHf in Hi; lia]. }
    apply Hge in Hin. lia.
Qed.

Lemma forLoop_NoDup (start stop step : nat) : 1 <= step ->
  NoDup (forLoop start stop step).
Proof. intros Hs. apply forLoopFuel_NoDup, Hs. Qed.

Lemma forLoopFuel_length1 : forall fuel start stop, stop <= fuel + start ->
  length (forLoopFuel fuel start stop 1) = stop - start.
Proof.
  induction fuel as [|fuel IH]; intros start stop Hfuel; simpl; [lia|].
  destruct (Nat.ltb_spec start stop); simpl; [rewrite IH; lia | lia].
Qed.

Lemma forLoop_length (n : nat) : length (forLoop 0 n 1) = n.
Proof. unfold forLoop. rewrite forLoopFuel_length1; lia. Qed.

(** A nest of loops visits no point twice when each level does not. *)
Lemma NoDup_flat_map {A B : Type} (f : A -> list B) (l : list A) :
  NoDup l ->
  (forall a, In a l -> NoDup (f a)) ->
  (forall a a' b, In a l -> In a' l -> In b (f a) -> In b (f a') -> a = a') ->
  NoDup (flat_map f l).
Proof.
  induction l as [|a l IH]; intros Hnd Hf Hdisj; simpl; [constructor|].
  inversion Hnd as [|? ? Hnotin Hnd']; subst.
  apply List.NoDup_app.
  - apply Hf; left; reflexivity.
  - apply IH; [exact Hnd' | intros; apply Hf; right; assumption |].
    intros a1 a2 b H1 H2. apply Hdisj; right; assumption.
  - intros b Hb Hb'. apply in_flat_map in Hb' as [a' [Ha' Hb']].
    assert (a = a') by (apply (Hdisj a a' b); simpl; auto). subst. contradiction.
Qed.

Lemma NoDup_map_inj {A B : Type} (f : A -> B) (l : list A) :
  (forall a a', In a l -> In a' l -> f a = f a' -> a = a') ->
  NoDup l -> NoDup (map f l).
Proof.
  induction l as [|a l IH]; intros Hinj Hnd; simpl; [constructor|].
  inversion Hnd as [|? ? Hnotin Hnd']; subst. constructor.
  - intros Hin. apply in_map_iff in Hin as [a' [Heq Ha']].
    assert (a = a') by (apply Hinj; simpl; auto). subst. contradiction.
  - apply IH; [|exact Hnd']. intros; apply Hinj; simpl; auto.
Qed.

(** ** Offsets *)

Lemma offsetX0Y0Z0_eq (dims0 dims1 ix iy iz : nat) :
  offsetX0Y0Z0 (ASSIGN_XYZ_OFFSETS dims0 dims1 (ix, iy, iz))
  = ix + dims0 * iy + dims0 * dims1 * iz.
Proof. unfold ASSIGN_XYZ_OFFSETS; simpl. lia. Qed.

(** Distinct points of a grid have distinct offsets. *)
Lemma offset_inj (dims0 dims1 ix iy iz jx jy jz : nat) :
  ix < dims0 -> iy < dims1 -> jx < dims0 -> jy < dims1 ->
  ix + dims0 * iy + dims0 * dims1 * iz = jx + dims0 * jy + dims0 * dims1 * jz ->
  (ix, iy, iz) = (jx, jy, jz).
Proof.
  intros Hx Hy Hx' Hy' Heq.
  assert (Hi : ix + dims0 * iy < dims0 * dims1) by nia.
  assert (Hj : jx + dims0 * jy < dims0 * dims1) by nia.
  assert (Hz : iz = jz).
  { destruct (Nat.lt_trichotomy iz jz) as [Hlt | [-> | Hgt]]; [exfalso | reflexivity | exfalso].
    - assert (dims0 * dims1 * (iz + 1) <= dims0 * dims1 * jz)
        by (apply Nat.mul_le_mono_l; lia). lia.
    - assert (dims0 * dims1 * (jz + 1) <= dims0 * dims1 * iz)
        by (apply Nat.mul_le_mono_l; lia). lia. }
  subst jz.
  assert (Hyy : iy = jy).
  { destruct (Nat.lt_trichotomy iy jy) as [Hlt | [-> | Hgt]]; [exfalso | reflexivity | exfalso].
    - assert (dims0 * (iy + 1) <= dims0 * jy) by (apply Nat.mul_le_mono_l; lia). lia.
    - assert (dims0 * (jy + 1) <= dims0 * iy) by (apply Nat.mul_le_mono_l; lia). lia. }
  subst jy. f_equal. f_equal. lia.
Qed.

Lemma offset_lt_capacity (dims0 dims1 dims2 ix iy iz : nat) :
  ix < dims0 -> iy < dims1 -> iz < dims2 ->
  ix + dims0 * iy + dims0 * dims1 * iz < dims0 * dims1 * dims2.
Proof.
  intros Hx Hy Hz.
  assert (Hxy : ix + dims0 * iy < dims0 * dims1) by nia.
  assert (dims0 * dims1 * (iz + 1) <= dims0 * dims1 * dims2)
    by (apply Nat.mul_le_mono_l; lia).
  lia.
Qed.

(** ** Folds of writes *)

Section WriteFold.
Context {F T : Type} `{Inhabited T}.
Variable off : Index -> nat.
Variable val : UniformGrid F T -> Index -> T.

Lemma fold_write_shape (l : list Index) (g : UniformGrid F T) :
  let g' := fold_left (writeStep off val) l g in
  numPoints0 g' = numPoints0 g /\ numPoints1 g' = numPoints1 g /\
  numPoints2 g' = numPoints2 g /\ cellSpacing g' = cellSpacing g /\
  Size g' = Size g.
Proof.
  revert g. induction l as [|p l IH]; intros g; simpl; [tauto|].
  specialize (IH (writeStep off val g p)). simpl in IH.
  destruct IH as (H0 & H1 & H2 & H3 & H4).
  rewrite H0, H1, H2, H3, H4. unfold writeStep, gridSet, Size; simpl.
  rewrite length_insert. tauto.
Qed.

Lemma fold_write_frame (l : list Index) (g : UniformGrid F T) (o : nat) :
  ~ In o (map off l) ->
  gridGet (fold_left (writeStep off val) l g) o = gridGet g o.
Proof.
  revert g. induction l as [|p l IH]; intros g Hnot; simpl; [reflexivity|].
  simpl in Hnot. rewrite IH by tauto.
  unfold writeStep, gridGet, gridSet; simpl.
  apply list_lookup_total_insert_ne. intros Heq. apply Hnot. left. exact Heq.
Qed.

Lemma fold_write_last (l1 l2 : list Index) (p : Index) (g : UniformGrid F T) :
  ~ In (off p) (map off l2) -> off p < Size g ->
  gridGet (fold_left (writeStep off val) (l1 ++ p :: l2) g) (off p)
  = val (fold_left (writeStep off val) l1 g) p.
Proof.
  intros Hnot Hlt. rewrite fold_left_app. simpl.
  rewrite fold_write_frame by exact Hnot.
  unfold writeStep at 1. unfold gridGet, gridSet; simpl.
  apply list_lookup_total_insert_eq.
  pose proof (fold_write_shape l1 g) as Hs. simpl in Hs.
  destruct Hs as (_ & _ & _ & _ & Hs). unfold Size in Hs, Hlt. rewrite Hs. exact Hlt.
Qed.

End WriteFold.

(** ** The points a relaxation pass visits *)

Lemma interiorPoints_In (dims0 dims1 dims2 izStart izEnd : nat)
    (redOrBlack : GaussSeidelPortionE) (ix iy iz : nat) :
  In (ix, iy, iz) (interiorPoints dims0 dims1 dims2 izStart izEnd redOrBlack) <->
  1 <= ix < dims0 - 1 /\
  (1 + idxYShift iz redOrBlack <= iy < dims1 - 1 /\
   exists k, iy = 1 + idxYShift iz redOrBlack + k * iyStep redOrBlack) /\
  Nat.max 1 izStart <= iz < Nat.min (dims2 - 1) izEnd.
Proof.
  assert (Hstep : 1 <= iyStep redOrBlack) by (destruct redOrBlack; simpl; lia).
  unfold interiorPoints. rewrite in_flat_map. split.
  - intros [z [Hz Hin]]. apply in_flat_map in Hin as [y [Hy Hin]].
    apply in_map_iff in Hin as [x [Heq Hx]]. inversion Heq; subst.
    apply forLoop1_In in Hz, Hx. apply forLoop_In in Hy; [|exact Hstep]. tauto.
  - intros (Hx & Hy & Hz). exists iz. split; [apply forLoop1_In; exact Hz|].
    apply in_flat_map. exists iy. split; [apply forLoop_In; [exact Hstep | exact Hy]|].
    apply in_map_iff. exists ix. split; [reflexivity | apply forLoop1_In; exact Hx].
Qed.

Lemma interiorPoints_NoDup (dims0 dims1 dims2 izStart izEnd : nat)
    (redOrBlack : GaussSeidelPortionE) :
  NoDup (interiorPoints dims0 dims1 dims2 izStart izEnd redOrBlack).
Proof.
  assert (Hstep : 1 <= iyStep redOrBlack) by (destruct redOrBlack; simpl; lia).
  unfold interiorPoints. apply NoDup_flat_map.
  - apply forLoop_NoDup; lia.
  - intros z _. apply NoDup_flat_map.
    + apply forLoop_NoDup, Hstep.
    + intros y _. apply NoDup_map_inj; [|apply forLoop_NoDup; lia].
      intros a a' _ _ Heq. inversion Heq; reflexivity.
    + intros y y' b _ _ Hb Hb'.
      apply in_map_iff in Hb as [x [<- _]]. apply in_map_iff in Hb' as [x' [Heq _]].
      inversion Heq; reflexivity.
  - intros z z' b _ _ Hb Hb'.
    apply in_flat_map in Hb as [y [_ Hb]]. apply in_map_iff in Hb as [x [<- _]].
    apply in_flat_map in Hb' as [y' [_ Hb']]. apply in_map_iff in Hb' as [x' [Heq _]].
    inversion Heq; reflexivity.
Qed.

(** The red interior loop visits the interior points of parity 0 of its
    z-range, the black one those of parity 1. *)
Lemma interiorPoints_red_black (dims0 dims1 dims2 izStart izEnd : nat)
    (redOrBlack : GaussSeidelPortionE) (ix iy iz : nat) :
  redOrBlack <> GS_BOTH ->
  1 <= ix < dims0 - 1 -> 1 <= iy < dims1 - 1 -> 1 <= iz < dims2 - 1 ->
  (In (ix, iy, iz) (interiorPoints dims0 dims1 dims2 izStart izEnd redOrBlack) <->
   colorParity iy iz = unsignedOfPortion redOrBlack /\ izStart <= iz < izEnd).
Proof.
  intros Hc Hx Hy Hz. rewrite interiorPoints_In. unfold colorParity, idxYShift.
  pose proof (Nat.mod_upper_bound iz 2 ltac:(lia)) as Hzm.
  pose proof (Nat.mod_upper_bound (iy + iz) 2 ltac:(lia)) as Hyzm.
  pose proof (Nat.div_mod_eq iz 2) as Hzd.
  pose proof (Nat.div_mod_eq (iy + iz) 2) as Hyzd.
  destruct redOrBlack; [| |contradiction]; cbn [unsignedOfPortion iyStep].
  - destruct (Nat.eqb_spec (iz mod 2) 0) as [He|Hne]; split.
    all: try (intros (_ & (Hr & [k Hk]) & Hzr); split; lia).
    all: intros [Hp Hzr]; split; [exact Hx|]; split; [|lia]; split; [lia|].
    + exists ((iy + iz) / 2 - iz / 2 - 1); lia.
    + exists ((iy + iz) / 2 - iz / 2 - 1); lia.
  - destruct (Nat.eqb_spec (iz mod 2) 1) as [He|Hne]; split.
    all: try (intros (_ & (Hr & [k Hk]) & Hzr); split; lia).
    all: intros [Hp Hzr]; split; [exact Hx|]; split; [|lia]; split; [lia|].
    + exists ((iy + iz) / 2 - iz / 2 - 1); lia.
    + exists ((iy + iz) / 2 - iz / 2); lia.
Qed.

(** Every point the Neumann block visits lies on a face of the box. *)
Lemma boundaryPoints_on_face (dims0 dims1 dims2 izStart izEnd : nat)
    (redOrBlack : GaussSeidelPortionE) (ix iy iz : nat) :
  1 <= dims0 -> 1 <= dims1 ->
  In (ix, iy, iz) (boundaryPoints dims0 dims1 dims2 izStart izEnd redOrBlack) ->
  ix < dims0 /\ iy < dims1 /\
  (ix = 0 \/ iy = 0 \/ iz = 0 \/
   ix = dims0 - 1 \/ iy = dims1 - 1 \/ iz = dims2 - 1).
Proof.
  intros Hd0 Hd1.
  assert (Hstep : 1 <= iyStep redOrBlack) by (destruct redOrBlack; simpl; lia).
  unfold boundaryPoints. rewrite !in_app_iff.
  intros [Hin | [Hin | [Hin | [Hin | [Hin | Hin]]]]].
  - apply in_flat_map in Hin as [z [_ Hin]]. apply in_map_iff in Hin as [y [Heq Hy]].
    inversion Heq; subst. apply forLoop_In in Hy; [lia | exact Hstep].
  - apply in_flat_map in Hin as [z [_ Hin]]. apply in_map_iff in Hin as [x [Heq Hx]].
    inversion Heq; subst. apply forLoop1_In in Hx. lia.
  - destruct (0 =? izStart); [|contradiction].
    apply in_flat_map in Hin as [y [Hy Hin]]. apply in_map_iff in Hin as [x [Heq Hx]].
    inversion Heq; subst. apply forLoop1_In in Hx.
    apply forLoop_In in Hy; [lia | exact Hstep].
  - apply in_flat_map in Hin as [z [_ Hin]]. apply in_map_iff in Hin as [y [Heq Hy]].
    inversion Heq; subst. apply forLoop_In in Hy; [lia | exact Hstep].
  - apply in_flat_map in Hin as [z [_ Hin]]. apply in_map_iff in Hin as [x [Heq Hx]].
    inversion Heq; subst. apply forLoop1_In in Hx. lia.
  - destruct (izEnd =? dims2); [|contradiction].
    apply in_flat_map in Hin as [y [Hy Hin]]. apply in_map_iff in Hin as [x [Heq Hx]].
    inversion Heq; subst. apply forLoop1_In in Hx.
    apply forLoop_In in Hy; [lia | exact Hstep].
Qed.

(** ** The relaxation pass as two folds of writes *)

Section PassStructure.
Context {F : Type} `{Scalar F} `{Inhabited F}.

Lemma rsSoln_fold (lap : UniformGrid F (Vec3 F)) (l : list Index) (st : RelaxState) :
  rsSoln (fold_left (relaxPoint lap) l st)
  = fold_left (writeStep (pointOffset lap) (fun g p => updatedVal g lap p)) l (rsSoln st).
Proof.
  revert st. induction l as [|p l IH]; intros st; simpl; [reflexivity|].
  rewrite IH. reflexivity.
Qed.

Lemma rsCount_fold (lap : UniformGrid F (Vec3 F)) (l : list Index) (st : RelaxState) :
  rsCount (fold_left (relaxPoint lap) l st) = length l + rsCount st.
Proof.
  revert st. induction l as [|p l IH]; intros st; simpl; [reflexivity|].
  rewrite IH. simpl. lia.
Qed.

Lemma Step_soln (soln lap : UniformGrid F (Vec3 F)) (izStart izEnd : nat)
    (redOrBlack : GaussSeidelPortionE) (boundaryCondition : BoundaryConditionE)
    (residualStats : Stats_Float F) :
  fst (StepTowardVectorPoissonSolution soln lap izStart izEnd redOrBlack
         boundaryCondition residualStats)
  = applyBoundary lap izStart izEnd redOrBlack boundaryCondition
      (relaxInterior lap izStart izEnd redOrBlack soln).
Proof.
  unfold StepTowardVectorPoissonSolution, applyBoundary, relaxInterior, relaxPoints.
  simpl.
  rewrite rsSoln_fold. destruct boundaryCondition; reflexivity.
Qed.

Lemma applyBoundary_neumann (lap soln : UniformGrid F (Vec3 F)) (izStart izEnd : nat)
    (redOrBlack : GaussSeidelPortionE) :
  applyBoundary lap izStart izEnd redOrBlack BC_NEUMANN soln
  = fold_left (writeStep (pointOffset lap)
                 (fun g p => gridGet g (interiorOffset lap p)))
      (boundaryPoints (numPoints0 lap) (numPoints1 lap) (numPoints2 lap)
         izStart izEnd redOrBlack)
      soln.
Proof. reflexivity. Qed.

Lemma relaxInterior_shape (lap soln : UniformGrid F (Vec3 F)) (izStart izEnd : nat)
    (redOrBlack : GaussSeidelPortionE) :
  let g' := relaxInterior lap izStart izEnd redOrBlack soln in
  numPoints0 g' = numPoints0 soln /\ numPoints1 g' = numPoints1 soln /\
  numPoints2 g' = numPoints2 soln /\ cellSpacing g' = cellSpacing soln /\
  Size g' = Size soln.
Proof. unfold relaxInterior, relaxPoints. apply fold_write_shape. Qed.

Lemma applyBoundary_shape (lap soln : UniformGrid F (Vec3 F)) (izStart izEnd : nat)
    (redOrBlack : GaussSeidelPortionE) (boundaryCondition : BoundaryConditionE) :
  let g' := applyBoundary lap izStart izEnd redOrBlack boundaryCondition soln in
  numPoints0 g' = numPoints0 soln /\ numPoints1 g' = numPoints1 soln /\
  numPoints2 g' = numPoints2 soln /\ cellSpacing g' = cellSpacing soln /\
  Size g' = Size soln.
Proof.
  unfold applyBoundary. destruct boundaryCondition; [|simpl; tauto].
  apply (fold_write_shape (pointOffset lap)
           (fun g p => gridGet g (interiorOffset lap p))).
Qed.

Lemma Step_shape (soln lap : UniformGrid F (Vec3 F)) (izStart izEnd : nat)
    (redOrBlack : GaussSeidelPortionE) (boundaryCondition : BoundaryConditionE)
    (residualStats : Stats_Float F) :
  let g' := fst (StepTowardVectorPoissonSolution soln lap izStart izEnd redOrBlack
                   boundaryCondition residualStats) in
  numPoints0 g' = numPoints0 soln /\ numPoints1 g' = numPoints1 soln /\
  numPoints2 g' = numPoints2 soln /\ cellSpacing g' = cellSpacing soln /\
  Size g' = Size soln.
Proof.
  rewrite Step_soln.
  pose proof (applyBoundary_shape lap (relaxInterior lap izStart izEnd redOrBlack soln)
                izStart izEnd redOrBlack boundaryCondition) as Hb.
  pose proof (relaxInterior_shape lap soln izStart izEnd redOrBlack) as Hi.
  simpl in *. destruct Hb as (-> & -> & -> & -> & ->). exact Hi.
Qed.

End PassStructure.

(** ** Which offsets a pass stores to *)

Section PassWrites.
Context {F : Type} `{Scalar F} `{Inhabited F}.

Lemma pointOffset_eq {T} (lap : UniformGrid F T) (ix iy iz : nat) :
  pointOffset lap (ix, iy, iz)
  = ix + numPoints0 lap * iy + numPoints0 lap * numPoints1 lap * iz.
Proof. unfold pointOffset. apply offsetX0Y0Z0_eq. Qed.

Lemma pointOffset_inj {T} (lap : UniformGrid F T) (p q : Index) :
  fst (fst p) < numPoints0 lap -> snd (fst p) < numPoints1 lap ->
  fst (fst q) < numPoints0 lap -> snd (fst q) < numPoints1 lap ->
  pointOffset lap p = pointOffset lap q -> p = q.
Proof.
  destruct p as [[ix iy] iz], q as [[jx jy] jz]; simpl.
  rewrite !pointOffset_eq. apply offset_inj.
Qed.

Lemma interiorPoints_range (dims0 dims1 dims2 izStart izEnd : nat)
    (redOrBlack : GaussSeidelPortionE) (p : Index) :
  In p (interiorPoints dims0 dims1 dims2 izStart izEnd redOrBlack) ->
  1 <= fst (fst p) < dims0 - 1 /\ 1 <= snd (fst p) < dims1 - 1 /\
  1 <= snd p < dims2 - 1.
Proof.
  destruct p as [[ix iy] iz]. rewrite interiorPoints_In. simpl. lia.
Qed.

(** The offset of a point of the grid occurs among the interior stores
    exactly when the point is one the interior loop nest visits, and then
    once. *)
Lemma interior_offset_In (lap : UniformGrid F (Vec3 F)) (izStart izEnd : nat)
    (redOrBlack : GaussSeidelPortionE) (p : Index) :
  fst (fst p) < numPoints0 lap -> snd (fst p) < numPoints1 lap ->
  (In (pointOffset lap p)
      (map (pointOffset lap)
         (interiorPoints (numPoints0 lap) (numPoints1 lap) (numPoints2 lap)
            izStart izEnd redOrBlack))
   <-> In p (interiorPoints (numPoints0 lap) (numPoints1 lap) (numPoints2 lap)
               izStart izEnd redOrBlack)).
Proof.
  intros Hx Hy. split; [|apply in_map].
  intros Hin. apply in_map_iff in Hin as [q [Heq Hq]].
  pose proof (interiorPoints_range _ _ _ _ _ _ _ Hq) as Hr.
  apply pointOffset_inj in Heq; [subst; exact Hq | lia | lia | exact Hx | exact Hy].
Qed.

Lemma interior_offsets_NoDup (lap : UniformGrid F (Vec3 F)) (izStart izEnd : nat)
    (redOrBlack : GaussSeidelPortionE) :
  NoDup (map (pointOffset lap)
           (interiorPoints (numPoints0 lap) (numPoints1 lap) (numPoints2 lap)
              izStart izEnd redOrBlack)).
Proof.
  apply NoDup_map_inj; [|apply interiorPoints_NoDup].
  intros p q Hp Hq. apply interiorPoints_range in Hp, Hq.
  apply pointOffset_inj; lia.
Qed.

(** No store of the Neumann block lands on an interior point. *)
Lemma boundary_offset_not_interior (lap : UniformGrid F (Vec3 F))
    (izStart izEnd : nat) (redOrBlack : GaussSeidelPortionE) (ix iy iz : nat) :
  1 <= ix < numPoints0 lap - 1 -> 1 <= iy < numPoints1 lap - 1 ->
  1 <= iz < numPoints2 lap - 1 ->
  ~ In (pointOffset lap (ix, iy, iz))
       (map (pointOffset lap)
          (boundaryPoints (numPoints0 lap) (numPoints1 lap) (numPoints2 lap)
             izStart izEnd redOrBlack)).
Proof.
  intros Hx Hy Hz Hin. apply in_map_iff in Hin as [[[jx jy] jz] [Heq Hq]].
  apply boundaryPoints_on_face in Hq; [|lia|lia].
  apply pointOffset_inj in Heq; simpl; [|lia..].
  inversion Heq; subst. lia.
Qed.

(** No store of the interior loop nest lands on a face of the box. *)
Lemma interior_offset_not_face (lap : UniformGrid F (Vec3 F))
    (izStart izEnd : nat) (redOrBlack : GaussSeidelPortionE) (ix iy iz : nat) :
  ix < numPoints0 lap -> iy < numPoints1 lap ->
  (ix = 0 \/ ix = numPoints0 lap - 1 \/ iy = 0 \/ iy = numPoints1 lap - 1 \/
   iz = 0 \/ iz = numPoints2 lap - 1) ->
  ~ In (pointOffset lap (ix, iy, iz))
       (map (pointOffset lap)
          (interiorPoints (numPoints0 lap) (numPoints1 lap) (numPoints2 lap)
             izStart izEnd redOrBlack)).
Proof.
  intros Hx Hy Hface Hin. apply interior_offset_In in Hin; [|exact Hx|exact Hy].
  apply interiorPoints_range in Hin. simpl in Hin. lia.
Qed.

Lemma written_count (lap : UniformGrid F (Vec3 F)) (izStart izEnd : nat)
    (redOrBlack : GaussSeidelPortionE) (boundaryCondition : BoundaryConditionE)
    (ix iy iz : nat) :
  redOrBlack <> GS_BOTH ->
  1 <= ix < numPoints0 lap - 1 -> 1 <= iy < numPoints1 lap - 1 ->
  1 <= iz < numPoints2 lap - 1 ->
  count_occ Nat.eq_dec
    (writtenOffsets lap izStart izEnd redOrBlack boundaryCondition)
    (pointOffset lap (ix, iy, iz))
  = if (colorParity iy iz =? unsignedOfPortion redOrBlack)
       && (izStart <=? iz) && (iz <? izEnd)
    then 1 else 0.
Proof.
  intros Hc Hx Hy Hz. unfold writtenOffsets. simpl GetNumPoints.
  rewrite count_occ_app.
  assert (Hb : count_occ Nat.eq_dec
                 match boundaryCondition with
                 | BC_NEUMANN =>
                     map (pointOffset lap)
                       (boundaryPoints (numPoints0 lap) (numPoints1 lap)
                          (numPoints2 lap) izStart izEnd redOrBlack)
                 | BC_DIRICHLET => []
                 end (pointOffset lap (ix, iy, iz)) = 0).
  { destruct boundaryCondition; [|reflexivity].
    apply count_occ_not_In. apply boundary_offset_not_interior; assumption. }
  rewrite Hb, Nat.add_0_r.
  pose proof (interiorPoints_red_black (numPoints0 lap) (numPoints1 lap)
                (numPoints2 lap) izStart izEnd redOrBlack ix iy iz Hc Hx Hy Hz) as Hiff.
  pose proof (interior_offset_In lap izStart izEnd redOrBlack (ix, iy, iz)) as Hoff.
  simpl in Hoff.
  destruct (Nat.eqb_spec (colorParity iy iz) (unsignedOfPortion redOrBlack)) as [Hp|Hp];
    destruct (Nat.leb_spec izStart iz); destruct (Nat.ltb_spec iz izEnd); simpl.
  1: { apply NoDup_count_occ'; [apply interior_offsets_NoDup|].
       apply Hoff; [lia | lia |]. apply Hiff. lia. }
  all: apply count_occ_not_In; intros Hin; apply Hoff in Hin; [|lia|lia];
    apply Hiff in Hin; lia.
Qed.

Lemma Step_frame (soln lap : UniformGrid F (Vec3 F)) (izStart izEnd : nat)
    (redOrBlack : GaussSeidelPortionE) (boundaryCondition : BoundaryConditionE)
    (residualStats : Stats_Float F) (o : nat) :
  ~ In o (writtenOffsets lap izStart izEnd redOrBlack boundaryCondition) ->
  gridGet (fst (StepTowardVectorPoissonSolution soln lap izStart izEnd redOrBlack
                  boundaryCondition residualStats)) o
  = gridGet soln o.
Proof.
  unfold writtenOffsets. rewrite in_app_iff. intros Hnot.
  rewrite Step_soln. unfold relaxInterior, relaxPoints.
  destruct boundaryCondition.
  - rewrite applyBoundary_neumann, fold_write_frame by tauto.
    apply fold_write_frame. tauto.
  - apply fold_write_frame. tauto.
Qed.

End PassWrites.

(** ** Red-black partition of the interior *)

Lemma ShapeMatches_eq {F T T' : Type} (g : UniformGrid F T) (h : UniformGrid F T') :
  ShapeMatches g h = true ->
  numPoints0 g = numPoints0 h /\ numPoints1 g = numPoints1 h /\
  numPoints2 g = numPoints2 h.
Proof.
  unfold ShapeMatches. rewrite !andb_true_iff, !Nat.eqb_eq. tauto.
Qed.

Section PassPoints.
Context {F : Type} `{Scalar F} `{Inhabited F}.

(** A point the interior loop nest visits is visited once, and the pass
    leaves there the over-relaxed value computed from the grid as the loop
    finds it. *)
Lemma pass_relaxes_point (soln lap : UniformGrid F (Vec3 F)) (izStart izEnd : nat)
    (redOrBlack : GaussSeidelPortionE) (boundaryCondition : BoundaryConditionE)
    (residualStats : Stats_Float F) (p : Index) :
  ShapeMatches soln lap = true -> Size soln = GetGridCapacity soln ->
  In p (interiorPoints (numPoints0 lap) (numPoints1 lap) (numPoints2 lap)
          izStart izEnd redOrBlack) ->
  exists visitedBefore visitedAfter,
    interiorPoints (numPoints0 lap) (numPoints1 lap) (numPoints2 lap)
      izStart izEnd redOrBlack = visitedBefore ++ p :: visitedAfter /\
    ~ In p visitedBefore /\ ~ In p visitedAfter /\
    gridGet (fst (StepTowardVectorPoissonSolution soln lap izStart izEnd redOrBlack
                    boundaryCondition residualStats))
            (pointOffset lap p)
    = updatedVal (relaxPoints lap visitedBefore soln) lap p.
Proof.
  intros Hshape Hsize Hin.
  apply ShapeMatches_eq in Hshape as (E0 & E1 & E2).
  destruct (in_split _ _ Hin) as (l1 & l2 & Hsplit).
  pose proof (interiorPoints_NoDup (numPoints0 lap) (numPoints1 lap) (numPoints2 lap)
                izStart izEnd redOrBlack) as Hnd.
  rewrite Hsplit in Hnd. apply NoDup_remove_2 in Hnd. rewrite in_app_iff in Hnd.
  exists l1, l2. repeat split; [exact Hsplit|tauto|tauto|].
  pose proof (interiorPoints_range _ _ _ _ _ _ _ Hin) as (Hx & Hy & Hz).
  destruct p as [[ix iy] iz]. simpl in Hx, Hy, Hz.
  rewrite Step_soln.
  assert (Hb : gridGet (applyBoundary lap izStart izEnd redOrBlack boundaryCondition
                          (relaxInterior lap izStart izEnd redOrBlack soln))
                       (pointOffset lap (ix, iy, iz))
               = gridGet (relaxInterior lap izStart izEnd redOrBlack soln)
                         (pointOffset lap (ix, iy, iz))).
  { destruct boundaryCondition; [|reflexivity].
    rewrite applyBoundary_neumann. apply fold_write_frame.
    apply boundary_offset_not_interior; assumption. }
  rewrite Hb. unfold relaxInterior. simpl GetNumPoints. rewrite Hsplit.
  unfold relaxPoints at 1.
  rewrite (fold_write_last (pointOffset lap) (fun g p => updatedVal g lap p)).
  - reflexivity.
  - pose proof (interior_offsets_NoDup lap izStart izEnd redOrBlack) as Hnd'.
    rewrite Hsplit, map_app in Hnd'. simpl in Hnd'.
    apply NoDup_remove_2 in Hnd'. rewrite in_app_iff in Hnd'. tauto.
  - rewrite Hsize, pointOffset_eq. unfold GetGridCapacity. rewrite E0, E1, E2.
    apply offset_lt_capacity; lia.
Qed.

(** An interior point the interior loop nest does not visit keeps its
    value through the pass, Neumann block included. *)
Lemma pass_keeps_point (soln lap : UniformGrid F (Vec3 F)) (izStart izEnd : nat)
    (redOrBlack : GaussSeidelPortionE) (boundaryCondition : BoundaryConditionE)
    (residualStats : Stats_Float F) (ix iy iz : nat) :
  1 <= ix < numPoints0 lap - 1 -> 1 <= iy < numPoints1 lap - 1 ->
  1 <= iz < numPoints2 lap - 1 ->
  ~ In (ix, iy, iz)
       (interiorPoints (numPoints0 lap) (numPoints1 lap) (numPoints2 lap)
          izStart izEnd redOrBlack) ->
  gridGet (fst (StepTowardVectorPoissonSolution soln lap izStart izEnd redOrBlack
                  boundaryCondition residualStats))
          (pointOffset lap (ix, iy, iz))
  = gridGet soln (pointOffset lap (ix, iy, iz)).
Proof.
  intros Hx Hy Hz Hnin. apply Step_frame. unfold writtenOffsets.
  rewrite in_app_iff. intros [Hi|Hb].
  - apply interior_offset_In in Hi; [|simpl; lia..]. contradiction.
  - destruct boundaryCondition; [|destruct Hb].
    revert Hb. apply boundary_offset_not_interior; assumption.
Qed.

(** C3.  For an interior point p of the grid, a z-range [izStart, izEnd) and
    a solution grid that holds one sample per point:
    - when the colour (y + z) mod 2 of p is 0 and its z index lies in the
      range, the interior loop nest of the red pass visits p exactly once and
      the pass leaves at p the over-relaxed value computed from the grid as
      the loop finds it; otherwise (colour 1, or z outside the range) the
      red pass does not visit p and leaves its sample as it was;
    - the same for the black pass, with the colours exchanged;
    - this holds of a pass started from the given grid and of the black pass
      started from what the red pass leaves, so that over a red and a black
      pass on one range a point of the range is relaxed by exactly one of
      the two and left alone by the other.
    It holds under either boundary condition: the Neumann block stores to
    face samples only. *)
Theorem red_black_interior_partition
    (soln lap : UniformGrid F (Vec3 F)) (izStart izEnd : nat)
    (boundaryCondition : BoundaryConditionE)
    (residualStats residualStats' : Stats_Float F) (ix iy iz : nat) :
  ShapeMatches soln lap = true -> Size soln = GetGridCapacity soln ->
  1 <= ix < numPoints0 lap - 1 ->
  1 <= iy < numPoints1 lap - 1 ->
  1 <= iz < numPoints2 lap - 1 ->
  let p : Index := (ix, iy, iz) in
  let o := pointOffset lap p in
  let inRange := (izStart <=? iz) && (iz <? izEnd) in
  let visited redOrBlack :=
    interiorPoints (numPoints0 lap) (numPoints1 lap) (numPoints2 lap)
      izStart izEnd redOrBlack in
  let pass g redOrBlack stats :=
    fst (StepTowardVectorPoissonSolution g lap izStart izEnd redOrBlack
           boundaryCondition stats) in
  let relaxedBy g redOrBlack stats :=
    exists visitedBefore visitedAfter,
      visited redOrBlack = visitedBefore ++ p :: visitedAfter /\
      ~ In p visitedBefore /\ ~ In p visitedAfter /\
      gridGet (pass g redOrBlack stats) o
      = updatedVal (relaxPoints lap visitedBefore g) lap p in
  let keptBy g redOrBlack stats :=
    ~ In p (visited redOrBlack) /\
    gridGet (pass g redOrBlack stats) o = gridGet g o in
  let afterRed := pass soln GS_RED residualStats in
  (colorParity iy iz = 0 -> inRange = true -> relaxedBy soln GS_RED residualStats) /\
  (colorParity iy iz = 1 \/ inRange = false -> keptBy soln GS_RED residualStats) /\
  (colorParity iy iz = 1 -> inRange = true -> relaxedBy soln GS_BLACK residualStats) /\
  (colorParity iy iz = 0 \/ inRange = false -> keptBy soln GS_BLACK residualStats) /\
  (colorParity iy iz = 1 -> inRange = true ->
   relaxedBy afterRed GS_BLACK residualStats') /\
  (colorParity iy iz = 0 \/ inRange = false ->
   keptBy afterRed GS_BLACK residualStats') /\
  (inRange = true ->
   (relaxedBy soln GS_RED residualStats /\ keptBy afterRed GS_BLACK residualStats') \/
   (keptBy soln GS_RED residualStats /\ relaxedBy afterRed GS_BLACK residualStats')).
Proof.
  intros Hshape Hsize Hx Hy Hz p o inRange visited pass relaxedBy keptBy afterRed.
  assert (Hmem : forall redOrBlack, redOrBlack <> GS_BOTH ->
            (In p (visited redOrBlack) <->
             colorParity iy iz = unsignedOfPortion redOrBlack /\ inRange = true)).
  { intros c Hc. unfold visited, p, inRange.
    rewrite interiorPoints_red_black by assumption.
    rewrite andb_true_iff, Nat.leb_le, Nat.ltb_lt. tauto. }
  assert (Hpar : colorParity iy iz < 2)
    by (unfold colorParity; apply Nat.mod_upper_bound; lia).
  assert (Hrelax : forall g c stats, ShapeMatches g lap = true ->
            Size g = GetGridCapacity g -> In p (visited c) -> relaxedBy g c stats).
  { intros g c stats Sg Zg Hin. unfold relaxedBy, pass, o.
    apply pass_relaxes_point; assumption. }
  assert (Hkeep : forall g c stats, ~ In p (visited c) -> keptBy g c stats).
  { intros g c stats Hnin. split; [exact Hnin|]. unfold pass, o, p.
    apply pass_keeps_point; assumption. }
  assert (Hshape1 : ShapeMatches afterRed lap = true /\
                    Size afterRed = GetGridCapacity afterRed).
  { destruct (Step_shape soln lap izStart izEnd GS_RED boundaryCondition residualStats)
      as (S0 & S1 & S2 & _ & S4).
    fold (pass soln GS_RED residualStats) in S0, S1, S2, S4. fold afterRed in S0, S1, S2, S4.
    unfold ShapeMatches, GetGridCapacity in *. rewrite S0, S1, S2, S4. auto. }
  destruct Hshape1 as (Hshape1 & Hsize1).
  assert (Hnotin : forall c, c <> GS_BOTH ->
            colorParity iy iz <> unsignedOfPortion c \/ inRange = false ->
            ~ In p (visited c)).
  { intros c Hc Hne Hin. apply Hmem in Hin; [|exact Hc].
    destruct Hin as [E1 E2]. destruct Hne as [Hne|Hne]; congruence. }
  assert (R1 : colorParity iy iz = 0 -> inRange = true ->
               relaxedBy soln GS_RED residualStats).
  { intros Hc Hr. apply Hrelax; try assumption. apply Hmem; [discriminate|]. auto. }
  assert (K1 : colorParity iy iz = 1 \/ inRange = false ->
               keptBy soln GS_RED residualStats).
  { intros Hc. apply Hkeep, Hnotin; [discriminate|]. simpl.
    destruct Hc as [Hc|Hc]; [left; lia|right; exact Hc]. }
  assert (R2 : forall g stats, ShapeMatches g lap = true -> Size g = GetGridCapacity g ->
               colorParity iy iz = 1 -> inRange = true -> relaxedBy g GS_BLACK stats).
  { intros g stats Sg Zg Hc Hr. apply Hrelax; try assumption.
    apply Hmem; [discriminate|]. auto. }
  assert (K2 : forall g stats, colorParity iy iz = 0 \/ inRange = false ->
               keptBy g GS_BLACK stats).
  { intros g stats Hc. apply Hkeep, Hnotin; [discriminate|]. simpl.
    destruct Hc as [Hc|Hc]; [left; lia|right; exact Hc]. }
  split; [exact R1|]. split; [exact K1|].
  split; [apply R2; assumption|]. split; [apply K2|].
  split; [apply R2; assumption|]. split; [apply K2|].
  intros Hr.
  assert (Hc : colorParity iy iz = 0 \/ colorParity iy iz = 1) by lia.
  destruct Hc as [Hc|Hc].
  - left. split; [apply R1; assumption|apply K2; left; exact Hc].
  - right. split; [apply K1; left; exact Hc|apply R2; assumption].
Qed.

End PassPoints.

(** On the 3x3x8 box the point (1,1,2) has colour 1: the red pass leaves its
    sample as it was, the black pass visits it once and relaxes it, to a
    value that differs from the one it had. *)
Lemma red_black_interior_partition_witness :
  let p : Index := (1, 1, 2) in
  let o := pointOffset ResidualExamples.lap p in
  let pass g redOrBlack :=
    fst (StepTowardVectorPoissonSolution g ResidualExamples.lap 0 8 redOrBlack
           BC_NEUMANN FloatExamples.stats0) in
  (~ In p (interiorPoints 3 3 8 0 8 GS_RED) /\
   gridGet (pass ResidualExamples.soln GS_RED) o = gridGet ResidualExamples.soln o) /\
  (exists visitedBefore visitedAfter,
     interiorPoints 3 3 8 0 8 GS_BLACK = visitedBefore ++ p :: visitedAfter /\
     ~ In p visitedBefore /\ ~ In p visitedAfter /\
     gridGet (pass (pass ResidualExamples.soln GS_RED) GS_BLACK) o
     = updatedVal (relaxPoints ResidualExamples.lap visitedBefore
                     (pass ResidualExamples.soln GS_RED))
         ResidualExamples.lap p) /\
  gridGet (pass (pass ResidualExamples.soln GS_RED) GS_BLACK) o
  <> gridGet ResidualExamples.soln o.
Proof.
  pose proof (red_black_interior_partition ResidualExamples.soln ResidualExamples.lap
                0 8 BC_NEUMANN FloatExamples.stats0 FloatExamples.stats0 1 1 2
                eq_refl eq_refl
                ltac:(simpl; lia) ltac:(simpl; lia) ltac:(simpl; lia)) as Hw.
  cbv zeta in Hw. destruct Hw as (_ & K1 & _ & _ & R2 & _).
  split; [exact (K1 (or_introl eq_refl))|].
  split; [exact (R2 eq_refl eq_refl)|].
  vm_compute. discriminate.
Defined.

(** ** Dirichlet boundary values *)

Lemma rounds_frame {F : Type} `{Scalar F} `{Inhabited F}
    (lap : UniformGrid F (Vec3 F)) (boundaryCondition : BoundaryConditionE)
    (o : nat) :
  (forall izStart izEnd redOrBlack, redOrBlack <> GS_BOTH ->
     ~ In o (writtenOffsets lap izStart izEnd redOrBlack boundaryCondition)) ->
  forall (iters : list nat) (st : UniformGrid F (Vec3 F) * Stats_Float F),
    gridGet (fst (fold_left (fun st (iter : nat) =>
                               relaxationRound lap boundaryCondition st) iters st)) o
    = gridGet (fst st) o.
Proof.
  intros Hnot. induction iters as [|i iters IH]; intros st; simpl; [reflexivity|].
  rewrite IH. unfold relaxationRound.
  rewrite !Step_frame by (apply Hnot; discriminate). reflexivity.
Qed.

(** C8.  Under the Dirichlet mode no pass stores to a sample on a face of the
    box (an index equal to 0 or to dims - 1 on some axis): such an offset is
    not among the stores of any pass, its value after a pass is its value
    before, and after the whole solve it is the value the caller put there. *)
Theorem dirichlet_boundary_preserved {F : Type} `{Scalar F} `{Inhabited F}
    (soln lap : UniformGrid F (Vec3 F)) (ix iy iz : nat) :
  ShapeMatches soln lap = true ->
  ix < numPoints0 soln -> iy < numPoints1 soln -> iz < numPoints2 soln ->
  (ix = 0 \/ ix = numPoints0 soln - 1 \/ iy = 0 \/ iy = numPoints1 soln - 1 \/
   iz = 0 \/ iz = numPoints2 soln - 1) ->
  let o := OffsetFromIndices soln (ix, iy, iz) in
  (forall izStart izEnd redOrBlack,
     ~ In o (writtenOffsets lap izStart izEnd redOrBlack BC_DIRICHLET)) /\
  (forall izStart izEnd redOrBlack residualStats,
     gridGet (fst (StepTowardVectorPoissonSolution soln lap izStart izEnd
                     redOrBlack BC_DIRICHLET residualStats)) o
     = gridGet soln o) /\
  (forall numSteps residualStats,
     gridGet (fst (SolveVectorPoisson soln lap numSteps BC_DIRICHLET
                     residualStats)) o
     = gridGet soln o).
Proof.
  intros Hshape Hx Hy Hz Hface o.
  apply ShapeMatches_eq in Hshape as (E0 & E1 & E2).
  assert (Ho : o = pointOffset lap (ix, iy, iz)).
  { unfold o. rewrite pointOffset_eq. simpl. rewrite E0, E1. reflexivity. }
  assert (Hnot : forall izStart izEnd redOrBlack,
             ~ In o (writtenOffsets lap izStart izEnd redOrBlack BC_DIRICHLET)).
  { intros izStart izEnd redOrBlack. unfold writtenOffsets. rewrite app_nil_r, Ho.
    apply interior_offset_not_face; lia. }
  split; [exact Hnot|]. split.
  - intros. apply Step_frame, Hnot.
  - intros numSteps residualStats. unfold SolveVectorPoisson.
    rewrite rounds_frame by (intros; apply Hnot). reflexivity.
Qed.

(** The corner (0,0,0) of the 3x3x3 box keeps its value through the solve. *)
Lemma dirichlet_boundary_preserved_witness :
  gridGet (fst (SolveVectorPoisson FloatExamples.solnZero FloatExamples.lapCentre
                  2 BC_DIRICHLET FloatExamples.stats0)) 0
  = gridGet FloatExamples.solnZero 0.
Proof.
  pose proof (dirichlet_boundary_preserved FloatExamples.solnZero
                FloatExamples.lapCentre 0 0 0 eq_refl
                ltac:(simpl; lia) ltac:(simpl; lia) ltac:(simpl; lia)
                (or_introl eq_refl)) as Hw.
  exact (proj2 (proj2 Hw) 2 FloatExamples.stats0).
Defined.

(** ** The solver loop *)

Lemma fold_left_const_iter {A : Type} (f : A -> A) (l : list nat) (a : A) :
  fold_left (fun st (iter : nat) => f st) l a = Nat.iter (length l) f a.
Proof.
  revert a. induction l as [|i l IH]; intros a; simpl; [reflexivity|].
  rewrite IH. clear IH. induction (length l) as [|n IHn]; simpl; [reflexivity|].
  rewrite IHn. reflexivity.
Qed.

(** C4.  The solver runs the round (red pass, then black pass, each over the
    whole z-range) exactly [numSteps] times when [numSteps > 0] and exactly
    2 * max(dims) times when [numSteps] is 0, whatever the residual
    statistics are, and the first round starts from the caller's grid as it
    was handed in. *)
Theorem solver_round_count {F : Type} `{Scalar F} `{Inhabited F}
    (soln lap : UniformGrid F (Vec3 F)) (numSteps : nat)
    (boundaryCondition : BoundaryConditionE) (residualStats : Stats_Float F) :
  let rounds :=
    if 0 <? numSteps then numSteps
    else 2 * Nat.max (Nat.max (numPoints0 soln) (numPoints1 soln)) (numPoints2 soln) in
  length (solverIterations soln numSteps) = rounds /\
  SolveVectorPoisson soln lap numSteps boundaryCondition residualStats
  = Nat.iter rounds (relaxationRound lap boundaryCondition) (soln, residualStats).
Proof.
  intros rounds.
  assert (Hlen : length (solverIterations soln numSteps) = rounds).
  { unfold solverIterations. apply forLoop_length. }
  split; [exact Hlen|].
  unfold SolveVectorPoisson. fold (solverIterations soln numSteps).
  rewrite fold_left_const_iter, Hlen. reflexivity.
Qed.

(** ** The relaxation rule *)

Section SorRule.
#[local] Open Scope R_scope.

Lemma reciprocalSpacing2_guarded (spacing : Vec3 R) :
  reciprocalSpacing2 spacing = guardedReciprocal2 spacing.
Proof.
  unfold reciprocalSpacing2, reciprocalSpacing, guardedReciprocal2, POW2; simpl.
  unfold Q2R; simpl.
  destruct (Rlt_dec (/ 8388608) (Vec3.z spacing)); f_equal.
  all: unfold Rdiv; rewrite ?Rinv_mult, ?Rinv_1; ring.
Qed.

(** The value the loop body stores at an interior point is the rule of the
    specification, read off the grid as the body finds it, with the guarded
    reciprocals. *)
Lemma updatedVal_sorUpdate (g lap : UniformGrid R (Vec3 R)) (ix iy iz : nat) :
  ShapeMatches g lap = true ->
  (1 <= ix)%nat -> (1 <= iy)%nat -> (1 <= iz)%nat ->
  updatedVal g lap (ix, iy, iz)
  = sorUpdate (guardedReciprocal2 (cellSpacing lap)) g lap (ix, iy, iz).
Proof.
  intros Hshape Hx Hy Hz. apply ShapeMatches_eq in Hshape as (E0 & E1 & E2).
  unfold updatedVal, vSolution, sorUpdate, HalfSpacing2Sum, GetCellSpacing.
  rewrite reciprocalSpacing2_guarded.
  unfold ASSIGN_XYZ_OFFSETS, OffsetFromIndices, GetNumPoints; cbn [offsetX0Y0Z0
    offsetXMY0Z0 offsetXPY0Z0 offsetX0YMZ0 offsetX0YPZ0 offsetX0Y0ZM offsetX0Y0ZP
    fst snd].
  rewrite E0, E1.
  set (d0 := numPoints0 lap). set (d1 := numPoints1 lap).
  replace (ix + (d0 * iy + d0 * d1 * iz))%nat
    with (ix + d0 * iy + d0 * d1 * iz)%nat by lia.
  replace (ix + 1 + (d0 * iy + d0 * d1 * iz))%nat
    with (ix + 1 + d0 * iy + d0 * d1 * iz)%nat by lia.
  replace (ix - 1 + (d0 * iy + d0 * d1 * iz))%nat
    with (ix - 1 + d0 * iy + d0 * d1 * iz)%nat by lia.
  replace (ix + (d0 * (iy + 1) + d0 * d1 * iz))%nat
    with (ix + d0 * (iy + 1) + d0 * d1 * iz)%nat by lia.
  replace (ix + (d0 * (iy - 1) + d0 * d1 * iz))%nat
    with (ix + d0 * (iy - 1) + d0 * d1 * iz)%nat by lia.
  replace (ix + (d0 * iy + d0 * d1 * (iz + 1)))%nat
    with (ix + d0 * iy + d0 * d1 * (iz + 1))%nat by lia.
  replace (ix + (d0 * iy + d0 * d1 * (iz - 1)))%nat
    with (ix + d0 * iy + d0 * d1 * (iz - 1))%nat by lia.
  generalize (guardedReciprocal2 (cellSpacing lap)). intros r2.
  unfold vadd, vsub, vscale, svmul, oneMinusRelax, relax; simpl.
  unfold Q2R; simpl.
  replace (5 * / 10) with (/ 2) by lra.
  f_equal; unfold Rdiv; rewrite ?Rinv_1; ring.
Qed.

End SorRule.

Section SorRuleOfPass.
#[local] Open Scope R_scope.

Lemma relaxPoints_shape (lap soln : UniformGrid R (Vec3 R)) (l : list Index) :
  ShapeMatches soln lap = true ->
  ShapeMatches (relaxPoints lap l soln) lap = true.
Proof.
  intros Hs. pose proof (fold_write_shape (pointOffset lap)
    (fun g p => updatedVal g lap p) l soln) as Hf. simpl in Hf.
  destruct Hf as (H0 & H1 & H2 & _). unfold relaxPoints, ShapeMatches in *.
  rewrite H0, H1, H2. exact Hs.
Qed.

(** The value a pass leaves at a point its interior loop nest visits: the
    rule, read off the grid as it stands when the loop reaches the point. *)
Lemma Step_interior_value (soln lap : UniformGrid R (Vec3 R)) (izStart izEnd : nat)
    (redOrBlack : GaussSeidelPortionE) (boundaryCondition : BoundaryConditionE)
    (residualStats : Stats_Float R) (l1 l2 : list Index) (ix iy iz : nat) :
  ShapeMatches soln lap = true ->
  Size soln = GetGridCapacity soln ->
  interiorPoints (numPoints0 lap) (numPoints1 lap) (numPoints2 lap)
    izStart izEnd redOrBlack = l1 ++ (ix, iy, iz) :: l2 ->
  gridGet (fst (StepTowardVectorPoissonSolution soln lap izStart izEnd redOrBlack
                  boundaryCondition residualStats))
          (OffsetFromIndices soln (ix, iy, iz))
  = sorUpdate (guardedReciprocal2 (cellSpacing lap)) (relaxPoints lap l1 soln) lap
      (ix, iy, iz).
Proof.
  intros Hshape Hsize Hsplit.
  pose proof (ShapeMatches_eq _ _ Hshape) as (E0 & E1 & E2).
  assert (Hin : In (ix, iy, iz)
                  (interiorPoints (numPoints0 lap) (numPoints1 lap) (numPoints2 lap)
                     izStart izEnd redOrBlack))
    by (rewrite Hsplit; apply in_elt).
  pose proof (interiorPoints_range _ _ _ _ _ _ _ Hin) as (Hx & Hy & Hz).
  simpl in Hx, Hy, Hz.
  assert (Ho : OffsetFromIndices soln (ix, iy, iz) = pointOffset lap (ix, iy, iz)).
  { rewrite pointOffset_eq. simpl. rewrite E0, E1. reflexivity. }
  rewrite Ho, Step_soln.
  assert (Hb : gridGet (applyBoundary lap izStart izEnd redOrBlack boundaryCondition
                          (relaxInterior lap izStart izEnd redOrBlack soln))
                       (pointOffset lap (ix, iy, iz))
               = gridGet (relaxInterior lap izStart izEnd redOrBlack soln)
                         (pointOffset lap (ix, iy, iz))).
  { destruct boundaryCondition; [|reflexivity].
    rewrite applyBoundary_neumann. apply fold_write_frame.
    apply boundary_offset_not_interior; assumption. }
  rewrite Hb. unfold relaxInterior. simpl GetNumPoints. rewrite Hsplit.
  unfold relaxPoints at 1.
  rewrite (fold_write_last (pointOffset lap) (fun g p => updatedVal g lap p)).
  - apply updatedVal_sorUpdate; [apply relaxPoints_shape, Hshape | lia..].
  - pose proof (interior_offsets_NoDup lap izStart izEnd redOrBlack) as Hnd.
    rewrite Hsplit, map_app in Hnd. simpl in Hnd.
    apply NoDup_remove_2 in Hnd. rewrite in_app_iff in Hnd. tauto.
  - rewrite Hsize, pointOffset_eq. unfold GetGridCapacity. rewrite E0, E1, E2.
    apply offset_lt_capacity; lia.
Qed.

(** C1, as amended.  For every point the interior loop nest of a pass visits
    (an interior point of the grid), the value the pass leaves there is
      (1-w)*old + w*HalfSpacing2Sum*(sum over the axes of
        (soln[+1]+soln[-1])*recip2[a] - source[point]),
    where old and the six neighbours are read off the grid as it stands when
    the loop reaches the point (after the points visited before it have been
    relaxed), recip2 is 1/spacing^2 on x and y and, on z, 1/spacing.z^2 when
    spacing.z exceeds FLT_EPSILON and 0 otherwise,
    HalfSpacing2Sum = 0.5 / (sum of recip2), and w = 1.72, which lies in
    [1, 2).  The arithmetic is exact. *)
Theorem sor_interior_update_rule (soln lap : UniformGrid R (Vec3 R))
    (izStart izEnd : nat) (redOrBlack : GaussSeidelPortionE)
    (boundaryCondition : BoundaryConditionE) (residualStats : Stats_Float R)
    (ix iy iz : nat) :
  ShapeMatches soln lap = true ->
  Size soln = GetGridCapacity soln ->
  In (ix, iy, iz)
     (interiorPoints (numPoints0 lap) (numPoints1 lap) (numPoints2 lap)
        izStart izEnd redOrBlack) ->
  (exists visitedBefore visitedAfter,
     interiorPoints (numPoints0 lap) (numPoints1 lap) (numPoints2 lap)
       izStart izEnd redOrBlack
     = visitedBefore ++ (ix, iy, iz) :: visitedAfter /\
     gridGet (fst (StepTowardVectorPoissonSolution soln lap izStart izEnd
                     redOrBlack boundaryCondition residualStats))
             (OffsetFromIndices soln (ix, iy, iz))
     = sorUpdate (guardedReciprocal2 (cellSpacing lap))
         (relaxPoints lap visitedBefore soln) lap (ix, iy, iz)) /\
  (0 < ix < numPoints0 soln - 1 /\ 0 < iy < numPoints1 soln - 1 /\
   0 < iz < numPoints2 soln - 1)%nat /\
  @relax R _ = 1.72 /\ 1 <= @relax R _ < 2.
Proof.
  intros Hshape Hsize Hin. split; [|split].
  - destruct (in_split _ _ Hin) as (l1 & l2 & Hsplit).
    exists l1, l2. split; [exact Hsplit|].
    apply (Step_interior_value soln lap izStart izEnd redOrBlack boundaryCondition
             residualStats l1 l2); assumption.
  - apply ShapeMatches_eq in Hshape as (E0 & E1 & E2).
    apply interiorPoints_range in Hin. simpl in Hin. lia.
  - split; [reflexivity|]. unfold relax; simpl. lra.
Qed.

End SorRuleOfPass.

Section SorRuleCases.
#[local] Open Scope R_scope.
Import ExactExamples.

(** C1, as stated, fails on a grid whose z spacing is 2^-24: at the centre of
    the 3x3x3 box the pass stores 0 (the z neighbours do not count), where
    the rule with 1/spacing.z^2 gives a positive x component. *)
Lemma sor_rule_unguarded_counterexample :
  gridGet (fst (StepTowardVectorPoissonSolution solnThin lapThin 0 3 GS_RED
                  BC_DIRICHLET stats0))
          (OffsetFromIndices solnThin (1, 1, 1)%nat)
  <> sorUpdate (specReciprocal2 (cellSpacing lapThin)) solnThin lapThin
       (1, 1, 1)%nat.
Proof.
  rewrite (Step_interior_value solnThin lapThin 0 3 GS_RED BC_DIRICHLET stats0
             [] [] 1 1 1 eq_refl eq_refl eq_refl).
  intros Heq. apply (f_equal Vec3.x) in Heq. revert Heq.
  unfold sorUpdate, guardedReciprocal2, specReciprocal2, relaxPoints.
  cbn -[Rplus Rmult Rminus Rdiv Rinv Rlt_dec Q2R IZR].
  destruct (Rlt_dec (/ 8388608) (/ 16777216)) as [Hlt|_]; [exfalso; lra|].
  cbn -[Rplus Rmult Rminus Rdiv Rinv Rlt_dec Q2R IZR].
  replace (1 / (/ 16777216 * / 16777216)) with 281474976710656 by (field; lra).
  lra.
Qed.

(** The amended rule holds at that point. *)
Lemma sor_interior_update_rule_witness :
  (exists visitedBefore visitedAfter,
     interiorPoints 3 3 3 0 3 GS_RED
     = visitedBefore ++ (1, 1, 1)%nat :: visitedAfter /\
     gridGet (fst (StepTowardVectorPoissonSolution solnThin lapThin 0 3 GS_RED
                     BC_DIRICHLET stats0))
             (OffsetFromIndices solnThin (1, 1, 1)%nat)
     = sorUpdate (guardedReciprocal2 (cellSpacing lapThin))
         (relaxPoints lapThin visitedBefore solnThin) lapThin (1, 1, 1)%nat) /\
  (0 < 1 < 3 - 1 /\ 0 < 1 < 3 - 1 /\ 0 < 1 < 3 - 1)%nat /\
  @relax R _ = 1.72 /\ 1 <= @relax R _ < 2.
Proof.
  apply (sor_interior_update_rule solnThin lapThin 0 3 GS_RED BC_DIRICHLET stats0
           1 1 1).
  - reflexivity.
  - reflexivity.
  - simpl. left. reflexivity.
Defined.

End SorRuleCases.

(** ** Neumann boundary after a round *)

(** A store of the Neumann block of a red or black pass at a point of the
    +X face that lies on no other face has an even y index: the +X loop
    starts y at 0 and steps it by 2. *)
Lemma boundaryPoints_plusX_even (dims0 dims1 dims2 izStart izEnd : nat)
    (redOrBlack : GaussSeidelPortionE) (iy iz : nat) :
  redOrBlack <> GS_BOTH -> 2 <= dims0 ->
  1 <= iy < dims1 - 1 -> 1 <= iz < dims2 - 1 ->
  In (dims0 - 1, iy, iz)
     (boundaryPoints dims0 dims1 dims2 izStart izEnd redOrBlack) ->
  exists k, iy = 2 * k.
Proof.
  intros Hc Hd0 Hy Hz.
  assert (Hstep : iyStep redOrBlack = 2) by (destruct redOrBlack; [reflexivity.. | contradiction]).
  unfold boundaryPoints. rewrite Hstep, !in_app_iff.
  intros [Hin | [Hin | [Hin | [Hin | [Hin | Hin]]]]].
  - apply in_flat_map in Hin as [z [_ Hin]]. apply in_map_iff in Hin as [y [Heq _]].
    inversion Heq; lia.
  - apply in_flat_map in Hin as [z [_ Hin]]. apply in_map_iff in Hin as [x [Heq _]].
    inversion Heq; lia.
  - destruct (0 =? izStart); [|contradiction].
    apply in_flat_map in Hin as [y [_ Hin]]. apply in_map_iff in Hin as [x [Heq _]].
    inversion Heq; lia.
  - apply in_flat_map in Hin as [z [_ Hin]]. apply in_map_iff in Hin as [y [Heq Hin]].
    inversion Heq; subst. apply forLoop_In in Hin as [_ [k Hk]]; [|lia].
    exists k. lia.
  - apply in_flat_map in Hin as [z [_ Hin]]. apply in_map_iff in Hin as [x [Heq _]].
    inversion Heq; lia.
  - destruct (izEnd =? dims2); [|contradiction].
    apply in_flat_map in Hin as [y [_ Hin]]. apply in_map_iff in Hin as [x [Heq _]].
    inversion Heq; lia.
Qed.

(** Hence, under the Neumann mode too, the solver never stores to a sample
    of the +X face with an odd y index that lies on no other face: it keeps
    the value it had on entry, whatever the adjacent interior sample
    becomes. *)
Lemma neumann_plusX_odd_rows_kept {F : Type} `{Scalar F} `{Inhabited F}
    (soln lap : UniformGrid F (Vec3 F)) (numSteps : nat)
    (residualStats : Stats_Float F) (k iz : nat) :
  2 <= numPoints0 lap ->
  1 <= 2 * k + 1 < numPoints1 lap - 1 -> 1 <= iz < numPoints2 lap - 1 ->
  gridGet (fst (SolveVectorPoisson soln lap numSteps BC_NEUMANN residualStats))
          (pointOffset lap (numPoints0 lap - 1, 2 * k + 1, iz))
  = gridGet soln (pointOffset lap (numPoints0 lap - 1, 2 * k + 1, iz)).
Proof.
  intros Hd0 Hy Hz. unfold SolveVectorPoisson.
  assert (Hnot : forall izStart izEnd redOrBlack, redOrBlack <> GS_BOTH ->
             ~ In (pointOffset lap (numPoints0 lap - 1, 2 * k + 1, iz))
                  (writtenOffsets lap izStart izEnd redOrBlack BC_NEUMANN)).
  { intros izStart izEnd redOrBlack Hc. unfold writtenOffsets. rewrite in_app_iff.
    intros [Hin | Hin].
    - revert Hin. apply interior_offset_not_face; lia.
    - apply in_map_iff in Hin as [[[qx qy] qz] [Heq Hq]]. simpl GetNumPoints in Hq.
      pose proof Hq as Hface.
      apply boundaryPoints_on_face in Hface as (Hqx & Hqy & _); [|lia|lia].
      apply pointOffset_inj in Heq; simpl; [|lia..]. inversion Heq; subst.
      apply boundaryPoints_plusX_even in Hq as [j Hj]; [lia | exact Hc | lia..]. }
  rewrite rounds_frame by exact Hnot. reflexivity.
Qed.

(** C2 fails on the code.  On the 3x3x3 box with unit spacing, a zero
    solution and the source (1,0,0) at the centre, one round (red pass, then
    black pass, over the whole z-range) under the Neumann mode leaves the
    face sample (2,1,1) at its initial value 0: neither pass stores to it,
    the +X loop of the Neumann block stepping y by 2 from 0.  Its adjacent
    interior sample (1,1,1) has been relaxed to a non-zero value. *)
Theorem neumann_round_stale_face :
  let after := fst (relaxationRound FloatExamples.lapCentre BC_NEUMANN
                      (FloatExamples.solnZero, FloatExamples.stats0)) in
  interiorOffset FloatExamples.lapCentre (2, 1, 1)
  = OffsetFromIndices FloatExamples.solnZero (1, 1, 1) /\
  ~ In (OffsetFromIndices FloatExamples.solnZero (2, 1, 1))
       (writtenOffsets FloatExamples.lapCentre 0 3 GS_RED BC_NEUMANN
        ++ writtenOffsets FloatExamples.lapCentre 0 3 GS_BLACK BC_NEUMANN) /\
  gridGet after (OffsetFromIndices FloatExamples.solnZero (2, 1, 1))
  = Vec3.mk (S754_zero false) (S754_zero false) (S754_zero false) /\
  gridGet after (OffsetFromIndices FloatExamples.solnZero (1, 1, 1))
  = Vec3.mk (S754_finite true 9618938 (-25)) (S754_zero false) (S754_zero false) /\
  fst (SolveVectorPoisson FloatExamples.solnZero FloatExamples.lapCentre 1
         BC_NEUMANN FloatExamples.stats0) = after.
Proof.
  repeat split; try (vm_compute; reflexivity).
  vm_compute. intros Hin.
  repeat (destruct Hin as [Hin | Hin]; [discriminate Hin|]). exact Hin.
Qed.

(** ** Conditional gradient *)

(** C5 fails on the code.  On the 3x3x3 ramp f = x index, every sample valid,
    the point (1,1,1) has both x neighbours in bounds and valid; the centered
    difference there is 1, and the x component the routine stores is the
    invalid value: after the centered difference is assigned, the test
    [1 == idxDiff] fails and its [else] branch overwrites the component.
    The y and z components are invalid as well, their neighbours being
    3 and 9 offsets away, never 1 or 2. *)
Theorem conditional_gradient_loses_centered_difference :
  let vals := ConditionalExamples.rampX in
  let g := ComputeGradientConditionally ConditionalExamples.gradZero vals in
  let o := OffsetFromIndices vals (1, 1, 1) in
  In (1, 1, 1) (conditionalPoints 3 3 1 3) /\
  IsNan (gridGet vals o) = false /\
  IsNan (gridGet vals (OffsetFromIndices vals (0, 1, 1))) = false /\
  IsNan (gridGet vals (OffsetFromIndices vals (2, 1, 1))) = false /\
  fmul (fsub (gridGet vals (OffsetFromIndices vals (2, 1, 1)))
             (gridGet vals (OffsetFromIndices vals (0, 1, 1))))
       (fdiv (fconst (1 # 2)) (Vec3.x (GetCellSpacing vals)))
  = FloatExamples.b32 1 /\
  Vec3.x (gridGet g o) = UNIFORM_GRID_INVALID_VALUE /\
  Vec3.y (gridGet g o) = UNIFORM_GRID_INVALID_VALUE /\
  Vec3.z (gridGet g o) = UNIFORM_GRID_INVALID_VALUE.
Proof.
  repeat split; try (vm_compute; reflexivity).
  vm_compute. tauto.
Qed.

Section ConditionalGradientProps.
Context {F : Type} `{NanScalar F} `{Inhabited F}.

Lemma conditionalPoints_In (dims0 dims1 izStart izEnd ix iy iz : nat) :
  In (ix, iy, iz) (conditionalPoints dims0 dims1 izStart izEnd) <->
  1 <= ix < dims0 /\ 1 <= iy < dims1 /\ izStart <= iz < izEnd.
Proof.
  unfold conditionalPoints. rewrite in_flat_map. split.
  - intros [z [Hz Hin]]. apply in_flat_map in Hin as [y [Hy Hin]].
    apply in_map_iff in Hin as [x [Heq Hx]]. inversion Heq; subst.
    apply forLoop1_In in Hz, Hy, Hx. tauto.
  - intros (Hx & Hy & Hz). exists iz. split; [apply forLoop1_In; exact Hz|].
    apply in_flat_map. exists iy. split; [apply forLoop1_In; exact Hy|].
    apply in_map_iff. exists ix. split; [reflexivity | apply forLoop1_In; exact Hx].
Qed.

Lemma conditionalPoints_NoDup (dims0 dims1 izStart izEnd : nat) :
  NoDup (conditionalPoints dims0 dims1 izStart izEnd).
Proof.
  unfold conditionalPoints. apply NoDup_flat_map.
  - apply forLoop_NoDup; lia.
  - intros z _. apply NoDup_flat_map.
    + apply forLoop_NoDup; lia.
    + intros y _. apply NoDup_map_inj; [|apply forLoop_NoDup; lia].
      intros a a' _ _ Heq. inversion Heq; reflexivity.
    + intros y y' b _ _ Hb Hb'.
      apply in_map_iff in Hb as [x [<- _]]. apply in_map_iff in Hb' as [x' [Heq _]].
      inversion Heq; reflexivity.
  - intros z z' b _ _ Hb Hb'.
    apply in_flat_map in Hb as [y [_ Hb]]. apply in_map_iff in Hb as [x [<- _]].
    apply in_flat_map in Hb' as [y' [_ Hb']]. apply in_map_iff in Hb' as [x' [Heq _]].
    inversion Heq; reflexivity.
Qed.

(** One component at a point whose own sample is invalid: whichever branch
    the macro takes, what it leaves is not a number.  The neighbours'
    offsets are at least 2 apart, so a difference of 1 involves the point
    itself. *)
Lemma SET_PARTIAL_DERIVATIVE_CONDITIONALLY_invalid (scalarVals : UniformGrid F F)
    (idx dimsMinus1 minusIndex offset0 plusIndex : nat) (recip halfRecip previous : F) :
  plusIndex - minusIndex <> 1 ->
  IsNan (gridGet scalarVals offset0) = true ->
  IsNan (SET_PARTIAL_DERIVATIVE_CONDITIONALLY scalarVals idx dimsMinus1 minusIndex
           offset0 plusIndex recip halfRecip previous) = true.
Proof.
  intros Hdiff Hnan. unfold SET_PARTIAL_DERIVATIVE_CONDITIONALLY.
  destruct (IsNan (gridGet scalarVals idx)); [apply IsNan_invalid|].
  destruct ((idx <? dimsMinus1) && negb (IsNan (gridGet scalarVals (idx + 1))));
    destruct ((0 <? idx) && negb (IsNan (gridGet scalarVals (idx - 1)))); cbv zeta.
  - destruct (Nat.eqb_spec 1 (plusIndex - minusIndex)) as [He|_];
      [congruence | apply IsNan_invalid].
  - destruct (1 =? plusIndex - offset0); [|apply IsNan_invalid].
    apply IsNan_fmul_l, IsNan_fsub_r, Hnan.
  - destruct (1 =? offset0 - minusIndex); [|apply IsNan_invalid].
    apply IsNan_fmul_l, IsNan_fsub_l, Hnan.
  - destruct (1 =? offset0 - offset0); [|apply IsNan_invalid].
    apply IsNan_fmul_l, IsNan_fsub_l, Hnan.
Qed.

Lemma ComputeGradientConditionally_value (gradient : UniformGrid F (Vec3 F))
    (scalarVals : UniformGrid F F) (ix iy iz : nat) :
  ShapeMatches gradient scalarVals = true ->
  Size gradient = GetGridCapacity gradient ->
  1 <= ix < numPoints0 scalarVals -> 1 <= iy < numPoints1 scalarVals ->
  1 <= iz < numPoints2 scalarVals ->
  exists previous,
    gridGet (ComputeGradientConditionally gradient scalarVals)
            (OffsetFromIndices gradient (ix, iy, iz))
    = gradientConditionally scalarVals previous (ix, iy, iz).
Proof.
  intros Hshape Hsize Hx Hy Hz.
  apply ShapeMatches_eq in Hshape as (E0 & E1 & E2).
  set (pts := conditionalPoints (numPoints0 scalarVals) (numPoints1 scalarVals) 1
                (numPoints2 scalarVals)).
  assert (Hin : In (ix, iy, iz) pts) by (apply conditionalPoints_In; lia).
  destruct (in_split _ _ Hin) as (l1 & l2 & Hsplit).
  assert (Ho : OffsetFromIndices gradient (ix, iy, iz)
               = pointOffset scalarVals (ix, iy, iz)).
  { rewrite pointOffset_eq. simpl. rewrite E0, E1. reflexivity. }
  set (val := fun (g : UniformGrid F (Vec3 F)) (p : Index) =>
                gradientConditionally scalarVals
                  (gridGet g (pointOffset scalarVals p)) p).
  assert (Hfold : ComputeGradientConditionally gradient scalarVals
                  = fold_left (writeStep (pointOffset scalarVals) val) pts gradient)
    by reflexivity.
  exists (gridGet (fold_left (writeStep (pointOffset scalarVals) val) l1 gradient)
            (pointOffset scalarVals (ix, iy, iz))).
  rewrite Hfold, Ho, Hsplit.
  rewrite (fold_write_last (pointOffset scalarVals) val).
  - reflexivity.
  - assert (Hnd : NoDup (map (pointOffset scalarVals) pts)).
    { apply NoDup_map_inj; [|apply conditionalPoints_NoDup].
      intros [[ax ay] az] [[bx by'] bz] Ha Hb.
      apply conditionalPoints_In in Ha, Hb. apply pointOffset_inj; simpl; lia. }
    rewrite Hsplit, map_app in Hnd. simpl in Hnd.
    apply NoDup_remove_2 in Hnd. rewrite in_app_iff in Hnd. tauto.
  - rewrite Hsize, pointOffset_eq. unfold GetGridCapacity. rewrite E0, E1, E2.
    apply offset_lt_capacity; lia.
Qed.



(** C6.  At every point [ComputeGradientConditionally] processes (indices
    from 1 on each axis) whose own scalar sample is not a number, each of the
    three components of the stored gradient is not a number, whatever the
    neighbours hold. *)
Theorem conditional_gradient_invalid_point (gradient : UniformGrid F (Vec3 F))
    (scalarVals : UniformGrid F F) (ix iy iz : nat) :
  ShapeMatches gradient scalarVals = true ->
  Size gradient = GetGridCapacity gradient ->
  1 <= ix < numPoints0 scalarVals ->
  1 <= iy < numPoints1 scalarVals ->
  1 <= iz < numPoints2 scalarVals ->
  IsNan (gridGet scalarVals (OffsetFromIndices scalarVals (ix, iy, iz))) = true ->
  let written := gridGet (ComputeGradientConditionally gradient scalarVals)
                         (OffsetFromIndices gradient (ix, iy, iz)) in
  In (ix, iy, iz)
     (conditionalPoints (numPoints0 scalarVals) (numPoints1 scalarVals) 1
        (numPoints2 scalarVals)) /\
  IsNan (Vec3.x written) = true /\
  IsNan (Vec3.y written) = true /\
  IsNan (Vec3.z written) = true.
Proof.
  intros Hshape Hsize Hx Hy Hz Hnan written.
  split; [apply conditionalPoints_In; lia|].
  destruct (ComputeGradientConditionally_value gradient scalarVals ix iy iz
              Hshape Hsize Hx Hy Hz) as [previous Hval].
  unfold written. rewrite Hval. unfold gradientConditionally. cbn [Vec3.x Vec3.y Vec3.z].
  assert (Hself : IsNan (gridGet scalarVals
                    (offsetX0Y0Z0 (ASSIGN_XYZ_OFFSETS (GetNumPoints scalarVals 0)
                                     (GetNumPoints scalarVals 1) (ix, iy, iz)))) = true).
  { rewrite offsetX0Y0Z0_eq. exact Hnan. }
  repeat split; apply SET_PARTIAL_DERIVATIVE_CONDITIONALLY_invalid; try exact Hself;
    unfold ASSIGN_XYZ_OFFSETS; simpl; nia.
Qed.

End ConditionalGradientProps.

(** On the ramp with the centre sample invalid, the gradient stored at the
    centre is invalid on the three axes. *)
Lemma conditional_gradient_invalid_point_witness :
  let written :=
    gridGet (ComputeGradientConditionally ConditionalExamples.gradZero
               ConditionalExamples.rampXHole) 13 in
  In (1, 1, 1) (conditionalPoints 3 3 1 3) /\
  IsNan (Vec3.x written) = true /\
  IsNan (Vec3.y written) = true /\
  IsNan (Vec3.z written) = true.
Proof.
  apply (conditional_gradient_invalid_point ConditionalExamples.gradZero
           ConditionalExamples.rampXHole 1 1 1).
  - reflexivity.
  - reflexivity.
  - simpl; lia.
  - simpl; lia.
  - simpl; lia.
  - reflexivity.
Defined.

(** ** Gradient *)

(** A fold of stores whose values do not depend on the grid leaves, at an
    offset it stores to, the value every store to that offset carries. *)
Lemma fold_write_const {F T : Type} `{Inhabited T} (off : Index -> nat)
    (f : Index -> T) (v : T) (o : nat) :
  forall (l : list Index) (g : UniformGrid F T),
    (forall q, In q l -> off q = o -> f q = v) ->
    In o (map off l) -> o < Size g ->
    gridGet (fold_left (writeStep off (fun _ p => f p)) l g) o = v.
Proof.
  induction l as [|q l IH]; intros g Hval Hin Hlt; simpl in *; [contradiction|].
  destruct (in_dec Nat.eq_dec o (map off l)) as [Hl|Hl].
  - apply IH; [intros; apply Hval; auto | exact Hl |].
    unfold writeStep, gridSet, Size; simpl. rewrite length_insert. exact Hlt.
  - rewrite fold_write_frame by exact Hl.
    destruct Hin as [Hq|Hin]; [|contradiction].
    unfold writeStep, gridGet, gridSet; simpl. rewrite Hq.
    rewrite list_lookup_total_insert_eq by exact Hlt.
    apply Hval; auto.
Qed.

Lemma interiorSlicePoints_In (dims0 dims1 izStart izEnd ix iy iz : nat) :
  In (ix, iy, iz) (interiorSlicePoints dims0 dims1 izStart izEnd) <->
  1 <= ix < dims0 - 1 /\ 1 <= iy < dims1 - 1 /\ izStart <= iz < izEnd.
Proof.
  unfold interiorSlicePoints. rewrite in_flat_map. split.
  - intros [z [Hz Hin]]. apply in_flat_map in Hin as [y [Hy Hin]].
    apply in_map_iff in Hin as [x [Heq Hx]]. inversion Heq; subst.
    apply forLoop1_In in Hz, Hy, Hx. tauto.
  - intros (Hx & Hy & Hz). exists iz. split; [apply forLoop1_In; exact Hz|].
    apply in_flat_map. exists iy. split; [apply forLoop1_In; exact Hy|].
    apply in_map_iff. exists ix. split; [reflexivity | apply forLoop1_In; exact Hx].
Qed.

Lemma facePoints_In (dims0 dims1 dims2 ix iy iz : nat) :
  1 <= dims0 -> 1 <= dims1 -> 1 <= dims2 ->
  (In (ix, iy, iz) (facePoints dims0 dims1 dims2) <->
   ix < dims0 /\ iy < dims1 /\ iz < dims2 /\
   (ix = 0 \/ iy = 0 \/ iz = 0 \/
    ix = dims0 - 1 \/ iy = dims1 - 1 \/ iz = dims2 - 1)).
Proof.
  intros Hd0 Hd1 Hd2.
  unfold facePoints. rewrite !in_app_iff, !in_flat_map. split.
  - intros [Hin | [Hin | [Hin | [Hin | [Hin | Hin]]]]];
      destruct Hin as [a [Ha Hin]]; apply in_map_iff in Hin as [b [Heq Hb]];
      inversion Heq; subst; apply forLoop1_In in Ha, Hb; lia.
  - intros (Hx & Hy & Hz & [-> | [-> | [-> | [-> | [-> | ->]]]]]).
    + left. exists iz. split; [apply forLoop1_In; lia|].
      apply in_map_iff. exists iy. split; [reflexivity | apply forLoop1_In; lia].
    + right; left. exists iz. split; [apply forLoop1_In; lia|].
      apply in_map_iff. exists ix. split; [reflexivity | apply forLoop1_In; lia].
    + right; right; left. exists iy. split; [apply forLoop1_In; lia|].
      apply in_map_iff. exists ix. split; [reflexivity | apply forLoop1_In; lia].
    + right; right; right; left. exists iz. split; [apply forLoop1_In; lia|].
      apply in_map_iff. exists iy. split; [reflexivity | apply forLoop1_In; lia].
    + right; right; right; right; left. exists iz. split; [apply forLoop1_In; lia|].
      apply in_map_iff. exists ix. split; [reflexivity | apply forLoop1_In; lia].
    + right; right; right; right; right. exists iy. split; [apply forLoop1_In; lia|].
      apply in_map_iff. exists ix. split; [reflexivity | apply forLoop1_In; lia].
Qed.

(** An operator that stores [interiorBody] over the interior loop nest and
    then [boundaryBody] over the six face loop nests leaves [boundaryBody]
    of the point at every sample, when the two bodies agree away from the
    faces. *)
Lemma stencil_sweep_value {F T : Type} `{Inhabited T} (output : UniformGrid F T)
    (dims0 dims1 dims2 : nat) (interiorBody boundaryBody : Index -> T)
    (ix iy iz : nat) :
  numPoints0 output = dims0 -> numPoints1 output = dims1 ->
  numPoints2 output = dims2 ->
  Size output = GetGridCapacity output ->
  (forall jx jy jz, 1 <= jx < dims0 - 1 -> 1 <= jy < dims1 - 1 ->
     1 <= jz < dims2 - 1 -> boundaryBody (jx, jy, jz) = interiorBody (jx, jy, jz)) ->
  ix < dims0 -> iy < dims1 -> iz < dims2 ->
  gridGet (fold_left (writeAt dims0 dims1 boundaryBody) (facePoints dims0 dims1 dims2)
             (fold_left (writeAt dims0 dims1 interiorBody)
                (interiorSlicePoints dims0 dims1 1 (dims2 - 1)) output))
          (OffsetFromIndices output (ix, iy, iz))
  = boundaryBody (ix, iy, iz).
Proof.
  intros E0 E1 E2 Hsize Hagree Hx Hy Hz.
  set (off := fun p : Index => offsetX0Y0Z0 (ASSIGN_XYZ_OFFSETS dims0 dims1 p)).
  assert (Hoff : forall jx jy jz,
             off (jx, jy, jz) = jx + dims0 * jy + dims0 * dims1 * jz)
    by (intros; apply offsetX0Y0Z0_eq).
  assert (Hinj : forall jx jy jz, jx < dims0 -> jy < dims1 ->
             off (jx, jy, jz) = off (ix, iy, iz) -> (jx, jy, jz) = (ix, iy, iz)).
  { intros jx jy jz Hjx Hjy Heq. rewrite !Hoff in Heq.
    apply (offset_inj dims0 dims1); assumption. }
  assert (Ho : OffsetFromIndices output (ix, iy, iz) = off (ix, iy, iz)).
  { rewrite Hoff. simpl. rewrite E0, E1. reflexivity. }
  assert (Hlt : off (ix, iy, iz) < Size output).
  { rewrite Hsize, Hoff. unfold GetGridCapacity. rewrite E0, E1, E2.
    apply offset_lt_capacity; assumption. }
  set (g1 := fold_left (writeAt dims0 dims1 interiorBody)
               (interiorSlicePoints dims0 dims1 1 (dims2 - 1)) output).
  assert (Hsize1 : Size g1 = Size output)
    by (apply (fold_write_shape off (fun _ p => interiorBody p))).
  rewrite Ho.
  change (writeAt dims0 dims1 boundaryBody)
    with (writeStep (F := F) off (fun _ p => boundaryBody p)).
  destruct (in_dec Index_eq_dec (ix, iy, iz) (facePoints dims0 dims1 dims2))
    as [Hface|Hface].
  - apply fold_write_const.
    + intros [[qx qy] qz] Hq Heq. apply facePoints_In in Hq; [|lia..].
      apply Hinj in Heq; [|lia..]. rewrite Heq. reflexivity.
    + apply in_map, Hface.
    + rewrite Hsize1. exact Hlt.
  - rewrite facePoints_In in Hface by lia.
    assert (Hint : 1 <= ix < dims0 - 1 /\ 1 <= iy < dims1 - 1 /\ 1 <= iz < dims2 - 1)
      by lia.
    rewrite fold_write_frame.
    + rewrite Hagree by lia. unfold g1.
      change (writeAt dims0 dims1 interiorBody)
        with (writeStep (F := F) off (fun _ p => interiorBody p)).
      apply fold_write_const.
      * intros [[qx qy] qz] Hq Heq. apply interiorSlicePoints_In in Hq.
        apply Hinj in Heq; [|lia..]. rewrite Heq. reflexivity.
      * apply in_map, interiorSlicePoints_In. lia.
      * exact Hlt.
    + intros Hin. apply in_map_iff in Hin as [[[qx qy] qz] [Heq Hq]].
      apply facePoints_In in Hq; [|lia..].
      apply Hinj in Heq; [|lia..]. inversion Heq; subst. lia.
Qed.

Section GradientProps.
Context {F : Type} `{Scalar F} `{Inhabited F}.

(** Away from the faces the boundary macro takes its centered branch on the
    three axes: it computes what the interior loop body computes. *)
Lemma gradientAtBoundary_interior (scalarVals : UniformGrid F F) (ix iy iz : nat) :
  1 <= ix < numPoints0 scalarVals - 1 ->
  1 <= iy < numPoints1 scalarVals - 1 ->
  1 <= iz < numPoints2 scalarVals - 1 ->
  gradientAtBoundary scalarVals (ix, iy, iz) = gradientInterior scalarVals (ix, iy, iz).
Proof.
  intros Hx Hy Hz. unfold gradientAtBoundary, gradientInterior, partialAtBoundary.
  cbn [fst snd GetNumPoints].
  destruct (Nat.eqb_spec ix 0); [lia|].
  destruct (Nat.eqb_spec ix (numPoints0 scalarVals - 1)); [lia|].
  destruct (Nat.eqb_spec iy 0); [lia|].
  destruct (Nat.eqb_spec iy (numPoints1 scalarVals - 1)); [lia|].
  destruct (Nat.eqb_spec iz 0); [lia|].
  destruct (Nat.eqb_spec iz (numPoints2 scalarVals - 1)); [lia|].
  reflexivity.
Qed.

(** Every sample of the output grid ends up holding the stencil of its
    point: the interior loop nest and the six face loop nests together reach
    every point, and the stores that overlap on edges and corners agree. *)
Lemma ComputeGradient_value (gradientGrid : UniformGrid F (Vec3 F))
    (scalarVals : UniformGrid F F) (ix iy iz : nat) :
  ShapeMatches gradientGrid scalarVals = true ->
  Size gradientGrid = GetGridCapacity gradientGrid ->
  ix < numPoints0 scalarVals -> iy < numPoints1 scalarVals ->
  iz < numPoints2 scalarVals ->
  gridGet (ComputeGradient gradientGrid scalarVals)
          (OffsetFromIndices gradientGrid (ix, iy, iz))
  = gradientAtBoundary scalarVals (ix, iy, iz).
Proof.
  intros Hshape Hsize Hx Hy Hz.
  apply ShapeMatches_eq in Hshape as (E0 & E1 & E2).
  apply (stencil_sweep_value gradientGrid (numPoints0 scalarVals)
           (numPoints1 scalarVals) (numPoints2 scalarVals)
           (gradientInterior scalarVals) (gradientAtBoundary scalarVals));
    try assumption.
  intros jx jy jz Hjx Hjy Hjz. apply gradientAtBoundary_interior; assumption.
Qed.

Lemma jacobianAtBoundary_interior (vec : UniformGrid F (Vec3 F)) (ix iy iz : nat) :
  1 <= ix < numPoints0 vec - 1 -> 1 <= iy < numPoints1 vec - 1 ->
  1 <= iz < numPoints2 vec - 1 ->
  jacobianAtBoundary vec (ix, iy, iz) = jacobianInterior vec (ix, iy, iz).
Proof.
  intros Hx Hy Hz. unfold jacobianAtBoundary, jacobianInterior, jacobianRowAtBoundary.
  cbn [fst snd GetNumPoints].
  destruct (Nat.eqb_spec ix 0); [lia|].
  destruct (Nat.eqb_spec ix (numPoints0 vec - 1)); [lia|].
  destruct (Nat.eqb_spec iy 0); [lia|].
  destruct (Nat.eqb_spec iy (numPoints1 vec - 1)); [lia|].
  destruct (Nat.eqb_spec iz 0); [lia|].
  destruct (Nat.eqb_spec iz (numPoints2 vec - 1)); [lia|].
  reflexivity.
Qed.

Lemma ComputeJacobian_value (jacobian : UniformGrid F (Mat33 F))
    (vec : UniformGrid F (Vec3 F)) (ix iy iz : nat) :
  ShapeMatches jacobian vec = true ->
  Size jacobian = GetGridCapacity jacobian ->
  ix < numPoints0 vec -> iy < numPoints1 vec -> iz < numPoints2 vec ->
  gridGet (ComputeJacobian jacobian vec) (OffsetFromIndices jacobian (ix, iy, iz))
  = jacobianAtBoundary vec (ix, iy, iz).
Proof.
  intros Hshape Hsize Hx Hy Hz.
  apply ShapeMatches_eq in Hshape as (E0 & E1 & E2).
  apply (stencil_sweep_value jacobian (numPoints0 vec) (numPoints1 vec)
           (numPoints2 vec) (jacobianInterior vec) (jacobianAtBoundary vec));
    try assumption.
  intros jx jy jz Hjx Hjy Hjz. apply jacobianAtBoundary_interior; assumption.
Qed.

Lemma laplacianAtBoundary_interior (vec : UniformGrid F (Vec3 F)) (ix iy iz : nat) :
  1 <= ix < numPoints0 vec - 1 -> 1 <= iy < numPoints1 vec - 1 ->
  1 <= iz < numPoints2 vec - 1 ->
  laplacianAtBoundary vec (ix, iy, iz) = laplacianInterior vec (ix, iy, iz).
Proof.
  intros Hx Hy Hz.
  unfold laplacianAtBoundary, laplacianInterior, laplacianTermAtBoundary.
  cbn [fst snd GetNumPoints].
  destruct (Nat.eqb_spec ix 0); [lia|].
  destruct (Nat.eqb_spec ix (numPoints0 vec - 1)); [lia|].
  destruct (Nat.eqb_spec iy 0); [lia|].
  destruct (Nat.eqb_spec iy (numPoints1 vec - 1)); [lia|].
  destruct (Nat.eqb_spec iz 0); [lia|].
  destruct (Nat.eqb_spec iz (numPoints2 vec - 1)); [lia|].
  reflexivity.
Qed.

Lemma ComputeLaplacian_value (laplacian vec : UniformGrid F (Vec3 F))
    (ix iy iz : nat) :
  ShapeMatches laplacian vec = true ->
  Size laplacian = GetGridCapacity laplacian ->
  ix < numPoints0 vec -> iy < numPoints1 vec -> iz < numPoints2 vec ->
  gridGet (ComputeLaplacian laplacian vec) (OffsetFromIndices laplacian (ix, iy, iz))
  = laplacianAtBoundary vec (ix, iy, iz).
Proof.
  intros Hshape Hsize Hx Hy Hz.
  apply ShapeMatches_eq in Hshape as (E0 & E1 & E2).
  apply (stencil_sweep_value laplacian (numPoints0 vec) (numPoints1 vec)
           (numPoints2 vec) (laplacianInterior vec) (laplacianAtBoundary vec));
    try assumption.
  intros jx jy jz Hjx Hjy Hjz. apply laplacianAtBoundary_interior; assumption.
Qed.

End GradientProps.

Section GradientOfLinearField.
#[local] Open Scope R_scope.

Lemma reciprocalSpacing_guarded (spacing : Vec3 R) :
  reciprocalSpacing spacing = guardedReciprocal spacing.
Proof.
  unfold reciprocalSpacing, guardedReciprocal; simpl. unfold Q2R; simpl.
  destruct (Rlt_dec (/ 8388608) (Vec3.z spacing)); f_equal;
    unfold Rdiv; rewrite ?Rinv_1; ring.
Qed.

(** The macro of the source, with its offsets, is the stencil of the
    specification, with its indices. *)
Lemma gradientAtBoundary_spec (scalarVals : UniformGrid R R) (ix iy iz : nat) :
  gradientAtBoundary scalarVals (ix, iy, iz) = specGradient scalarVals (ix, iy, iz).
Proof.
  unfold gradientAtBoundary, specGradient, halfReciprocalSpacing, GetCellSpacing.
  rewrite reciprocalSpacing_guarded.
  generalize (guardedReciprocal (cellSpacing scalarVals)). intros r.
  unfold partialAtBoundary, stencilDifference, ASSIGN_XYZ_OFFSETS, OffsetFromIndices,
    GetNumPoints, svmul.
  cbn [offsetX0Y0Z0 offsetXMY0Z0 offsetXPY0Z0 offsetX0YMZ0 offsetX0YPZ0
       offsetX0Y0ZM offsetX0Y0ZP fst snd Vec3.x Vec3.y Vec3.z].
  set (d0 := numPoints0 scalarVals). set (d1 := numPoints1 scalarVals).
  replace (ix + (d0 * iy + d0 * d1 * iz))%nat
    with (ix + d0 * iy + d0 * d1 * iz)%nat by lia.
  replace (ix + 1 + (d0 * iy + d0 * d1 * iz))%nat
    with (ix + 1 + d0 * iy + d0 * d1 * iz)%nat by lia.
  replace (ix - 1 + (d0 * iy + d0 * d1 * iz))%nat
    with (ix - 1 + d0 * iy + d0 * d1 * iz)%nat by lia.
  replace (ix + (d0 * (iy + 1) + d0 * d1 * iz))%nat
    with (ix + d0 * (iy + 1) + d0 * d1 * iz)%nat by lia.
  replace (ix + (d0 * (iy - 1) + d0 * d1 * iz))%nat
    with (ix + d0 * (iy - 1) + d0 * d1 * iz)%nat by lia.
  replace (ix + (d0 * iy + d0 * d1 * (iz + 1)))%nat
    with (ix + d0 * iy + d0 * d1 * (iz + 1))%nat by lia.
  replace (ix + (d0 * iy + d0 * d1 * (iz - 1)))%nat
    with (ix + d0 * iy + d0 * d1 * (iz - 1))%nat by lia.
  simpl fmul. simpl fsub. simpl fconst.
  replace (Q2R (1 # 2)) with 0.5 by (unfold Q2R; simpl; lra).
  reflexivity.
Qed.

(** Along a line of samples that grow by [step] per index, the three
    branches of the stencil give [step * recip]. *)
Lemma stencilDifference_linear (f : nat -> R) (a step recip : R) (idx dims : nat) :
  (2 <= dims)%nat -> (idx < dims)%nat ->
  (forall i, (i < dims)%nat -> f i = a + INR i * step) ->
  stencilDifference f idx dims recip = step * recip.
Proof.
  intros Hd Hi Hf. unfold stencilDifference.
  destruct (Nat.eqb_spec idx 0) as [->|Hn0].
  - rewrite !Hf by lia. simpl. ring.
  - destruct (Nat.eqb_spec idx (dims - 1)) as [He|Hne].
    + rewrite !Hf by lia. rewrite minus_INR by lia. simpl. ring.
    + rewrite !Hf by lia. rewrite plus_INR, minus_INR by lia. simpl.
      replace 0.5 with (/ 2) by lra. field.
Qed.








End GradientOfLinearField.

(** ** Degenerate spacing *)

(** Whatever the scalars are, a z spacing that does not exceed
    [FLT_EPSILON] makes the z reciprocal the literal 0. *)
Lemma reciprocalSpacing_z_degenerate {F : Type} `{Scalar F} (spacing : Vec3 F) :
  fltb FLT_EPSILON (Vec3.z spacing) = false ->
  Vec3.z (reciprocalSpacing spacing) = fconst 0.
Proof. intros Hle. unfold reciprocalSpacing; simpl. rewrite Hle. reflexivity. Qed.

Section DegenerateSpacing.
#[local] Open Scope R_scope.





End DegenerateSpacing.


(** ** Standard deviations *)

Section StandardDeviation.
Context {F : Type} `{Scalar F} `{Inhabited F}.

(** [FindValueStats] floors the variance at 0 before the square root. *)
Lemma FindValueStats_stddev_floored (scalarGrid : UniformGrid F F) :
  let tallies :=
    fold_left (tallyValue scalarGrid)
      (allPoints (GetNumPoints scalarGrid 0) (GetNumPoints scalarGrid 1)
                 (GetNumPoints scalarGrid 2))
      (FLT_MAX, fopp FLT_MAX, fconst 0, fconst 0) in
  let sum := snd (fst tallies) in
  let sum2 := snd tallies in
  let count := fofnat (Size scalarGrid) in
  let mean := fdiv sum count in
  let variance := fsub (fdiv sum2 count) (fmul mean mean) in
  snd (FindValueStats scalarGrid) = fsqrt (Max2 variance (fconst 0)).
Proof.
  unfold FindValueStats.
  destruct (fold_left (tallyValue scalarGrid) _ _) as [[[valMin valMax] sum] sum2].
  reflexivity.
Qed.

(** The final block of a pass takes the square root of the variance as it
    is: when residuals were tallied, the standard deviation it leaves is
    [fsqrtf( variance )]. *)
Lemma cookResidualStats_stddev (stats : Stats_Float F) (residualsCount : nat) :
  residualsCount <> 0 ->
  let count := fofnat residualsCount in
  let mean := fdiv (mMean stats) count in
  let variance := fsub (fdiv (mStdDev stats) count) (Pow2 mean) in
  mStdDev (cookResidualStats stats residualsCount) = fsqrtf variance.
Proof.
  intros Hn. unfold cookResidualStats.
  destruct (Nat.eqb_spec residualsCount 0); [contradiction | reflexivity].
Qed.

End StandardDeviation.

(** C10 fails on the code for the residual statistics.  On the 3x3x8 box
    with unit spacing, a zero solution and the source (183,0,0) at the three
    black interior points, [SolveVectorPoisson] with one step under the
    Dirichlet mode ends with the black pass, whose three residuals are all
    52.459999...; in binary32 the variance (sum of squares / count - mean^2)
    comes out as -2^-11, and the standard deviation the pass leaves is the
    square root of that negative number, not a number, where
    sqrt(max(variance, 0)) is 0.  ([fsqrtf] is taken to be the IEEE square
    root here.) *)
Theorem residual_stddev_not_floored :
  let stats := snd (SolveVectorPoisson ResidualExamples.soln ResidualExamples.lap 1
                      BC_DIRICHLET FloatExamples.stats0) in
  let variance := ResidualExamples.blackVariance in
  rsCount ResidualExamples.blackTallies = 3 /\
  variance = S754_finite true 8388608 (-34) /\
  fltb variance (fconst 0) = true /\
  mStdDev stats = fsqrtf variance /\
  mStdDev stats = S754_nan /\
  fsqrtf (Max2 variance (fconst 0)) = S754_zero false.
Proof.
  repeat split; vm_compute; reflexivity.
Qed.
(* ================================================================== *)
(** * Further properties of the operators, the solver and the statistics *)

(** ** Loops, offsets and grid contents *)

Lemma forLoopFuel1_seq : forall fuel start stop, stop <= fuel + start ->
  forLoopFuel fuel start stop 1 = seq start (stop - start).
Proof.
  induction fuel as [|fuel IH]; intros start stop Hle; simpl.
  - replace (stop - start) with 0 by lia. reflexivity.
  - destruct (Nat.ltb_spec start stop) as [Hlt|Hge].
    + replace (stop - start) with (S (stop - (start + 1))) by lia.
      simpl. f_equal. rewrite IH by lia. f_equal. lia.
    + replace (stop - start) with 0 by lia. reflexivity.
Qed.

Lemma forLoop1_seq (start stop : nat) :
  forLoop start stop 1 = seq start (stop - start).
Proof. unfold forLoop. apply forLoopFuel1_seq. lia. Qed.

Lemma forLoop1_app (a b c : nat) : a <= b -> b <= c ->
  forLoop a c 1 = forLoop a b 1 ++ forLoop b c 1.
Proof.
  intros Hab Hbc. rewrite !forLoop1_seq.
  replace (c - a) with ((b - a) + (c - b)) by lia.
  rewrite seq_app. do 2 f_equal. lia.
Qed.

Lemma forLoop1_nil (a b : nat) : b <= a -> forLoop a b 1 = [].
Proof. intros Hle. rewrite forLoop1_seq. replace (b - a) with 0 by lia. reflexivity. Qed.

Lemma allPoints_In (end0 end1 end2 ix iy iz : nat) :
  In (ix, iy, iz) (allPoints end0 end1 end2) <-> ix < end0 /\ iy < end1 /\ iz < end2.
Proof.
  unfold allPoints. rewrite in_flat_map. split.
  - intros (z & Hz & Hin). apply in_flat_map in Hin as (y & Hy & Hin).
    apply in_map_iff in Hin as (x & Heq & Hx). inversion Heq; subst.
    apply forLoop1_In in Hx, Hy, Hz. lia.
  - intros (Hx & Hy & Hz). exists iz. split; [apply forLoop1_In; lia|].
    apply in_flat_map. exists iy. split; [apply forLoop1_In; lia|].
    apply in_map_iff. exists ix. split; [reflexivity|apply forLoop1_In; lia].
Qed.

Lemma allPoints_nil (end0 end1 end2 : nat) :
  end0 = 0 \/ end1 = 0 \/ end2 = 0 -> allPoints end0 end1 end2 = [].
Proof.
  intros Hz. destruct (allPoints end0 end1 end2) as [|[[x y] z] l] eqn:E; [reflexivity|].
  assert (Hin : In (x, y, z) (allPoints end0 end1 end2)) by (rewrite E; left; reflexivity).
  apply allPoints_In in Hin. lia.
Qed.

Lemma offsetXYZ_eq (dims0 dims1 ix iy iz : nat) :
  offsetXYZ dims0 dims1 (ix, iy, iz) = ix + dims0 * iy + dims0 * dims1 * iz.
Proof. unfold offsetXYZ. simpl. lia. Qed.

Lemma offsetXYZ_stencil (dims0 dims1 : nat) (index : Index) :
  offsetXYZ dims0 dims1 index = offsetX0Y0Z0 (ASSIGN_XYZ_OFFSETS dims0 dims1 index).
Proof. reflexivity. Qed.

Lemma offset_decompose (dims0 dims1 dims2 o : nat) :
  o < dims0 * dims1 * dims2 ->
  exists ix iy iz, ix < dims0 /\ iy < dims1 /\ iz < dims2 /\
    o = ix + dims0 * iy + dims0 * dims1 * iz.
Proof.
  intros Ho.
  assert (H0 : dims0 <> 0) by (intros ->; simpl in Ho; lia).
  assert (H1 : dims1 <> 0) by (intros ->; rewrite Nat.mul_0_r in Ho; simpl in Ho; lia).
  exists (o mod dims0), ((o / dims0) mod dims1), (o / dims0 / dims1).
  pose proof (Nat.mod_upper_bound o dims0 H0) as Hx.
  pose proof (Nat.mod_upper_bound (o / dims0) dims1 H1) as Hy.
  pose proof (Nat.div_mod_eq o dims0) as E0.
  pose proof (Nat.div_mod_eq (o / dims0) dims1) as E1.
  repeat split; try assumption.
  - apply Nat.Div0.div_lt_upper_bound. apply Nat.Div0.div_lt_upper_bound.
    rewrite Nat.mul_assoc. exact Ho.
  - rewrite <- Nat.mul_assoc.
    rewrite <- Nat.add_assoc, <- Nat.mul_add_distr_l.
    rewrite (Nat.add_comm _ (dims1 * _)). rewrite <- E1. lia.
Qed.

Lemma contents_ext {T : Type} `{Inhabited T} (l1 l2 : list T) :
  length l1 = length l2 ->
  (forall i, i < length l1 -> l1 !!! i = l2 !!! i) -> l1 = l2.
Proof.
  intros Hlen Hpt. apply list_eq. intros i.
  destruct (Nat.lt_ge_cases i (length l1)) as [Hlt|Hge].
  - specialize (Hpt i Hlt).
    destruct (lookup_lt_is_Some_2 l1 i Hlt) as [a Ha].
    destruct (lookup_lt_is_Some_2 l2 i ltac:(lia)) as [b Hb].
    rewrite (list_lookup_total_correct _ _ _ Ha) in Hpt.
    rewrite (list_lookup_total_correct _ _ _ Hb) in Hpt.
    rewrite Ha, Hb. f_equal. exact Hpt.
  - rewrite !lookup_ge_None_2 by lia. reflexivity.
Qed.
(** ** The operators store to every sample *)

Lemma stencil_sweep_contents {F T : Type} `{Inhabited T} (output1 output2 : UniformGrid F T)
    (dims0 dims1 dims2 : nat) (interiorBody boundaryBody : Index -> T) :
  numPoints0 output1 = dims0 -> numPoints1 output1 = dims1 ->
  numPoints2 output1 = dims2 -> Size output1 = GetGridCapacity output1 ->
  numPoints0 output2 = dims0 -> numPoints1 output2 = dims1 ->
  numPoints2 output2 = dims2 -> Size output2 = GetGridCapacity output2 ->
  (forall jx jy jz, 1 <= jx < dims0 - 1 -> 1 <= jy < dims1 - 1 ->
     1 <= jz < dims2 - 1 -> boundaryBody (jx, jy, jz) = interiorBody (jx, jy, jz)) ->
  let sweep output :=
    fold_left (writeAt dims0 dims1 boundaryBody) (facePoints dims0 dims1 dims2)
      (fold_left (writeAt dims0 dims1 interiorBody)
         (interiorSlicePoints dims0 dims1 1 (dims2 - 1)) output) in
  contents (sweep output1) = contents (sweep output2).
Proof.
  intros A0 A1 A2 As B0 B1 B2 Bs Hagree sweep.
  set (off := fun p : Index => offsetX0Y0Z0 (ASSIGN_XYZ_OFFSETS dims0 dims1 p)).
  assert (Hlen : forall output, Size (sweep output) = Size output).
  { intros output. unfold sweep.
    change (writeAt dims0 dims1 boundaryBody)
      with (writeStep (F := F) off (fun _ p => boundaryBody p)).
    change (writeAt dims0 dims1 interiorBody)
      with (writeStep (F := F) off (fun _ p => interiorBody p)).
    destruct (fold_write_shape off (fun _ p => boundaryBody p)
                (facePoints dims0 dims1 dims2)
                (fold_left (writeStep off (fun _ p => interiorBody p))
                   (interiorSlicePoints dims0 dims1 1 (dims2 - 1)) output))
      as (_ & _ & _ & _ & ->).
    apply (fold_write_shape off (fun _ p => interiorBody p)). }
  assert (Hcap : Size output1 = dims0 * dims1 * dims2)
    by (rewrite As; unfold GetGridCapacity; rewrite A0, A1, A2; reflexivity).
  assert (Hcap2 : Size output2 = dims0 * dims1 * dims2)
    by (rewrite Bs; unfold GetGridCapacity; rewrite B0, B1, B2; reflexivity).
  apply contents_ext.
  - pose proof (Hlen output1) as L1. pose proof (Hlen output2) as L2.
    unfold Size in *. lia.
  - intros i Hi. pose proof (Hlen output1) as L1. unfold Size in L1, Hcap.
    rewrite L1, Hcap in Hi.
    apply offset_decompose in Hi as (ix & iy & iz & Hx & Hy & Hz & ->).
    pose proof (stencil_sweep_value output1 dims0 dims1 dims2 interiorBody
                  boundaryBody ix iy iz A0 A1 A2 As Hagree Hx Hy Hz) as V1.
    pose proof (stencil_sweep_value output2 dims0 dims1 dims2 interiorBody
                  boundaryBody ix iy iz B0 B1 B2 Bs Hagree Hx Hy Hz) as V2.
    unfold gridGet, OffsetFromIndices in V1, V2.
    rewrite A0, A1 in V1. rewrite B0, B1 in V2.
    unfold sweep. rewrite V1, V2. reflexivity.
Qed.

Section OperatorsOverwrite.
Context {F : Type} `{Scalar F} `{Inhabited F}.

(** X1.  [ComputeGradient], [ComputeJacobian] and [ComputeLaplacian] store
    to every sample of their output grid: what they leave in the output
    does not depend on what the output grid held before the call.  The
    scalar field has at least two points per axis (so that the one-sided
    differences on the faces read inside the grid), the vector field at
    least three, as [ComputeLaplacian] asserts. *)
Theorem operators_overwrite_every_sample
    (scalarVals : UniformGrid F F) (vec : UniformGrid F (Vec3 F)) :
  2 <= numPoints0 scalarVals -> 2 <= numPoints1 scalarVals ->
  2 <= numPoints2 scalarVals ->
  3 <= numPoints0 vec -> 3 <= numPoints1 vec -> 3 <= numPoints2 vec ->
  (forall gradient1 gradient2 : UniformGrid F (Vec3 F),
     ShapeMatches gradient1 scalarVals = true ->
     Size gradient1 = GetGridCapacity gradient1 ->
     ShapeMatches gradient2 scalarVals = true ->
     Size gradient2 = GetGridCapacity gradient2 ->
     contents (ComputeGradient gradient1 scalarVals)
     = contents (ComputeGradient gradient2 scalarVals)) /\
  (forall jacobian1 jacobian2 : UniformGrid F (Mat33 F),
     ShapeMatches jacobian1 vec = true ->
     Size jacobian1 = GetGridCapacity jacobian1 ->
     ShapeMatches jacobian2 vec = true ->
     Size jacobian2 = GetGridCapacity jacobian2 ->
     contents (ComputeJacobian jacobian1 vec)
     = contents (ComputeJacobian jacobian2 vec)) /\
  (forall laplacian1 laplacian2 : UniformGrid F (Vec3 F),
     ShapeMatches laplacian1 vec = true ->
     Size laplacian1 = GetGridCapacity laplacian1 ->
     ShapeMatches laplacian2 vec = true ->
     Size laplacian2 = GetGridCapacity laplacian2 ->
     contents (ComputeLaplacian laplacian1 vec)
     = contents (ComputeLaplacian laplacian2 vec)).
Proof.
  intros _ _ _ _ _ _. repeat split.
  - intros g1 g2 S1 Z1 S2 Z2.
    apply ShapeMatches_eq in S1 as (A0 & A1 & A2).
    apply ShapeMatches_eq in S2 as (B0 & B1 & B2).
    apply (stencil_sweep_contents g1 g2 (numPoints0 scalarVals)
             (numPoints1 scalarVals) (numPoints2 scalarVals)
             (gradientInterior scalarVals) (gradientAtBoundary scalarVals));
      try assumption.
    intros; apply gradientAtBoundary_interior; assumption.
  - intros g1 g2 S1 Z1 S2 Z2.
    apply ShapeMatches_eq in S1 as (A0 & A1 & A2).
    apply ShapeMatches_eq in S2 as (B0 & B1 & B2).
    apply (stencil_sweep_contents g1 g2 (numPoints0 vec) (numPoints1 vec)
             (numPoints2 vec) (jacobianInterior vec) (jacobianAtBoundary vec));
      try assumption.
    intros; apply jacobianAtBoundary_interior; assumption.
  - intros g1 g2 S1 Z1 S2 Z2.
    apply ShapeMatches_eq in S1 as (A0 & A1 & A2).
    apply ShapeMatches_eq in S2 as (B0 & B1 & B2).
    apply (stencil_sweep_contents g1 g2 (numPoints0 vec) (numPoints1 vec)
             (numPoints2 vec) (laplacianInterior vec) (laplacianAtBoundary vec));
      try assumption.
    intros; apply laplacianAtBoundary_interior; assumption.
Qed.

End OperatorsOverwrite.
(** ** Curl from the Jacobian *)

Lemma lookup_total_map {A B : Type} `{Inhabited A} `{Inhabited B} (f : A -> B) :
  f inhabitant = inhabitant ->
  forall (l : list A) (i : nat), map f l !!! i = f (l !!! i).
Proof.
  intros Hf. induction l as [|a l IH]; intros [|i]; simpl; auto.
Qed.

Section CurlProps.
Context {F : Type} `{Scalar F} `{Inhabited F}.

Lemma curl_fold (curl : UniformGrid F (Vec3 F)) (jacobian : UniformGrid F (Mat33 F))
    (l : list Index) :
  fold_left (curlStep jacobian) l curl
  = fold_left (writeStep (offsetXYZ (numPoints0 jacobian) (numPoints1 jacobian))
                 (fun _ p => curlOfJacobian
                    (gridGet jacobian
                       (offsetXYZ (numPoints0 jacobian) (numPoints1 jacobian) p))))
      l curl.
Proof. reflexivity. Qed.

Lemma ComputeCurlFromJacobian_shape (curl : UniformGrid F (Vec3 F))
    (jacobian : UniformGrid F (Mat33 F)) :
  let g' := ComputeCurlFromJacobian curl jacobian in
  numPoints0 g' = numPoints0 curl /\ numPoints1 g' = numPoints1 curl /\
  numPoints2 g' = numPoints2 curl /\ cellSpacing g' = cellSpacing curl /\
  Size g' = Size curl.
Proof.
  unfold ComputeCurlFromJacobian. rewrite curl_fold. apply fold_write_shape.
Qed.

(** At every offset of the grid the curl is computed from the matrix at the
    same offset. *)
Lemma ComputeCurlFromJacobian_value (curl : UniformGrid F (Vec3 F))
    (jacobian : UniformGrid F (Mat33 F)) (o : nat) :
  Size curl = GetGridCapacity jacobian -> o < GetGridCapacity jacobian ->
  gridGet (ComputeCurlFromJacobian curl jacobian) o
  = curlOfJacobian (gridGet jacobian o).
Proof.
  intros Hsize Ho. unfold ComputeCurlFromJacobian. rewrite curl_fold.
  cbn [GetNumPoints].
  pose proof Ho as Hd. unfold GetGridCapacity in Hd.
  apply offset_decompose in Hd as (ix & iy & iz & Hx & Hy & Hz & Eo).
  apply fold_write_const.
  - intros q _ Hq. rewrite Hq. reflexivity.
  - apply in_map_iff. exists (ix, iy, iz). split.
    + rewrite offsetXYZ_eq. symmetry. exact Eo.
    + apply allPoints_In. auto.
  - rewrite Hsize. exact Ho.
Qed.

(** X2.  [ComputeCurlFromJacobian] is a pointwise map: when the curl grid
    and the Jacobian grid hold one sample per point, every sample of the
    result is (j.y.z - j.z.y, j.z.x - j.x.z, j.x.y - j.y.x) of the matrix j
    at the same offset, whatever the curl grid held before. *)
Theorem curl_is_pointwise_map (curl : UniformGrid F (Vec3 F))
    (jacobian : UniformGrid F (Mat33 F)) :
  Size curl = GetGridCapacity jacobian ->
  Size jacobian = GetGridCapacity jacobian ->
  contents (ComputeCurlFromJacobian curl jacobian)
  = map curlOfJacobian (contents jacobian).
Proof.
  intros Hc Hj.
  destruct (ComputeCurlFromJacobian_shape curl jacobian) as (_ & _ & _ & _ & Hlen).
  apply contents_ext.
  - rewrite length_map. unfold Size in *. lia.
  - intros i Hi. unfold Size in Hlen, Hc, Hj. rewrite Hlen, Hc in Hi.
    pose proof (ComputeCurlFromJacobian_value curl jacobian i Hc Hi) as V.
    unfold gridGet in V. rewrite V.
    destruct (lookup_lt_is_Some_2 (contents jacobian) i ltac:(lia)) as [m Hm].
    rewrite (list_lookup_total_correct _ _ _ Hm).
    symmetry. apply list_lookup_total_correct.
    change (map curlOfJacobian (contents jacobian))
      with (curlOfJacobian <$> contents jacobian).
    rewrite list_lookup_fmap, Hm. reflexivity.
Qed.

End CurlProps.
(** ** The Jacobian and the gradients of the components *)

Section JacobianComponents.
Context {F : Type} `{Scalar F} `{Inhabited F}.

Lemma gridGet_componentGrid (c : Vec3 F -> F) (vec : UniformGrid F (Vec3 F)) (o : nat) :
  c = Vec3.x \/ c = Vec3.y \/ c = Vec3.z ->
  gridGet (componentGrid c vec) o = c (gridGet vec o).
Proof.
  intros Hc. unfold gridGet, componentGrid; simpl.
  apply lookup_total_map. destruct Hc as [-> | [-> | ->]]; reflexivity.
Qed.

(** Component [c] of the rows of the boundary-aware Jacobian stencil is the
    boundary-aware gradient stencil of the scalar field of component [c]. *)
Lemma jacobianAtBoundary_component (c : Vec3 F -> F) (vec : UniformGrid F (Vec3 F))
    (index : Index) :
  c = Vec3.x \/ c = Vec3.y \/ c = Vec3.z ->
  gradientAtBoundary (componentGrid c vec) index
  = Vec3.mk (c (Mat33.x (jacobianAtBoundary vec index)))
            (c (Mat33.y (jacobianAtBoundary vec index)))
            (c (Mat33.z (jacobianAtBoundary vec index))).
Proof.
  intros Hc.
  unfold gradientAtBoundary, jacobianAtBoundary, partialAtBoundary,
    jacobianRowAtBoundary, vectorDifference.
  cbn [Mat33.x Mat33.y Mat33.z GetNumPoints GetCellSpacing componentGrid
       numPoints0 numPoints1 numPoints2 cellSpacing].
  rewrite !(gridGet_componentGrid c vec) by exact Hc.
  f_equal;
    repeat match goal with |- context [if ?b then _ else _] => destruct b end;
    destruct Hc as [-> | [-> | ->]]; reflexivity.
Qed.

(** X3.  The Jacobian is the matrix of the gradients of the components:
    for a component c (x, y or z) of a vector field, the gradient that
    [ComputeGradient] computes for the scalar field of that component is, at
    every point, the column c of the matrix that [ComputeJacobian] computes
    (row a of the matrix being the derivative along axis a); the two agree
    operation for operation, so also in floating point. *)
Theorem jacobian_columns_are_component_gradients (c : Vec3 F -> F)
    (jacobian : UniformGrid F (Mat33 F)) (gradient : UniformGrid F (Vec3 F))
    (vec : UniformGrid F (Vec3 F)) (ix iy iz : nat) :
  c = Vec3.x \/ c = Vec3.y \/ c = Vec3.z ->
  ShapeMatches jacobian vec = true -> Size jacobian = GetGridCapacity jacobian ->
  ShapeMatches gradient vec = true -> Size gradient = GetGridCapacity gradient ->
  ix < numPoints0 vec -> iy < numPoints1 vec -> iz < numPoints2 vec ->
  let j := gridGet (ComputeJacobian jacobian vec)
                   (OffsetFromIndices jacobian (ix, iy, iz)) in
  gridGet (ComputeGradient gradient (componentGrid c vec))
          (OffsetFromIndices gradient (ix, iy, iz))
  = Vec3.mk (c (Mat33.x j)) (c (Mat33.y j)) (c (Mat33.z j)).
Proof.
  intros Hc Sj Zj Sg Zg Hx Hy Hz j. unfold j.
  rewrite ComputeJacobian_value by assumption.
  rewrite ComputeGradient_value by assumption.
  apply jacobianAtBoundary_component. exact Hc.
Qed.

End JacobianComponents.
(** ** What the conditional gradient leaves alone *)

Section ConditionalUntouched.
Context {F : Type} `{NanScalar F} `{Inhabited F}.

(** X4.  The loops of [ComputeGradientConditionally] start at index 1 on
    every axis: a sample of the gradient grid whose point has index 0 on
    some axis is never stored to, and keeps the value it had before the
    call. *)
Theorem conditional_gradient_skips_index_zero (gradient : UniformGrid F (Vec3 F))
    (scalarVals : UniformGrid F F) (ix iy iz : nat) :
  ShapeMatches gradient scalarVals = true ->
  Size gradient = GetGridCapacity gradient ->
  ix < numPoints0 scalarVals -> iy < numPoints1 scalarVals ->
  iz < numPoints2 scalarVals ->
  ix = 0 \/ iy = 0 \/ iz = 0 ->
  ~ In (ix, iy, iz)
       (conditionalPoints (numPoints0 scalarVals) (numPoints1 scalarVals) 1
          (numPoints2 scalarVals)) /\
  gridGet (ComputeGradientConditionally gradient scalarVals)
          (OffsetFromIndices gradient (ix, iy, iz))
  = gridGet gradient (OffsetFromIndices gradient (ix, iy, iz)).
Proof.
  intros Hshape _ Hx Hy Hz Hzero.
  apply ShapeMatches_eq in Hshape as (E0 & E1 & E2).
  split; [rewrite conditionalPoints_In; lia|].
  set (pts := conditionalPoints (numPoints0 scalarVals) (numPoints1 scalarVals) 1
                (numPoints2 scalarVals)).
  assert (Ho : OffsetFromIndices gradient (ix, iy, iz)
               = pointOffset scalarVals (ix, iy, iz)).
  { rewrite pointOffset_eq. simpl. rewrite E0, E1. reflexivity. }
  set (val := fun (g : UniformGrid F (Vec3 F)) (p : Index) =>
                gradientConditionally scalarVals
                  (gridGet g (pointOffset scalarVals p)) p).
  assert (Hfold : ComputeGradientConditionally gradient scalarVals
                  = fold_left (writeStep (pointOffset scalarVals) val) pts gradient)
    by reflexivity.
  rewrite Hfold, Ho. apply fold_write_frame.
  intros Hin. apply in_map_iff in Hin as ([[qx qy] qz] & Heq & Hq).
  apply conditionalPoints_In in Hq.
  apply pointOffset_inj in Heq; simpl; try lia.
  inversion Heq; subst. lia.
Qed.

End ConditionalUntouched.

(** ** Slices of the interior loop nests *)

Lemma grid_eq {F T : Type} (g h : UniformGrid F T) :
  numPoints0 g = numPoints0 h -> numPoints1 g = numPoints1 h ->
  numPoints2 g = numPoints2 h -> cellSpacing g = cellSpacing h ->
  contents g = contents h -> g = h.
Proof. destruct g, h; simpl; intros; subst; reflexivity. Qed.

(** Stores whose values do not depend on the grid can be made in any order:
    two lists with the same points leave the same grid. *)
Lemma fold_write_const_order {F T : Type} `{Inhabited T} (off : Index -> nat)
    (f : Index -> T) (l l' : list Index) (g : UniformGrid F T) :
  (forall p q, In p l -> In q l -> off p = off q -> f p = f q) ->
  (forall p, In p l <-> In p l') ->
  fold_left (writeStep off (fun _ p => f p)) l g
  = fold_left (writeStep off (fun _ p => f p)) l' g.
Proof.
  intros Hf Hsame.
  destruct (fold_write_shape off (fun _ p => f p) l g) as (A0 & A1 & A2 & A3 & A4).
  destruct (fold_write_shape off (fun _ p => f p) l' g) as (B0 & B1 & B2 & B3 & B4).
  apply grid_eq; try congruence.
  apply contents_ext; [unfold Size in *; congruence|].
  intros i Hi. unfold Size in A4. rewrite A4 in Hi.
  change (gridGet (fold_left (writeStep off (fun _ p => f p)) l g) i
          = gridGet (fold_left (writeStep off (fun _ p => f p)) l' g) i).
  destruct (in_dec Nat.eq_dec i (map off l)) as [Hin|Hnin].
  - pose proof Hin as Hin'. apply in_map_iff in Hin' as (p & Hp & Hpl).
    rewrite (fold_write_const off f (f p) i l g); [| |exact Hin|exact Hi].
    + symmetry. apply fold_write_const; [| |exact Hi].
      * intros q Hq Hoq. apply Hf; [apply Hsame, Hq|exact Hpl|congruence].
      * apply in_map_iff. exists p. split; [exact Hp|apply Hsame, Hpl].
    + intros q Hq Hoq. apply Hf; [exact Hq|exact Hpl|congruence].
  - rewrite !fold_write_frame; [reflexivity| |exact Hnin].
    intros Hin. apply Hnin. apply in_map_iff in Hin as (p & Hp & Hpl).
    apply in_map_iff. exists p. split; [exact Hp|apply Hsame, Hpl].
Qed.

Lemma interiorSlicePoints_app (dims0 dims1 a b c : nat) : a <= b -> b <= c ->
  interiorSlicePoints dims0 dims1 a c
  = interiorSlicePoints dims0 dims1 a b ++ interiorSlicePoints dims0 dims1 b c.
Proof.
  intros Hab Hbc. unfold interiorSlicePoints.
  rewrite (forLoop1_app a b c Hab Hbc), flat_map_app. reflexivity.
Qed.

Section GradientSlices.
Context {F : Type} `{Scalar F} `{Inhabited F}.

(** X5.  [ComputeGradientInteriorSlice] can be run slice by slice: for
    1 <= a <= b <= c <= dims.z - 1 (slices of interior layers, as its
    callers pass them), the slices [a, b) and [b, c) of z, run one after the
    other in either order, leave the gradient grid that one call on [a, c)
    leaves. *)
Theorem gradient_interior_slices_compose (gradientGrid : UniformGrid F (Vec3 F))
    (val : UniformGrid F F) (a b c : nat) :
  ShapeMatches gradientGrid val = true ->
  Size gradientGrid = GetGridCapacity gradientGrid ->
  1 <= numPoints0 val -> 1 <= numPoints1 val -> 1 <= numPoints2 val ->
  1 <= a -> a <= b -> b <= c -> c <= numPoints2 val - 1 ->
  ComputeGradientInteriorSlice (ComputeGradientInteriorSlice gradientGrid val a b)
    val b c
  = ComputeGradientInteriorSlice gradientGrid val a c /\
  ComputeGradientInteriorSlice (ComputeGradientInteriorSlice gradientGrid val b c)
    val a b
  = ComputeGradientInteriorSlice gradientGrid val a c.
Proof.
  intros _ _ _ _ _ _ Hab Hbc _. unfold ComputeGradientInteriorSlice.
  set (d0 := GetNumPoints val 0). set (d1 := GetNumPoints val 1).
  rewrite (interiorSlicePoints_app d0 d1 a b c Hab Hbc).
  rewrite <- !fold_left_app. split; [reflexivity|].
  set (off := fun p : Index => offsetX0Y0Z0 (ASSIGN_XYZ_OFFSETS d0 d1 p)).
  change (writeAt d0 d1 (gradientInterior val))
    with (writeStep (F := F) off (fun _ p => gradientInterior val p)).
  apply fold_write_const_order.
  - intros [[px py] pz] [[qx qy] qz] Hp Hq Heq.
    apply in_app_iff in Hp, Hq. rewrite !interiorSlicePoints_In in Hp, Hq.
    unfold off in Heq. rewrite !offsetX0Y0Z0_eq in Heq.
    apply offset_inj in Heq; [|lia..]. rewrite Heq. reflexivity.
  - intros p. rewrite !in_app_iff. tauto.
Qed.

End GradientSlices.
(** ** Slices of the relaxation pass *)

Lemma interiorPoints_app (dims0 dims1 dims2 a b c : nat)
    (redOrBlack : GaussSeidelPortionE) : a <= b -> b <= c ->
  interiorPoints dims0 dims1 dims2 a c redOrBlack
  = interiorPoints dims0 dims1 dims2 a b redOrBlack
    ++ interiorPoints dims0 dims1 dims2 b c redOrBlack.
Proof.
  intros Hab Hbc. unfold interiorPoints. rewrite <- flat_map_app. f_equal.
  destruct (Nat.le_gt_cases b 1) as [Hb1|Hb1].
  - rewrite (forLoop1_nil (Nat.max 1 a) (Nat.min (dims2 - 1) b)) by lia.
    simpl. f_equal. lia.
  - destruct (Nat.le_gt_cases (dims2 - 1) b) as [Hbm|Hbm].
    + rewrite (forLoop1_nil (Nat.max 1 b) (Nat.min (dims2 - 1) c)) by lia.
      rewrite app_nil_r. f_equal. lia.
    + replace (Nat.min (dims2 - 1) b) with b by lia.
      replace (Nat.max 1 b) with b by lia.
      apply forLoop1_app; lia.
Qed.

Section PassSlices.
Context {F : Type} `{Scalar F} `{Inhabited F}.

(** The interior loop body reads the solution grid at the seven offsets of
    its stencil only. *)
Lemma updatedVal_ext (g g' lap : UniformGrid F (Vec3 F)) (p : Index) :
  (forall o, In o (stencilReads (numPoints0 lap) (numPoints1 lap) p) ->
     gridGet g o = gridGet g' o) ->
  updatedVal g lap p = updatedVal g' lap p.
Proof.
  intros Hr. unfold updatedVal, vSolution. cbn [GetNumPoints].
  unfold stencilReads in Hr.
  set (o := ASSIGN_XYZ_OFFSETS (numPoints0 lap) (numPoints1 lap) p) in *.
  rewrite (Hr (offsetXPY0Z0 o)) by (simpl; tauto).
  rewrite (Hr (offsetXMY0Z0 o)) by (simpl; tauto).
  rewrite (Hr (offsetX0YPZ0 o)) by (simpl; tauto).
  rewrite (Hr (offsetX0YMZ0 o)) by (simpl; tauto).
  rewrite (Hr (offsetX0Y0ZP o)) by (simpl; tauto).
  rewrite (Hr (offsetX0Y0ZM o)) by (simpl; tauto).
  rewrite (Hr (offsetX0Y0Z0 o)) by (simpl; tauto).
  reflexivity.
Qed.

Lemma gridGet_gridSet_ne {T : Type} `{Inhabited T} (g : UniformGrid F T)
    (o o' : nat) (v : T) :
  o <> o' -> gridGet (gridSet g o v) o' = gridGet g o'.
Proof.
  intros Hne. unfold gridGet, gridSet; simpl.
  apply list_lookup_total_insert_ne. exact Hne.
Qed.

Lemma relax_steps_commute (lap g : UniformGrid F (Vec3 F)) (p q : Index) :
  independentPoints lap p q ->
  let step := writeStep (pointOffset lap) (fun g p => updatedVal g lap p) in
  step (step g p) q = step (step g q) p.
Proof.
  intros [Hq Hp] step. unfold step, writeStep.
  assert (Hne : pointOffset lap p <> pointOffset lap q).
  { intros E. apply Hp. rewrite E. unfold stencilReads, pointOffset. simpl. tauto. }
  rewrite (updatedVal_ext (gridSet g (pointOffset lap p) (updatedVal g lap p)) g lap q).
  2:{ intros o Ho. apply gridGet_gridSet_ne. intros E. apply Hp. rewrite E. exact Ho. }
  rewrite (updatedVal_ext (gridSet g (pointOffset lap q) (updatedVal g lap q)) g lap p).
  2:{ intros o Ho. apply gridGet_gridSet_ne. intros E. apply Hq. rewrite E. exact Ho. }
  unfold gridSet; simpl. f_equal.
  apply list_insert_insert_ne. congruence.
Qed.

Lemma relaxPoints_commute_one (lap : UniformGrid F (Vec3 F)) (q : Index) :
  forall (l : list Index) (g : UniformGrid F (Vec3 F)),
    (forall p, In p l -> independentPoints lap p q) ->
    relaxPoints lap l (relaxPoints lap [q] g)
    = relaxPoints lap [q] (relaxPoints lap l g).
Proof.
  induction l as [|p l IH]; intros g Hind; [reflexivity|].
  unfold relaxPoints in *. simpl in *.
  rewrite <- (relax_steps_commute lap g p q) by (apply Hind; auto).
  apply IH. intros p' Hp'. apply Hind. auto.
Qed.

Lemma relaxPoints_commute (lap : UniformGrid F (Vec3 F)) :
  forall (l2 l1 : list Index) (g : UniformGrid F (Vec3 F)),
    (forall p q, In p l1 -> In q l2 -> independentPoints lap p q) ->
    relaxPoints lap l1 (relaxPoints lap l2 g)
    = relaxPoints lap l2 (relaxPoints lap l1 g).
Proof.
  induction l2 as [|q l2 IH]; intros l1 g Hind; [reflexivity|].
  change (relaxPoints lap (q :: l2) g)
    with (relaxPoints lap l2 (relaxPoints lap [q] g)).
  change (relaxPoints lap (q :: l2) (relaxPoints lap l1 g))
    with (relaxPoints lap l2 (relaxPoints lap [q] (relaxPoints lap l1 g))).
  rewrite IH by (intros; apply Hind; simpl; auto).
  f_equal. apply relaxPoints_commute_one.
  intros p Hp. apply Hind; simpl; auto.
Qed.

(** Two interior points of the same colour on different z layers are
    independent: the neighbours of a point on the adjacent layers have the
    other colour. *)
Lemma same_colour_independent (lap : UniformGrid F (Vec3 F))
    (px py pz qx qy qz : nat) :
  1 <= px < numPoints0 lap - 1 -> 1 <= py < numPoints1 lap - 1 -> 1 <= pz ->
  1 <= qx < numPoints0 lap - 1 -> 1 <= qy < numPoints1 lap - 1 -> 1 <= qz ->
  colorParity py pz = colorParity qy qz -> pz <> qz ->
  independentPoints lap (px, py, pz) (qx, qy, qz).
Proof.
  intros Hpx Hpy Hpz Hqx Hqy Hqz Hcol Hz.
  unfold colorParity in Hcol.
  assert (Hgen : forall ax ay az bx by' bz,
            1 <= ax < numPoints0 lap - 1 -> 1 <= ay < numPoints1 lap - 1 -> 1 <= az ->
            1 <= bx < numPoints0 lap - 1 -> 1 <= by' < numPoints1 lap - 1 -> 1 <= bz ->
            (ay + az) mod 2 = (by' + bz) mod 2 -> az <> bz ->
            ~ In (pointOffset lap (bx, by', bz))
                 (stencilReads (numPoints0 lap) (numPoints1 lap) (ax, ay, az))).
  { clear. intros ax ay az bx by' bz Hax Hay Haz Hbx Hby Hbz Hcol Hz Hin.
    rewrite pointOffset_eq in Hin.
    unfold stencilReads, ASSIGN_XYZ_OFFSETS in Hin.
    cbn [offsetX0Y0Z0 offsetXMY0Z0 offsetXPY0Z0 offsetX0YMZ0 offsetX0YPZ0
         offsetX0Y0ZM offsetX0Y0ZP fst snd In] in Hin.
    set (d0 := numPoints0 lap) in *. set (d1 := numPoints1 lap) in *.
    destruct Hin as [E|[E|[E|[E|[E|[E|[E|[]]]]]]]].
    - assert (E' : (ax + 1) + d0 * ay + d0 * d1 * az = bx + d0 * by' + d0 * d1 * bz)
        by lia.
      apply offset_inj in E'; [|lia..]. inversion E'; lia.
    - assert (E' : (ax - 1) + d0 * ay + d0 * d1 * az = bx + d0 * by' + d0 * d1 * bz)
        by lia.
      apply offset_inj in E'; [|lia..]. inversion E'; lia.
    - assert (E' : ax + d0 * (ay + 1) + d0 * d1 * az = bx + d0 * by' + d0 * d1 * bz)
        by lia.
      apply offset_inj in E'; [|lia..]. inversion E'; lia.
    - assert (E' : ax + d0 * (ay - 1) + d0 * d1 * az = bx + d0 * by' + d0 * d1 * bz)
        by lia.
      apply offset_inj in E'; [|lia..]. inversion E'; lia.
    - assert (E' : ax + d0 * ay + d0 * d1 * (az + 1) = bx + d0 * by' + d0 * d1 * bz)
        by lia.
      apply offset_inj in E'; [|lia..]. inversion E'; subst.
      replace (by' + (az + 1)) with (S (by' + az)) in Hcol by lia.
      pose proof (Nat.mod_upper_bound (by' + az) 2 ltac:(lia)).
      pose proof (Nat.div_mod_eq (by' + az) 2).
      pose proof (Nat.mod_upper_bound (S (by' + az)) 2 ltac:(lia)).
      pose proof (Nat.div_mod_eq (S (by' + az)) 2). lia.
    - assert (E' : ax + d0 * ay + d0 * d1 * (az - 1) = bx + d0 * by' + d0 * d1 * bz)
        by lia.
      apply offset_inj in E'; [|lia..]. inversion E'; subst.
      replace (by' + az) with (S (by' + (az - 1))) in Hcol by lia.
      pose proof (Nat.mod_upper_bound (by' + (az - 1)) 2 ltac:(lia)).
      pose proof (Nat.div_mod_eq (by' + (az - 1)) 2).
      pose proof (Nat.mod_upper_bound (S (by' + (az - 1))) 2 ltac:(lia)).
      pose proof (Nat.div_mod_eq (S (by' + (az - 1))) 2). lia.
    - assert (E' : ax + d0 * ay + d0 * d1 * az = bx + d0 * by' + d0 * d1 * bz)
        by lia.
      apply offset_inj in E'; [|lia..]. inversion E'; lia. }
  split; apply Hgen; auto.
Qed.

Lemma relaxInterior_dirichlet (soln lap : UniformGrid F (Vec3 F)) (izStart izEnd : nat)
    (redOrBlack : GaussSeidelPortionE) (residualStats : Stats_Float F) :
  fst (StepTowardVectorPoissonSolution soln lap izStart izEnd redOrBlack
         BC_DIRICHLET residualStats)
  = relaxPoints lap
      (interiorPoints (numPoints0 lap) (numPoints1 lap) (numPoints2 lap)
         izStart izEnd redOrBlack) soln.
Proof. rewrite Step_soln. reflexivity. Qed.

Lemma relaxPoints_app (lap : UniformGrid F (Vec3 F)) (l1 l2 : list Index)
    (g : UniformGrid F (Vec3 F)) :
  relaxPoints lap (l1 ++ l2) g = relaxPoints lap l2 (relaxPoints lap l1 g).
Proof. unfold relaxPoints. apply fold_left_app. Qed.

(** X6.  A red or a black pass with fixed boundary values can be run slice
    by slice: for a < b < c <= dims.z, the slices [a, b) and [b, c) of z, run
    one after the other in either order, leave the solution grid that one
    pass over [a, c) leaves.  No point of a colour reads a sample that the
    pass of that colour stores on another layer. *)
Theorem dirichlet_pass_slices_compose (soln lap : UniformGrid F (Vec3 F))
    (a b c : nat) (redOrBlack : GaussSeidelPortionE)
    (stats1 stats2 stats3 : Stats_Float F) :
  ShapeMatches soln lap = true -> Size soln = GetGridCapacity soln ->
  1 <= numPoints0 lap -> 1 <= numPoints1 lap ->
  redOrBlack <> GS_BOTH -> a < b -> b < c -> c <= numPoints2 lap ->
  let pass g izStart izEnd stats :=
    fst (StepTowardVectorPoissonSolution g lap izStart izEnd redOrBlack
           BC_DIRICHLET stats) in
  pass (pass soln a b stats1) b c stats2 = pass soln a c stats3 /\
  pass (pass soln b c stats1) a b stats2 = pass soln a c stats3.
Proof.
  intros _ _ _ _ Hcol Hab Hbc _ pass. unfold pass.
  rewrite !relaxInterior_dirichlet.
  rewrite (interiorPoints_app _ _ _ a b c redOrBlack) by lia.
  rewrite relaxPoints_app.
  split; [reflexivity|].
  apply relaxPoints_commute.
  intros [[px py] pz] [[qx qy] qz] Hp Hq.
  pose proof (interiorPoints_range _ _ _ _ _ _ _ Hp) as (Hpx & Hpy & Hpz).
  pose proof (interiorPoints_range _ _ _ _ _ _ _ Hq) as (Hqx & Hqy & Hqz).
  simpl in Hpx, Hpy, Hpz, Hqx, Hqy, Hqz.
  apply interiorPoints_red_black in Hp; [|assumption..].
  apply interiorPoints_red_black in Hq; [|assumption..].
  destruct Hp as [Cp Rp], Hq as [Cq Rq].
  apply same_colour_independent; lia.
Qed.

End PassSlices.
(** ** Grids without interior points *)

Lemma interiorPoints_thin (dims0 dims1 dims2 izStart izEnd : nat)
    (redOrBlack : GaussSeidelPortionE) :
  dims0 <= 2 \/ dims1 <= 2 \/ dims2 <= 2 ->
  interiorPoints dims0 dims1 dims2 izStart izEnd redOrBlack = [].
Proof.
  intros Hthin.
  destruct (interiorPoints dims0 dims1 dims2 izStart izEnd redOrBlack)
    as [|p l] eqn:E; [reflexivity|].
  assert (Hin : In p (interiorPoints dims0 dims1 dims2 izStart izEnd redOrBlack))
    by (rewrite E; left; reflexivity).
  apply interiorPoints_range in Hin. lia.
Qed.

Lemma solverIterations_nonempty {F : Type} `{Scalar F}
    (soln : UniformGrid F (Vec3 F)) (numSteps : nat) :
  1 <= numPoints0 soln ->
  exists iter iters, solverIterations soln numSteps = iter :: iters.
Proof.
  intros Hd. unfold solverIterations, MAX3. cbn [GetNumPoints].
  rewrite forLoop1_seq.
  destruct (Nat.ltb_spec 0 numSteps).
  - destruct numSteps; [lia|]. simpl. eauto.
  - set (m := Nat.max (Nat.max (numPoints0 soln) (numPoints1 soln)) (numPoints2 soln)).
    assert (Hm : 1 <= m) by lia. destruct m; [lia|].
    replace (2 * S m - 0) with (S (S (2 * m))) by lia. simpl. eauto.
Qed.

Section ThinGrid.
Context {F : Type} `{Scalar F} `{Inhabited F}.

Lemma Step_thin (soln lap : UniformGrid F (Vec3 F)) (izStart izEnd : nat)
    (redOrBlack : GaussSeidelPortionE) (residualStats : Stats_Float F) :
  numPoints0 lap <= 2 \/ numPoints1 lap <= 2 \/ numPoints2 lap <= 2 ->
  StepTowardVectorPoissonSolution soln lap izStart izEnd redOrBlack BC_DIRICHLET
    residualStats
  = (soln, mkStats (fconst 0) (fconst 0) FLT_MAX (fopp FLT_MAX)).
Proof.
  intros Hthin. unfold StepTowardVectorPoissonSolution. cbn [GetNumPoints].
  rewrite interiorPoints_thin by exact Hthin. reflexivity.
Qed.

(** X7.  A grid with fewer than three points along some axis has no interior
    point.  A solve with fixed boundary values then returns the solution
    grid as it was given, and the residual statistics it reports are the
    accumulators as a pass initialises them: mean 0, standard deviation 0,
    minimum FLT_MAX, maximum -FLT_MAX. *)
Theorem dirichlet_solve_without_interior (soln lap : UniformGrid F (Vec3 F))
    (numSteps : nat) (residualStats : Stats_Float F) :
  ShapeMatches soln lap = true -> Size soln = GetGridCapacity soln ->
  1 <= numPoints0 lap -> 1 <= numPoints1 lap -> 1 <= numPoints2 lap ->
  numPoints0 lap <= 2 \/ numPoints1 lap <= 2 \/ numPoints2 lap <= 2 ->
  SolveVectorPoisson soln lap numSteps BC_DIRICHLET residualStats
  = (soln, mkStats (fconst 0) (fconst 0) FLT_MAX (fopp FLT_MAX)).
Proof.
  intros Hshape _ Hd0 _ _ Hthin.
  apply ShapeMatches_eq in Hshape as (E0 & _ & _).
  unfold SolveVectorPoisson.
  destruct (solverIterations_nonempty soln numSteps ltac:(lia)) as (i & l & ->).
  assert (Hround : forall st, relaxationRound lap BC_DIRICHLET st
                     = (fst st, mkStats (fconst 0) (fconst 0) FLT_MAX (fopp FLT_MAX))).
  { intros st. unfold relaxationRound. rewrite !Step_thin by exact Hthin. reflexivity. }
  simpl. rewrite Hround. simpl.
  induction l as [|j l IH]; [reflexivity|].
  simpl. rewrite Hround. exact IH.
Qed.

End ThinGrid.

(** ** The Neumann block after a pass over both colours *)

Lemma idxYShift_both (index2 : nat) : idxYShift index2 GS_BOTH = 0.
Proof.
  unfold idxYShift, unsignedOfPortion.
  destruct (Nat.eqb_spec (index2 mod 2) 2) as [E|E]; [|reflexivity].
  pose proof (Nat.mod_upper_bound index2 2 ltac:(lia)). lia.
Qed.

Lemma boundaryPoints_both (dims0 dims1 dims2 : nat) :
  boundaryPoints dims0 dims1 dims2 0 dims2 GS_BOTH = facePoints dims0 dims1 dims2.
Proof.
  unfold boundaryPoints, facePoints. rewrite !Nat.eqb_refl, !idxYShift_both.
  cbn [iyStep]. f_equal.
  apply flat_map_ext. intros z. rewrite idxYShift_both. reflexivity.
Qed.

(** A fold of stores that copy samples the fold never stores to copies the
    samples of the grid it starts from. *)
Lemma fold_write_copy {F T : Type} `{Inhabited T} (off src : Index -> nat)
    (g0 : UniformGrid F T) :
  forall (l : list Index) (g : UniformGrid F T),
    (forall p q, In p l -> In q l -> off p <> src q) ->
    (forall q, In q l -> gridGet g (src q) = gridGet g0 (src q)) ->
    fold_left (writeStep off (fun g p => gridGet g (src p))) l g
    = fold_left (writeStep off (fun _ p => gridGet g0 (src p))) l g.
Proof.
  induction l as [|p l IH]; intros g Hne Hg; [reflexivity|].
  simpl. unfold writeStep at 2 4. rewrite (Hg p) by (left; reflexivity).
  apply IH.
  - intros a b Ha Hb. apply Hne; right; assumption.
  - intros q Hq. unfold gridGet, gridSet; simpl.
    rewrite list_lookup_total_insert_ne.
    + apply Hg. right. exact Hq.
    + apply Hne; [left; reflexivity|right; exact Hq].
Qed.

Section NeumannBoth.
Context {F : Type} `{Scalar F} `{Inhabited F}.

Lemma interiorOffset_point (lap : UniformGrid F (Vec3 F)) (p : Index) :
  3 <= numPoints0 lap -> 3 <= numPoints1 lap -> 3 <= numPoints2 lap ->
  exists cx cy cz,
    1 <= cx < numPoints0 lap - 1 /\ 1 <= cy < numPoints1 lap - 1 /\
    1 <= cz < numPoints2 lap - 1 /\
    interiorOffset lap p = pointOffset lap (cx, cy, cz).
Proof.
  intros H0d H1d H2d. destruct p as [[ix iy] iz].
  exists (Clamp ix 1 (numPoints0 lap - 1 - 1)), (Clamp iy 1 (numPoints1 lap - 1 - 1)),
         (Clamp iz 1 (numPoints2 lap - 1 - 1)).
  unfold Clamp. repeat split; try lia.
  rewrite pointOffset_eq. reflexivity.
Qed.

(** X8.  After a pass over both colours and the whole z range with the
    Neumann block, on a grid with at least three points per axis, every
    sample on a face of the grid equals the sample at the nearest interior
    point (each index clamped into [1, dims - 2]): the zero-derivative
    condition holds on all six faces, edges and corners included. *)
Theorem neumann_full_pass_mirrors_interior (soln lap : UniformGrid F (Vec3 F))
    (residualStats : Stats_Float F) (ix iy iz : nat) :
  ShapeMatches soln lap = true -> Size soln = GetGridCapacity soln ->
  3 <= numPoints0 lap -> 3 <= numPoints1 lap -> 3 <= numPoints2 lap ->
  ix < numPoints0 lap -> iy < numPoints1 lap -> iz < numPoints2 lap ->
  ix = 0 \/ iy = 0 \/ iz = 0 \/ ix = numPoints0 lap - 1 \/
  iy = numPoints1 lap - 1 \/ iz = numPoints2 lap - 1 ->
  let after := fst (StepTowardVectorPoissonSolution soln lap 0 (numPoints2 lap)
                      GS_BOTH BC_NEUMANN residualStats) in
  gridGet after (pointOffset lap (ix, iy, iz))
  = gridGet after (interiorOffset lap (ix, iy, iz)).
Proof.
  intros Hshape Hsize H0d H1d H2d Hx Hy Hz Hface after. unfold after.
  apply ShapeMatches_eq in Hshape as (E0 & E1 & E2).
  rewrite Step_soln, applyBoundary_neumann, boundaryPoints_both.
  set (g1 := relaxInterior lap 0 (numPoints2 lap) GS_BOTH soln).
  set (faces := facePoints (numPoints0 lap) (numPoints1 lap) (numPoints2 lap)).
  assert (Hsrc : forall p q, In p faces -> pointOffset lap p <> interiorOffset lap q).
  { intros [[px py] pz] q Hp Heq. apply facePoints_In in Hp; [|lia..].
    destruct (interiorOffset_point lap q H0d H1d H2d)
      as (cx & cy & cz & Hcx & Hcy & Hcz & Ec).
    rewrite Ec in Heq. apply pointOffset_inj in Heq; simpl; try lia.
    inversion Heq; subst. lia. }
  rewrite (fold_write_copy (pointOffset lap) (interiorOffset lap) g1 faces g1);
    [|intros p q Hp _; apply Hsrc, Hp|reflexivity].
  assert (Hsize1 : Size g1 = Size soln) by (apply relaxInterior_shape).
  rewrite (fold_write_frame _ _ faces g1 (interiorOffset lap (ix, iy, iz))).
  - apply fold_write_const.
    + intros [[qx qy] qz] Hq Heq. apply facePoints_In in Hq; [|lia..].
      apply pointOffset_inj in Heq; simpl; try lia. rewrite Heq. reflexivity.
    + apply in_map. apply facePoints_In; [lia..|]. repeat split; try lia.
    + rewrite Hsize1, Hsize, pointOffset_eq. unfold GetGridCapacity.
      rewrite E0, E1, E2. apply offset_lt_capacity; assumption.
  - intros Hin. apply in_map_iff in Hin as (p & Heq & Hp).
    exact (Hsrc p (ix, iy, iz) Hp Heq).
Qed.

End NeumannBoth.
(** ** The boundary block and the interior *)

Section BoundaryBlock.
Context {F : Type} `{Scalar F} `{Inhabited F}.

(** X9.  The Neumann block never stores to an interior sample: after one
    pass, the sample of every point away from the faces is the same whether
    the pass ran with the Neumann or with the Dirichlet boundary condition.
    The choice of boundary condition reaches the interior only through the
    face samples that later passes read. *)
Theorem boundary_condition_keeps_interior_of_pass (soln lap : UniformGrid F (Vec3 F))
    (izStart izEnd : nat) (redOrBlack : GaussSeidelPortionE)
    (residualStats : Stats_Float F) (ix iy iz : nat) :
  ShapeMatches soln lap = true -> Size soln = GetGridCapacity soln ->
  izStart < numPoints2 lap -> izEnd <= numPoints2 lap ->
  1 <= ix < numPoints0 lap - 1 -> 1 <= iy < numPoints1 lap - 1 ->
  1 <= iz < numPoints2 lap - 1 ->
  gridGet (fst (StepTowardVectorPoissonSolution soln lap izStart izEnd redOrBlack
                  BC_NEUMANN residualStats))
          (pointOffset lap (ix, iy, iz))
  = gridGet (fst (StepTowardVectorPoissonSolution soln lap izStart izEnd redOrBlack
                    BC_DIRICHLET residualStats))
            (pointOffset lap (ix, iy, iz)).
Proof.
  intros _ _ _ _ Hx Hy Hz.
  rewrite !Step_soln, applyBoundary_neumann. cbn [applyBoundary].
  apply fold_write_frame.
  apply boundary_offset_not_interior; assumption.
Qed.

End BoundaryBlock.

(** The centre of the 3x3x3 box after a red pass. *)
Lemma boundary_condition_keeps_interior_of_pass_witness :
  gridGet (fst (StepTowardVectorPoissonSolution FloatExamples.solnZero
                  FloatExamples.lapCentre 0 3 GS_RED BC_NEUMANN FloatExamples.stats0))
          (pointOffset FloatExamples.lapCentre (1, 1, 1))
  = gridGet (fst (StepTowardVectorPoissonSolution FloatExamples.solnZero
                    FloatExamples.lapCentre 0 3 GS_RED BC_DIRICHLET
                    FloatExamples.stats0))
            (pointOffset FloatExamples.lapCentre (1, 1, 1)).
Proof.
  apply (boundary_condition_keeps_interior_of_pass FloatExamples.solnZero
           FloatExamples.lapCentre 0 3 GS_RED FloatExamples.stats0 1 1 1);
    [reflexivity | reflexivity | simpl; lia | simpl; lia | simpl; lia
    | simpl; lia | simpl; lia].
Defined.
(** ** The solver and the Laplacian *)

Section FixedPoint.
#[local] Open Scope R_scope.

Lemma writeStep_same {T : Type} `{Inhabited T} (off : Index -> nat)
    (val : UniformGrid R T -> Index -> T) (g : UniformGrid R T) (p : Index) :
  val g p = gridGet g (off p) -> writeStep off val g p = g.
Proof.
  intros Hv. unfold writeStep, gridSet. rewrite Hv. destruct g as [d0 d1 d2 s c].
  unfold gridGet; simpl. f_equal.
  destruct (Nat.lt_ge_cases (off p) (length c)) as [Hlt|Hge].
  - destruct (lookup_lt_is_Some_2 c (off p) Hlt) as [a Ha].
    rewrite (list_lookup_total_correct _ _ _ Ha).
    apply list_insert_id. exact Ha.
  - apply list_insert_ge. exact Hge.
Qed.

(** Where the seven-point Laplacian of the solution equals the source, the
    over-relaxed update is the sample itself. *)
Lemma updatedVal_fixed (soln lap : UniformGrid R (Vec3 R)) (index : Index) :
  numPoints0 soln = numPoints0 lap -> numPoints1 soln = numPoints1 lap ->
  cellSpacing soln = cellSpacing lap ->
  Vec3.x (cellSpacing lap) <> 0 ->
  laplacianInterior soln index = gridGet lap (pointOffset lap index) ->
  updatedVal soln lap index = gridGet soln (pointOffset lap index).
Proof.
  intros E0 E1 Es Hsx Hlap.
  unfold updatedVal, vSolution, pointOffset. unfold pointOffset in Hlap.
  rewrite <- Hlap. unfold laplacianInterior, secondDifference, HalfSpacing2Sum.
  cbn [GetNumPoints]. unfold GetCellSpacing. rewrite E0, E1, Es.
  set (o := ASSIGN_XYZ_OFFSETS (numPoints0 lap) (numPoints1 lap) index).
  assert (Hr : Vec3.x (reciprocalSpacing (cellSpacing lap)) <> 0).
  { unfold reciprocalSpacing; simpl. unfold Q2R; simpl. rewrite Rinv_1.
    unfold Rdiv. rewrite !Rmult_1_l. apply Rinv_neq_0_compat. exact Hsx. }
  unfold reciprocalSpacing2, POW2.
  destruct (reciprocalSpacing (cellSpacing lap)) as [rx ry rz].
  cbn [Vec3.x Vec3.y Vec3.z] in *.
  destruct (gridGet soln (offsetXPY0Z0 o)) as [a1 a2 a3].
  destruct (gridGet soln (offsetXMY0Z0 o)) as [b1 b2 b3].
  destruct (gridGet soln (offsetX0YPZ0 o)) as [c1 c2 c3].
  destruct (gridGet soln (offsetX0YMZ0 o)) as [d1 d2 d3].
  destruct (gridGet soln (offsetX0Y0ZP o)) as [e1 e2 e3].
  destruct (gridGet soln (offsetX0Y0ZM o)) as [f1 f2 f3].
  destruct (gridGet soln (offsetX0Y0Z0 o)) as [s1 s2 s3].
  unfold vadd, vsub, vscale, svmul, oneMinusRelax, relax.
  cbn [Vec3.x Vec3.y Vec3.z fadd fsub fmul fdiv fconst R_Scalar].
  unfold Q2R; simpl.
  assert (Hs : rx * rx + ry * ry + rz * rz <> 0).
  { assert (0 < rx * rx) by nra. nra. }
  f_equal; field; exact Hs.
Qed.

Lemma relaxPoints_fixed (soln lap : UniformGrid R (Vec3 R)) (l : list Index) :
  numPoints0 soln = numPoints0 lap -> numPoints1 soln = numPoints1 lap ->
  cellSpacing soln = cellSpacing lap ->
  Vec3.x (cellSpacing lap) <> 0 ->
  (forall p, In p l ->
     laplacianInterior soln p = gridGet lap (pointOffset lap p)) ->
  relaxPoints lap l soln = soln.
Proof.
  intros E0 E1 Es Hsx. unfold relaxPoints.
  induction l as [|p l IH]; intros Hl; [reflexivity|].
  simpl. rewrite writeStep_same.
  - apply IH. intros q Hq. apply Hl. right. exact Hq.
  - apply updatedVal_fixed; try assumption. apply Hl. left. reflexivity.
Qed.

(** X10.  The solver inverts [ComputeLaplacian]: in exact arithmetic, when
    the source grid is the Laplacian that [ComputeLaplacian] computes of a
    field (on a grid with at least three points per axis and a non-zero x
    spacing), a solve with fixed boundary values that starts from that field
    returns it unchanged, whatever the number of rounds. *)
Theorem solver_keeps_solution_of_its_laplacian
    (soln laplacian : UniformGrid R (Vec3 R)) (numSteps : nat)
    (residualStats : Stats_Float R) :
  ShapeMatches laplacian soln = true ->
  Size laplacian = GetGridCapacity laplacian ->
  Size soln = GetGridCapacity soln ->
  (3 <= numPoints0 soln)%nat -> (3 <= numPoints1 soln)%nat ->
  (3 <= numPoints2 soln)%nat ->
  cellSpacing laplacian = cellSpacing soln ->
  Vec3.x (cellSpacing soln) <> 0 ->
  fst (SolveVectorPoisson soln (ComputeLaplacian laplacian soln) numSteps
         BC_DIRICHLET residualStats)
  = soln.
Proof.
  intros Hshape Hsize _ _ _ _ Hspacing Hsx.
  set (lap := ComputeLaplacian laplacian soln).
  pose proof Hshape as Hshape'.
  apply ShapeMatches_eq in Hshape' as (E0 & E1 & E2).
  assert (Hlapshape : numPoints0 lap = numPoints0 laplacian /\
                      numPoints1 lap = numPoints1 laplacian /\
                      numPoints2 lap = numPoints2 laplacian /\
                      cellSpacing lap = cellSpacing laplacian /\
                      Size lap = Size laplacian).
  { unfold lap, ComputeLaplacian.
    set (off := fun p : Index =>
                  offsetX0Y0Z0 (ASSIGN_XYZ_OFFSETS (GetNumPoints soln 0)
                                  (GetNumPoints soln 1) p)).
    change (writeAt (GetNumPoints soln 0) (GetNumPoints soln 1) (laplacianAtBoundary soln))
      with (writeStep (F := R) off (fun _ p => laplacianAtBoundary soln p)).
    change (writeAt (GetNumPoints soln 0) (GetNumPoints soln 1) (laplacianInterior soln))
      with (writeStep (F := R) off (fun _ p => laplacianInterior soln p)).
    destruct (fold_write_shape off (fun _ p => laplacianAtBoundary soln p)
                (facePoints (GetNumPoints soln 0) (GetNumPoints soln 1)
                   (GetNumPoints soln 2))
                (fold_left (writeStep off (fun _ p => laplacianInterior soln p))
                   (interiorSlicePoints (GetNumPoints soln 0) (GetNumPoints soln 1) 1
                      (GetNumPoints soln 2 - 1)) laplacian))
      as (-> & -> & -> & -> & ->).
    apply (fold_write_shape off (fun _ p => laplacianInterior soln p)). }
  destruct Hlapshape as (L0 & L1 & L2 & Ls & Lz).
  assert (Hpass : forall izStart izEnd redOrBlack stats,
            fst (StepTowardVectorPoissonSolution soln lap izStart izEnd redOrBlack
                   BC_DIRICHLET stats) = soln).
  { intros izStart izEnd redOrBlack stats.
    rewrite Step_soln. cbn [applyBoundary]. unfold relaxInterior.
    apply relaxPoints_fixed; try congruence.
    intros [[ix iy] iz] Hp. apply interiorPoints_range in Hp.
    cbn [fst snd GetNumPoints] in Hp. rewrite L0, L1, L2, E0, E1, E2 in Hp.
    rewrite <- laplacianAtBoundary_interior by lia.
    rewrite pointOffset_eq, L0, L1. unfold lap.
    rewrite <- (ComputeLaplacian_value laplacian soln ix iy iz) by (try assumption; lia).
    reflexivity. }
  unfold SolveVectorPoisson.
  generalize (solverIterations soln numSteps). intros iters.
  assert (Hgen : forall (l : list nat) (stats : Stats_Float R),
            fst (fold_left (fun st (_ : nat) => relaxationRound lap BC_DIRICHLET st)
                   l (soln, stats)) = soln).
  { induction l as [|i l IH]; intros stats; [reflexivity|].
    simpl. unfold relaxationRound at 2. cbn [fst snd].
    destruct (StepTowardVectorPoissonSolution soln lap 0 (GetNumPoints soln 2) GS_RED
                BC_DIRICHLET stats) as [g1 s1] eqn:E1'.
    assert (Hg1 : g1 = soln)
      by (rewrite <- (Hpass 0%nat (GetNumPoints soln 2) GS_RED stats), E1'; reflexivity).
    subst g1. cbn [fst snd].
    destruct (StepTowardVectorPoissonSolution soln lap 0 (GetNumPoints soln 2) GS_BLACK
                BC_DIRICHLET s1) as [g2 s2] eqn:E2'.
    assert (Hg2 : g2 = soln)
      by (rewrite <- (Hpass 0%nat (GetNumPoints soln 2) GS_BLACK s1), E2'; reflexivity).
    subst g2. apply IH. }
  apply Hgen.
Qed.

End FixedPoint.
(** ** Exactness on affine and quadratic fields *)

Section ExactOperators.
#[local] Open Scope R_scope.

Lemma guardedReciprocal_z (spacing : Vec3 R) :
  FLT_EPSILON < Vec3.z spacing ->
  Vec3.z (guardedReciprocal spacing) = 1 / Vec3.z spacing.
Proof.
  intros Hz. unfold guardedReciprocal; simpl.
  destruct (Rlt_dec (/ 8388608) (Vec3.z spacing)) as [_|Hn]; [reflexivity|].
  exfalso. apply Hn. exact Hz.
Qed.

Lemma FLT_EPSILON_pos : 0 < @FLT_EPSILON R _.
Proof. simpl. lra. Qed.

(** The boundary-aware gradient stencil is exact on an affine field. *)
Lemma gradientAtBoundary_affine (scalarVals : UniformGrid R R) (a : R) (b : Vec3 R)
    (ix iy iz : nat) :
  (2 <= numPoints0 scalarVals)%nat -> (2 <= numPoints1 scalarVals)%nat ->
  (2 <= numPoints2 scalarVals)%nat ->
  Vec3.x (cellSpacing scalarVals) <> 0 -> Vec3.y (cellSpacing scalarVals) <> 0 ->
  FLT_EPSILON < Vec3.z (cellSpacing scalarVals) ->
  isAffineScalar scalarVals a b ->
  (ix < numPoints0 scalarVals)%nat -> (iy < numPoints1 scalarVals)%nat ->
  (iz < numPoints2 scalarVals)%nat ->
  gradientAtBoundary scalarVals (ix, iy, iz) = b.
Proof.
  intros H0 H1 H2 Hsx Hsy Hsz Haff Hx Hy Hz.
  pose proof FLT_EPSILON_pos as Heps.
  rewrite gradientAtBoundary_spec. unfold specGradient. cbn [fst snd].
  rewrite (guardedReciprocal_z _ Hsz).
  unfold guardedReciprocal. cbn [Vec3.x Vec3.y Vec3.z].
  unfold isAffineScalar, positionOf in Haff. cbn [fst snd Vec3.x Vec3.y Vec3.z] in Haff.
  destruct b as [bx by' bz]. cbn [Vec3.x Vec3.y Vec3.z] in *.
  set (sx := Vec3.x (cellSpacing scalarVals)) in *.
  set (sy := Vec3.y (cellSpacing scalarVals)) in *.
  set (sz := Vec3.z (cellSpacing scalarVals)) in *.
  f_equal.
  - rewrite (stencilDifference_linear _
               (a + by' * (INR iy * sy) + bz * (INR iz * sz)) (bx * sx));
      [field; exact Hsx | lia | exact Hx |].
    intros i Hi. rewrite Haff by assumption. ring.
  - rewrite (stencilDifference_linear _
               (a + bx * (INR ix * sx) + bz * (INR iz * sz)) (by' * sy));
      [field; exact Hsy | lia | exact Hy |].
    intros j Hj. rewrite Haff by assumption. ring.
  - rewrite (stencilDifference_linear _
               (a + bx * (INR ix * sx) + by' * (INR iy * sy)) (bz * sz));
      [field; lra | lia | exact Hz |].
    intros k Hk. rewrite Haff by assumption. ring.
Qed.

(** X11.  [ComputeGradient] is exact on affine fields: in exact arithmetic,
    on a grid with at least two points per axis, non-zero x and y spacings
    and a z spacing above FLT_EPSILON, the gradient of the field a + b . r
    (r the position of the point) is b at every point of the grid, the
    one-sided differences on the faces included. *)
Theorem gradient_of_affine_field (gradientGrid : UniformGrid R (Vec3 R))
    (scalarVals : UniformGrid R R) (a : R) (b : Vec3 R) (ix iy iz : nat) :
  ShapeMatches gradientGrid scalarVals = true ->
  Size gradientGrid = GetGridCapacity gradientGrid ->
  (2 <= numPoints0 scalarVals)%nat -> (2 <= numPoints1 scalarVals)%nat ->
  (2 <= numPoints2 scalarVals)%nat ->
  Vec3.x (cellSpacing scalarVals) <> 0 -> Vec3.y (cellSpacing scalarVals) <> 0 ->
  FLT_EPSILON < Vec3.z (cellSpacing scalarVals) ->
  isAffineScalar scalarVals a b ->
  (ix < numPoints0 scalarVals)%nat -> (iy < numPoints1 scalarVals)%nat ->
  (iz < numPoints2 scalarVals)%nat ->
  gridGet (ComputeGradient gradientGrid scalarVals)
          (OffsetFromIndices gradientGrid (ix, iy, iz))
  = b.
Proof.
  intros Hshape Hsize H0 H1 H2 Hsx Hsy Hsz Haff Hx Hy Hz.
  rewrite ComputeGradient_value by assumption.
  apply (gradientAtBoundary_affine scalarVals a b); assumption.
Qed.

Lemma componentGrid_affine (c : Vec3 R -> R) (vec : UniformGrid R (Vec3 R))
    (v0 gx gy gz : Vec3 R) :
  c = Vec3.x \/ c = Vec3.y \/ c = Vec3.z ->
  isAffineVector vec v0 gx gy gz ->
  isAffineScalar (componentGrid c vec) (c v0) (Vec3.mk (c gx) (c gy) (c gz)).
Proof.
  intros Hc Haff ix iy iz Hx Hy Hz r.
  rewrite gridGet_componentGrid by exact Hc.
  change (OffsetFromIndices (componentGrid c vec) (ix, iy, iz))
    with (OffsetFromIndices vec (ix, iy, iz)).
  rewrite (Haff ix iy iz Hx Hy Hz). unfold r. cbn [componentGrid cellSpacing].
  destruct Hc as [-> | [-> | ->]]; simpl; ring.
Qed.

(** The boundary-aware Jacobian stencil is exact on an affine field. *)
Lemma jacobianAtBoundary_affine (vec : UniformGrid R (Vec3 R))
    (v0 gx gy gz : Vec3 R) (ix iy iz : nat) :
  (2 <= numPoints0 vec)%nat -> (2 <= numPoints1 vec)%nat ->
  (2 <= numPoints2 vec)%nat ->
  Vec3.x (cellSpacing vec) <> 0 -> Vec3.y (cellSpacing vec) <> 0 ->
  FLT_EPSILON < Vec3.z (cellSpacing vec) ->
  isAffineVector vec v0 gx gy gz ->
  (ix < numPoints0 vec)%nat -> (iy < numPoints1 vec)%nat -> (iz < numPoints2 vec)%nat ->
  jacobianAtBoundary vec (ix, iy, iz) = Mat33.mk gx gy gz.
Proof.
  intros H0 H1 H2 Hsx Hsy Hsz Haff Hx Hy Hz.
  assert (Hcomp : forall c, c = Vec3.x \/ c = Vec3.y \/ c = Vec3.z ->
            Vec3.mk (c (Mat33.x (jacobianAtBoundary vec (ix, iy, iz))))
                    (c (Mat33.y (jacobianAtBoundary vec (ix, iy, iz))))
                    (c (Mat33.z (jacobianAtBoundary vec (ix, iy, iz))))
            = Vec3.mk (c gx) (c gy) (c gz)).
  { intros c Hc. rewrite <- (jacobianAtBoundary_component c vec (ix, iy, iz) Hc).
    apply (gradientAtBoundary_affine (componentGrid c vec) (c v0)); try assumption.
    apply componentGrid_affine; assumption. }
  pose proof (Hcomp Vec3.x (or_introl eq_refl)) as Ex.
  pose proof (Hcomp Vec3.y (or_intror (or_introl eq_refl))) as Ey.
  pose proof (Hcomp Vec3.z (or_intror (or_intror eq_refl))) as Ez.
  destruct (jacobianAtBoundary vec (ix, iy, iz)) as [[a1 a2 a3] [b1 b2 b3] [c1 c2 c3]].
  destruct gx, gy, gz. cbn [Mat33.x Mat33.y Mat33.z Vec3.x Vec3.y Vec3.z] in *.
  inversion Ex; inversion Ey; inversion Ez; subst. reflexivity.
Qed.

(** X12.  [ComputeJacobian] is exact on affine fields: in exact arithmetic,
    under the conditions of X11, the Jacobian of the vector field
    v0 + r.x * gx + r.y * gy + r.z * gz is, at every point of the grid, the
    matrix whose rows are gx, gy and gz. *)
Theorem jacobian_of_affine_field (jacobian : UniformGrid R (Mat33 R))
    (vec : UniformGrid R (Vec3 R)) (v0 gx gy gz : Vec3 R) (ix iy iz : nat) :
  ShapeMatches jacobian vec = true ->
  Size jacobian = GetGridCapacity jacobian ->
  (2 <= numPoints0 vec)%nat -> (2 <= numPoints1 vec)%nat ->
  (2 <= numPoints2 vec)%nat ->
  Vec3.x (cellSpacing vec) <> 0 -> Vec3.y (cellSpacing vec) <> 0 ->
  FLT_EPSILON < Vec3.z (cellSpacing vec) ->
  isAffineVector vec v0 gx gy gz ->
  (ix < numPoints0 vec)%nat -> (iy < numPoints1 vec)%nat -> (iz < numPoints2 vec)%nat ->
  gridGet (ComputeJacobian jacobian vec) (OffsetFromIndices jacobian (ix, iy, iz))
  = Mat33.mk gx gy gz.
Proof.
  intros Hshape Hsize H0 H1 H2 Hsx Hsy Hsz Haff Hx Hy Hz.
  rewrite ComputeJacobian_value by assumption.
  apply (jacobianAtBoundary_affine vec v0); assumption.
Qed.

Lemma rotation_is_affine (vec : UniformGrid R (Vec3 R)) (omega centre : Vec3 R) :
  isRotationField vec omega centre ->
  isAffineVector vec (cross omega (vsub (Vec3.mk 0 0 0) centre))
    (cross omega (Vec3.mk 1 0 0)) (cross omega (Vec3.mk 0 1 0))
    (cross omega (Vec3.mk 0 0 1)).
Proof.
  intros Hrot ix iy iz Hx Hy Hz r. rewrite (Hrot ix iy iz Hx Hy Hz).
  fold r. destruct r as [rx ry rz], omega as [wx wy wz], centre as [cx cy cz].
  unfold cross, vsub, vadd, svmul; simpl. f_equal; ring.
Qed.

Lemma ComputeJacobian_shape (jacobian : UniformGrid R (Mat33 R))
    (vec : UniformGrid R (Vec3 R)) :
  let g' := ComputeJacobian jacobian vec in
  numPoints0 g' = numPoints0 jacobian /\ numPoints1 g' = numPoints1 jacobian /\
  numPoints2 g' = numPoints2 jacobian /\ cellSpacing g' = cellSpacing jacobian /\
  Size g' = Size jacobian.
Proof.
  unfold ComputeJacobian.
  set (off := fun p : Index =>
                offsetX0Y0Z0 (ASSIGN_XYZ_OFFSETS (GetNumPoints vec 0)
                                (GetNumPoints vec 1) p)).
  change (writeAt (GetNumPoints vec 0) (GetNumPoints vec 1) (jacobianAtBoundary vec))
    with (writeStep (F := R) off (fun _ p => jacobianAtBoundary vec p)).
  change (writeAt (GetNumPoints vec 0) (GetNumPoints vec 1) (jacobianInterior vec))
    with (writeStep (F := R) off (fun _ p => jacobianInterior vec p)).
  destruct (fold_write_shape off (fun _ p => jacobianAtBoundary vec p)
              (facePoints (GetNumPoints vec 0) (GetNumPoints vec 1) (GetNumPoints vec 2))
              (fold_left (writeStep off (fun _ p => jacobianInterior vec p))
                 (interiorSlicePoints (GetNumPoints vec 0) (GetNumPoints vec 1) 1
                    (GetNumPoints vec 2 - 1)) jacobian))
    as (-> & -> & -> & -> & ->).
  apply (fold_write_shape off (fun _ p => jacobianInterior vec p)).
Qed.

(** X13.  The curl of a rigid rotation is twice the angular velocity: in
    exact arithmetic, under the conditions of X11, [ComputeCurlFromJacobian]
    applied to the Jacobian that [ComputeJacobian] computes of the field
    omega x (r - centre) stores 2 * omega at every point of the grid, faces
    included. *)
Theorem curl_of_rigid_rotation (curl : UniformGrid R (Vec3 R))
    (jacobian : UniformGrid R (Mat33 R)) (vec : UniformGrid R (Vec3 R))
    (omega centre : Vec3 R) (ix iy iz : nat) :
  ShapeMatches jacobian vec = true -> Size jacobian = GetGridCapacity jacobian ->
  ShapeMatches curl vec = true -> Size curl = GetGridCapacity curl ->
  (2 <= numPoints0 vec)%nat -> (2 <= numPoints1 vec)%nat ->
  (2 <= numPoints2 vec)%nat ->
  Vec3.x (cellSpacing vec) <> 0 -> Vec3.y (cellSpacing vec) <> 0 ->
  FLT_EPSILON < Vec3.z (cellSpacing vec) ->
  isRotationField vec omega centre ->
  (ix < numPoints0 vec)%nat -> (iy < numPoints1 vec)%nat -> (iz < numPoints2 vec)%nat ->
  gridGet (ComputeCurlFromJacobian curl (ComputeJacobian jacobian vec))
          (OffsetFromIndices curl (ix, iy, iz))
  = svmul 2 omega.
Proof.
  intros Sj Zj Sc Zc H0 H1 H2 Hsx Hsy Hsz Hrot Hx Hy Hz.
  pose proof Sj as Sj'. apply ShapeMatches_eq in Sj' as (J0 & J1 & J2).
  pose proof Sc as Sc'. apply ShapeMatches_eq in Sc' as (C0 & C1 & C2).
  destruct (ComputeJacobian_shape jacobian vec) as (K0 & K1 & K2 & _ & _).
  assert (Hcap : GetGridCapacity (ComputeJacobian jacobian vec)
                 = (numPoints0 vec * numPoints1 vec * numPoints2 vec)%nat).
  { unfold GetGridCapacity. rewrite K0, K1, K2, J0, J1, J2. reflexivity. }
  rewrite ComputeCurlFromJacobian_value.
  - replace (OffsetFromIndices curl (ix, iy, iz))
      with (OffsetFromIndices jacobian (ix, iy, iz))
      by (simpl; rewrite J0, J1, C0, C1; reflexivity).
    rewrite ComputeJacobian_value by assumption.
    rewrite (jacobianAtBoundary_affine vec _ _ _ _ ix iy iz H0 H1 H2 Hsx Hsy Hsz
               (rotation_is_affine vec omega centre Hrot) Hx Hy Hz).
    destruct omega as [wx wy wz]. unfold curlOfJacobian, cross, svmul; simpl.
    f_equal; ring.
  - rewrite Hcap, Zc. unfold GetGridCapacity. rewrite C0, C1, C2. reflexivity.
  - rewrite Hcap. simpl. rewrite C0, C1. apply offset_lt_capacity; assumption.
Qed.

End ExactOperators.
Section ExactLaplacian.
#[local] Open Scope R_scope.

(** The boundary macro of [ComputeLaplacian], with its offsets, is the
    second difference along the three lines through the point, with their
    indices. *)
Lemma laplacianAtBoundary_stencil (vec : UniformGrid R (Vec3 R)) (ix iy iz : nat) :
  let sample p := gridGet vec (OffsetFromIndices vec p) in
  let r2 := reciprocalSpacing2 (cellSpacing vec) in
  laplacianAtBoundary vec (ix, iy, iz)
  = vadd
      (vadd (secondStencil (fun i => sample (i, iy, iz)) ix (numPoints0 vec) (Vec3.x r2))
            (secondStencil (fun j => sample (ix, j, iz)) iy (numPoints1 vec) (Vec3.y r2)))
      (secondStencil (fun k => sample (ix, iy, k)) iz (numPoints2 vec) (Vec3.z r2)).
Proof.
  intros sample r2. unfold sample, r2.
  unfold laplacianAtBoundary, laplacianTermAtBoundary, secondStencil, secondDifference,
    ASSIGN_XYZ_OFFSETS, ASSIGN_XXYYZZ_OFFSETS, OffsetFromIndices, GetNumPoints,
    GetCellSpacing.
  cbn [offsetX0Y0Z0 offsetXMY0Z0 offsetXPY0Z0 offsetX0YMZ0 offsetX0YPZ0
       offsetX0Y0ZM offsetX0Y0ZP offsetXMMY0Z0 offsetXPPY0Z0 offsetX0YMMZ0
       offsetX0YPPZ0 offsetX0Y0ZMM offsetX0Y0ZPP fst snd].
  rewrite !Nat.add_assoc. reflexivity.
Qed.

Lemma secondStencil_quadratic (f : nat -> Vec3 R) (A G Q : Vec3 R) (s r2 : R)
    (idx dims : nat) :
  (3 <= dims)%nat -> (idx < dims)%nat ->
  (forall i, (i < dims)%nat ->
     f i = vadd (vadd A (svmul (INR i * s) G)) (svmul (INR i * s * (INR i * s)) Q)) ->
  secondStencil f idx dims r2 = svmul (2 * (s * s) * r2) Q.
Proof.
  intros Hd Hi Hf. unfold secondStencil.
  destruct A as [a1 a2 a3], G as [g1 g2 g3], Q as [q1 q2 q3].
  destruct (Nat.eqb_spec idx 0) as [->|Hn0].
  - rewrite !Hf by lia. unfold vadd, vsub, vscale, svmul; simpl.
    unfold Q2R; simpl. f_equal; field.
  - destruct (Nat.eqb_spec idx (dims - 1)) as [He|Hne].
    + rewrite !Hf by lia. rewrite !minus_INR by lia.
      unfold vadd, vsub, vscale, svmul; simpl. unfold Q2R; simpl. f_equal; field.
    + rewrite !Hf by lia. rewrite plus_INR, minus_INR by lia.
      unfold vadd, vsub, vscale, svmul; simpl. unfold Q2R; simpl. f_equal; field.
Qed.

Lemma laplacianAtBoundary_quadratic (vec : UniformGrid R (Vec3 R))
    (v0 gx gy gz qx qy qz : Vec3 R) (ix iy iz : nat) :
  (3 <= numPoints0 vec)%nat -> (3 <= numPoints1 vec)%nat ->
  (3 <= numPoints2 vec)%nat ->
  Vec3.x (cellSpacing vec) <> 0 -> Vec3.y (cellSpacing vec) <> 0 ->
  FLT_EPSILON < Vec3.z (cellSpacing vec) ->
  isQuadraticVector vec v0 gx gy gz qx qy qz ->
  (ix < numPoints0 vec)%nat -> (iy < numPoints1 vec)%nat -> (iz < numPoints2 vec)%nat ->
  laplacianAtBoundary vec (ix, iy, iz) = svmul 2 (vadd (vadd qx qy) qz).
Proof.
  intros H0 H1 H2 Hsx Hsy Hsz Hq Hx Hy Hz.
  pose proof FLT_EPSILON_pos as Heps.
  rewrite laplacianAtBoundary_stencil. cbv zeta.
  unfold isQuadraticVector, positionOf in Hq.
  cbn [fst snd Vec3.x Vec3.y Vec3.z] in Hq.
  unfold reciprocalSpacing2, POW2. rewrite reciprocalSpacing_guarded.
  cbn [Vec3.x Vec3.y Vec3.z]. rewrite (guardedReciprocal_z _ Hsz).
  unfold guardedReciprocal. cbn [Vec3.x Vec3.y Vec3.z].
  set (sx := Vec3.x (cellSpacing vec)) in *.
  set (sy := Vec3.y (cellSpacing vec)) in *.
  set (sz := Vec3.z (cellSpacing vec)) in *.
  rewrite (secondStencil_quadratic _
             (vadd (vadd (vadd v0 (svmul (INR iy * sy) gy)) (svmul (INR iz * sz) gz))
                   (vadd (svmul (INR iy * sy * (INR iy * sy)) qy)
                         (svmul (INR iz * sz * (INR iz * sz)) qz)))
             gx qx sx _ ix (numPoints0 vec) H0 Hx).
  2:{ intros i Hi. rewrite Hq by assumption.
      destruct v0, gx, gy, gz, qx, qy, qz. unfold vadd, svmul; simpl. f_equal; ring. }
  rewrite (secondStencil_quadratic _
             (vadd (vadd (vadd v0 (svmul (INR ix * sx) gx)) (svmul (INR iz * sz) gz))
                   (vadd (svmul (INR ix * sx * (INR ix * sx)) qx)
                         (svmul (INR iz * sz * (INR iz * sz)) qz)))
             gy qy sy _ iy (numPoints1 vec) H1 Hy).
  2:{ intros j Hj. rewrite Hq by assumption.
      destruct v0, gx, gy, gz, qx, qy, qz. unfold vadd, svmul; simpl. f_equal; ring. }
  rewrite (secondStencil_quadratic _
             (vadd (vadd (vadd v0 (svmul (INR ix * sx) gx)) (svmul (INR iy * sy) gy))
                   (vadd (svmul (INR ix * sx * (INR ix * sx)) qx)
                         (svmul (INR iy * sy * (INR iy * sy)) qy)))
             gz qz sz _ iz (numPoints2 vec) H2 Hz).
  2:{ intros k Hk. rewrite Hq by assumption.
      destruct v0, gx, gy, gz, qx, qy, qz. unfold vadd, svmul; simpl. f_equal; ring. }
  destruct qx, qy, qz. unfold vadd, svmul; simpl. f_equal; field; lra.
Qed.

(** X14.  [ComputeLaplacian] is exact on quadratic fields: in exact
    arithmetic, on a grid with at least three points per axis, non-zero x
    and y spacings and a z spacing above FLT_EPSILON, the Laplacian of the
    vector field v0 + r.x*gx + r.y*gy + r.z*gz + r.x^2*qx + r.y^2*qy +
    r.z^2*qz is 2 * (qx + qy + qz) at every point of the grid, the one-sided
    second differences on the faces included; so it is zero on every affine
    field. *)
Theorem laplacian_of_quadratic_field (laplacian vec : UniformGrid R (Vec3 R))
    (v0 gx gy gz qx qy qz : Vec3 R) (ix iy iz : nat) :
  ShapeMatches laplacian vec = true ->
  Size laplacian = GetGridCapacity laplacian ->
  (3 <= numPoints0 vec)%nat -> (3 <= numPoints1 vec)%nat ->
  (3 <= numPoints2 vec)%nat ->
  Vec3.x (cellSpacing vec) <> 0 -> Vec3.y (cellSpacing vec) <> 0 ->
  FLT_EPSILON < Vec3.z (cellSpacing vec) ->
  isQuadraticVector vec v0 gx gy gz qx qy qz ->
  (ix < numPoints0 vec)%nat -> (iy < numPoints1 vec)%nat -> (iz < numPoints2 vec)%nat ->
  gridGet (ComputeLaplacian laplacian vec) (OffsetFromIndices laplacian (ix, iy, iz))
  = svmul 2 (vadd (vadd qx qy) qz).
Proof.
  intros Hshape Hsize H0 H1 H2 Hsx Hsy Hsz Hq Hx Hy Hz.
  rewrite ComputeLaplacian_value by assumption.
  apply (laplacianAtBoundary_quadratic vec v0 gx gy gz); assumption.
Qed.

End ExactLaplacian.
(** ** Value ranges and statistics *)

Section RangesExact.
#[local] Open Scope R_scope.

Lemma Min2_le_l (a b : R) : Min2 a b <= a.
Proof. unfold Min2; simpl. destruct (Rlt_dec a b); lra. Qed.
Lemma Min2_le_r (a b : R) : Min2 a b <= b.
Proof. unfold Min2; simpl. destruct (Rlt_dec a b); lra. Qed.
Lemma Max2_ge_l (a b : R) : a <= Max2 a b.
Proof. unfold Max2; simpl. destruct (Rlt_dec b a); lra. Qed.
Lemma Max2_ge_r (a b : R) : b <= Max2 a b.
Proof. unfold Max2; simpl. destruct (Rlt_dec b a); lra. Qed.
Lemma Min2_cases (a b : R) : Min2 a b = a \/ Min2 a b = b.
Proof. unfold Min2; simpl. destruct (Rlt_dec a b); auto. Qed.
Lemma Max2_cases (a b : R) : Max2 a b = a \/ Max2 a b = b.
Proof. unfold Max2; simpl. destruct (Rlt_dec b a); auto. Qed.

(** A running minimum and maximum, the new value being either argument of
    [Min2] and [Max2]: they enclose the values seen and the values they
    started from, and each is one of those. *)
Lemma range_fold {A : Type} (val : A -> R) (step : R * R -> A -> R * R) :
  (forall mn mx a,
     fst (step (mn, mx) a) <= mn /\ fst (step (mn, mx) a) <= val a /\
     mx <= snd (step (mn, mx) a) /\ val a <= snd (step (mn, mx) a) /\
     (fst (step (mn, mx) a) = mn \/ fst (step (mn, mx) a) = val a) /\
     (snd (step (mn, mx) a) = mx \/ snd (step (mn, mx) a) = val a)) ->
  forall (l : list A) (mn mx : R),
    let r := fold_left step l (mn, mx) in
    fst r <= mn /\ mx <= snd r /\
    (forall a, In a l -> fst r <= val a <= snd r) /\
    (fst r = mn \/ exists a, In a l /\ fst r = val a) /\
    (snd r = mx \/ exists a, In a l /\ snd r = val a).
Proof.
  intros Hstep. induction l as [|a l IH]; intros mn mx; simpl.
  - repeat split; auto; try lra; intros a [].
  - destruct (step (mn, mx) a) as [mn' mx'] eqn:E.
    pose proof (Hstep mn mx a) as (S1 & S2 & S3 & S4 & S5 & S6).
    rewrite E in S1, S2, S3, S4, S5, S6. simpl in S1, S2, S3, S4, S5, S6.
    specialize (IH mn' mx'). simpl in IH.
    destruct IH as (I1 & I2 & I3 & I4 & I5).
    repeat split.
    + lra.
    + lra.
    + destruct H as [<-|Hin]; [lra|]. apply I3. exact Hin.
    + destruct H as [<-|Hin]; [lra|]. apply I3. exact Hin.
    + destruct I4 as [I4|(b & Hb & I4)].
      * destruct S5 as [S5|S5]; [left; congruence|].
        right. exists a. split; [left; reflexivity|congruence].
      * right. exists b. split; [right; exact Hb|exact I4].
    + destruct I5 as [I5|(b & Hb & I5)].
      * destruct S6 as [S6|S6]; [left; congruence|].
        right. exists a. split; [left; reflexivity|congruence].
      * right. exists b. split; [right; exact Hb|exact I5].
Qed.

Lemma FindValueRange_fold (scalarGrid : UniformGrid R R) :
  let val p := gridGet scalarGrid (OffsetFromIndices scalarGrid p) in
  let pts := allPoints (numPoints0 scalarGrid) (numPoints1 scalarGrid)
               (numPoints2 scalarGrid) in
  let r := FindValueRange scalarGrid in
  (forall p, In p pts -> fst r <= val p <= snd r) /\
  (fst r = FLT_MAX \/ exists p, In p pts /\ fst r = val p) /\
  (snd r = - FLT_MAX \/ exists p, In p pts /\ snd r = val p).
Proof.
  intros val pts r.
  pose proof (range_fold val (tallyRange scalarGrid)) as Hf.
  destruct (Hf ltac:(intros mn mx a; unfold tallyRange, val; simpl;
                     pose proof (Min2_le_l (gridGet scalarGrid (OffsetFromIndices scalarGrid a)) mn);
                     pose proof (Min2_le_r (gridGet scalarGrid (OffsetFromIndices scalarGrid a)) mn);
                     pose proof (Max2_ge_l (gridGet scalarGrid (OffsetFromIndices scalarGrid a)) mx);
                     pose proof (Max2_ge_r (gridGet scalarGrid (OffsetFromIndices scalarGrid a)) mx);
                     pose proof (Min2_cases (gridGet scalarGrid (OffsetFromIndices scalarGrid a)) mn);
                     pose proof (Max2_cases (gridGet scalarGrid (OffsetFromIndices scalarGrid a)) mx);
                     repeat split; tauto)
              pts FLT_MAX (- FLT_MAX)) as (_ & _ & I3 & I4 & I5).
  repeat split; try (apply I3; assumption); assumption.
Qed.

(** X15.  [FindValueRange] encloses the samples: in exact arithmetic the
    minimum and the maximum it returns bound the sample of every point of
    the grid, and when no sample exceeds FLT_MAX in absolute value each of
    the two is the sample of some point. *)
Theorem find_value_range_encloses (scalarGrid : UniformGrid R R) (ix iy iz : nat) :
  (ix < numPoints0 scalarGrid)%nat -> (iy < numPoints1 scalarGrid)%nat ->
  (iz < numPoints2 scalarGrid)%nat ->
  let sample p := gridGet scalarGrid (OffsetFromIndices scalarGrid p) in
  let inGrid (p : Index) :=
    (fst (fst p) < numPoints0 scalarGrid)%nat /\
    (snd (fst p) < numPoints1 scalarGrid)%nat /\
    (snd p < numPoints2 scalarGrid)%nat in
  let valMin := fst (FindValueRange scalarGrid) in
  let valMax := snd (FindValueRange scalarGrid) in
  valMin <= sample (ix, iy, iz) <= valMax /\
  ((forall p, inGrid p -> - FLT_MAX <= sample p <= FLT_MAX) ->
   (exists p, inGrid p /\ valMin = sample p) /\
   (exists q, inGrid q /\ valMax = sample q)).
Proof.
  intros Hx Hy Hz sample inGrid valMin valMax.
  destruct (FindValueRange_fold scalarGrid) as (I3 & I4 & I5). cbv zeta in I3, I4, I5.
  assert (Hin : In (ix, iy, iz) (allPoints (numPoints0 scalarGrid)
                  (numPoints1 scalarGrid) (numPoints2 scalarGrid)))
    by (apply allPoints_In; auto).
  pose proof (I3 _ Hin) as Hb. fold valMin valMax in Hb, I4, I5.
  split; [exact Hb|]. intros Hbound.
  assert (Hp : inGrid (ix, iy, iz)) by (unfold inGrid; simpl; auto).
  pose proof (Hbound _ Hp) as Hb0. fold (sample (ix, iy, iz)) in Hb.
  split.
  - destruct I4 as [E|([[px py] pz] & Hpin & E)].
    + exists (ix, iy, iz). split; [exact Hp|]. unfold sample in *. lra.
    + exists (px, py, pz). split; [|exact E].
      apply allPoints_In in Hpin. unfold inGrid; simpl. tauto.
  - destruct I5 as [E|([[px py] pz] & Hpin & E)].
    + exists (ix, iy, iz). split; [exact Hp|]. unfold sample in *. lra.
    + exists (px, py, pz). split; [|exact E].
      apply allPoints_In in Hpin. unfold inGrid; simpl. tauto.
Qed.

Lemma FindMagnitudeRange_fold (vec : UniformGrid R (Vec3 R)) :
  let val p := Mag2 (gridGet vec (offsetXYZ (numPoints0 vec) (numPoints1 vec) p)) in
  let pts := allPoints (numPoints0 vec) (numPoints1 vec) (numPoints2 vec) in
  let r := fold_left (tallyMagnitude vec) pts (FLT_MAX, - FLT_MAX) in
  forall p, In p pts -> fst r <= val p <= snd r.
Proof.
  intros val pts r.
  pose proof (range_fold val (tallyMagnitude vec)) as Hf.
  destruct (Hf ltac:(intros mn mx a; unfold tallyMagnitude, val; cbn [GetNumPoints fst snd];
                     pose proof (Min2_le_l mn (Mag2 (gridGet vec (offsetXYZ (numPoints0 vec) (numPoints1 vec) a))));
                     pose proof (Min2_le_r mn (Mag2 (gridGet vec (offsetXYZ (numPoints0 vec) (numPoints1 vec) a))));
                     pose proof (Max2_ge_l mx (Mag2 (gridGet vec (offsetXYZ (numPoints0 vec) (numPoints1 vec) a))));
                     pose proof (Max2_ge_r mx (Mag2 (gridGet vec (offsetXYZ (numPoints0 vec) (numPoints1 vec) a))));
                     pose proof (Min2_cases mn (Mag2 (gridGet vec (offsetXYZ (numPoints0 vec) (numPoints1 vec) a))));
                     pose proof (Max2_cases mx (Mag2 (gridGet vec (offsetXYZ (numPoints0 vec) (numPoints1 vec) a))));
                     repeat split; tauto)
              pts FLT_MAX (- FLT_MAX)) as (_ & _ & I3 & _ & _).
  exact I3.
Qed.

(** X16.  [FindMagnitudeRange] encloses the magnitudes: in exact arithmetic
    the two values it returns bound the Euclidean length of the sample of
    every point of the grid. *)
Theorem find_magnitude_range_encloses (vec : UniformGrid R (Vec3 R)) (ix iy iz : nat) :
  (ix < numPoints0 vec)%nat -> (iy < numPoints1 vec)%nat -> (iz < numPoints2 vec)%nat ->
  let magnitude := Magnitude (gridGet vec (OffsetFromIndices vec (ix, iy, iz))) in
  fst (FindMagnitudeRange vec) <= magnitude <= snd (FindMagnitudeRange vec).
Proof.
  intros Hx Hy Hz magnitude.
  assert (Hin : In (ix, iy, iz) (allPoints (numPoints0 vec) (numPoints1 vec)
                  (numPoints2 vec))) by (apply allPoints_In; auto).
  pose proof (FindMagnitudeRange_fold vec (ix, iy, iz) Hin) as Hb. cbv beta zeta in Hb.
  rewrite offsetXYZ_eq in Hb.
  unfold FindMagnitudeRange. cbn [GetNumPoints].
  destruct (fold_left (tallyMagnitude vec)
              (allPoints (numPoints0 vec) (numPoints1 vec) (numPoints2 vec))
              (FLT_MAX, fopp FLT_MAX)) as [magMin magMax] eqn:E.
  change (fopp FLT_MAX) with (- @FLT_MAX R _) in E. rewrite E in Hb.
  cbn [fst snd] in *.
  change magnitude
    with (sqrt (Mag2 (gridGet vec (OffsetFromIndices vec (ix, iy, iz))))).
  change (OffsetFromIndices vec (ix, iy, iz))
    with (ix + numPoints0 vec * iy + numPoints0 vec * numPoints1 vec * iz)%nat.
  split; apply sqrt_le_1_alt; lra.
Qed.

Lemma rowLe_rowMin_l (a b : Vec3 R) : rowLe (rowMin a b) a.
Proof. unfold rowLe, rowMin; simpl. repeat split; apply Min2_le_l. Qed.
Lemma rowLe_rowMin_r (a b : Vec3 R) : rowLe (rowMin a b) b.
Proof. unfold rowLe, rowMin; simpl. repeat split; apply Min2_le_r. Qed.
Lemma rowLe_rowMax_l (a b : Vec3 R) : rowLe a (rowMax a b).
Proof. unfold rowLe, rowMax; simpl. repeat split; apply Max2_ge_l. Qed.
Lemma rowLe_rowMax_r (a b : Vec3 R) : rowLe b (rowMax a b).
Proof. unfold rowLe, rowMax; simpl. repeat split; apply Max2_ge_r. Qed.
Lemma rowLe_trans (a b c : Vec3 R) : rowLe a b -> rowLe b c -> rowLe a c.
Proof. unfold rowLe. intros (?&?&?) (?&?&?). repeat split; lra. Qed.
Lemma mat33Le_trans (a b c : Mat33 R) : mat33Le a b -> mat33Le b c -> mat33Le a c.
Proof.
  unfold mat33Le. intros (?&?&?) (?&?&?).
  repeat split; eapply rowLe_trans; eassumption.
Qed.

Lemma ComputeStatistics_fold (grid : UniformGrid R (Mat33 R)) :
  forall (l : list Index) (mn mx : Mat33 R),
    let val p := gridGet grid (offsetXYZ (numPoints0 grid) (numPoints1 grid) p) in
    let r := fold_left (tallyMat33 grid) l (mn, mx) in
    mat33Le (fst r) mn /\ mat33Le mx (snd r) /\
    forall p, In p l -> mat33Le (fst r) (val p) /\ mat33Le (val p) (snd r).
Proof.
  induction l as [|a l IH]; intros mn mx val; simpl.
  - split; [|split]; [| |intros p []];
      unfold mat33Le, rowLe; repeat split; apply Rle_refl.
  - specialize (IH (fst (tallyMat33 grid (mn, mx) a)) (snd (tallyMat33 grid (mn, mx) a))).
    rewrite <- surjective_pairing in IH. cbv zeta in IH.
    destruct IH as (I1 & I2 & I3).
    set (r := fold_left (tallyMat33 grid) l (tallyMat33 grid (mn, mx) a)) in *.
    assert (S1 : mat33Le (fst (tallyMat33 grid (mn, mx) a)) mn)
      by (unfold tallyMat33, mat33Le; simpl; repeat split; apply Min2_le_l).
    assert (S2 : mat33Le (fst (tallyMat33 grid (mn, mx) a)) (val a))
      by (unfold tallyMat33, mat33Le, val; simpl; repeat split; apply Min2_le_r).
    assert (S3 : mat33Le mx (snd (tallyMat33 grid (mn, mx) a)))
      by (unfold tallyMat33, mat33Le; simpl; repeat split; apply Max2_ge_l).
    assert (S4 : mat33Le (val a) (snd (tallyMat33 grid (mn, mx) a)))
      by (unfold tallyMat33, mat33Le, val; simpl; repeat split; apply Max2_ge_r).
    split; [eapply mat33Le_trans; eassumption|].
    split; [eapply mat33Le_trans; eassumption|].
    intros p [<-|Hp].
    + split; eapply mat33Le_trans; eassumption.
    + apply I3. exact Hp.
Qed.

(** X17.  [UniformGrid<Mat33>::ComputeStatistics] encloses the samples,
    component by component: in exact arithmetic each of the nine components
    of the matrix at any point of the grid lies between the same component
    of the minimum and of the maximum it returns. *)
Theorem matrix_statistics_enclose (grid : UniformGrid R (Mat33 R)) (ix iy iz : nat) :
  (ix < numPoints0 grid)%nat -> (iy < numPoints1 grid)%nat -> (iz < numPoints2 grid)%nat ->
  let sample := gridGet grid (OffsetFromIndices grid (ix, iy, iz)) in
  mat33Le (fst (ComputeStatistics grid)) sample /\
  mat33Le sample (snd (ComputeStatistics grid)).
Proof.
  intros Hx Hy Hz sample.
  assert (Hin : In (ix, iy, iz) (allPoints (numPoints0 grid) (numPoints1 grid)
                  (numPoints2 grid))) by (apply allPoints_In; auto).
  destruct (ComputeStatistics_fold grid
              (allPoints (numPoints0 grid) (numPoints1 grid) (numPoints2 grid))
              (Mat33.mk (Vec3.mk FLT_MAX FLT_MAX FLT_MAX)
                 (Vec3.mk FLT_MAX FLT_MAX FLT_MAX) (Vec3.mk FLT_MAX FLT_MAX FLT_MAX))
              (Mat33.mk (Vec3.mk (fopp FLT_MAX) (fopp FLT_MAX) (fopp FLT_MAX))
                 (Vec3.mk (fopp FLT_MAX) (fopp FLT_MAX) (fopp FLT_MAX))
                 (Vec3.mk (fopp FLT_MAX) (fopp FLT_MAX) (fopp FLT_MAX))))
    as (_ & _ & I3).
  specialize (I3 _ Hin). cbv beta zeta in I3. rewrite offsetXYZ_eq in I3. exact I3.
Qed.

End RangesExact.
Lemma length_flat_map_const {A B : Type} (f : A -> list B) (k : nat) (l : list A) :
  (forall a, In a l -> length (f a) = k) -> length (flat_map f l) = length l * k.
Proof.
  induction l as [|a l IH]; intros Hk; simpl; [reflexivity|].
  rewrite length_app, Hk by (left; reflexivity).
  rewrite IH by (intros; apply Hk; right; assumption). reflexivity.
Qed.

Lemma allPoints_length (end0 end1 end2 : nat) :
  length (allPoints end0 end1 end2) = end0 * end1 * end2.
Proof.
  unfold allPoints.
  rewrite (length_flat_map_const _ (end1 * end0)).
  - rewrite forLoop_length. lia.
  - intros z _. rewrite (length_flat_map_const _ end0).
    + rewrite forLoop_length. reflexivity.
    + intros y _. rewrite length_map. apply forLoop_length.
Qed.

Section StatsGeneric.
Context {F : Type} `{Scalar F} `{Inhabited F}.

(** The minimum and the maximum that [FindValueStats] tallies are the ones
    [FindValueRange] tallies. *)
Lemma tallyValue_range (scalarGrid : UniformGrid F F) :
  forall (l : list Index) (valMin valMax sum sum2 : F),
    fst (fst (fold_left (tallyValue scalarGrid) l (valMin, valMax, sum, sum2)))
    = fold_left (tallyRange scalarGrid) l (valMin, valMax).
Proof.
  induction l as [|p l IH]; intros valMin valMax sum sum2; [reflexivity|].
  simpl. apply IH.
Qed.

End StatsGeneric.

Section StatsExact.
#[local] Open Scope R_scope.

Lemma tallyValue_sum (scalarGrid : UniformGrid R R) :
  forall (l : list Index) (n : nat) (valMin valMax sum sum2 : R),
    INR n * valMin <= sum <= INR n * valMax ->
    let r := fold_left (tallyValue scalarGrid) l (valMin, valMax, sum, sum2) in
    INR (n + length l) * fst (fst (fst r)) <= snd (fst r)
    <= INR (n + length l) * snd (fst (fst r)).
Proof.
  induction l as [|p l IH]; intros n valMin valMax sum sum2 Hinv.
  - simpl. rewrite Nat.add_0_r. exact Hinv.
  - simpl fold_left. simpl length.
    replace (n + S (length l))%nat with (S n + length l)%nat by lia.
    apply IH. rewrite S_INR.
    set (v := gridGet scalarGrid (OffsetFromIndices scalarGrid p)).
    pose proof (Min2_le_l v valMin). pose proof (Min2_le_r v valMin).
    pose proof (Max2_ge_l v valMax). pose proof (Max2_ge_r v valMax).
    pose proof (pos_INR n). simpl fadd. nra.
Qed.

(** X18.  The four outputs of [FindValueStats] are consistent: its minimum
    and maximum are the ones [FindValueRange] returns, and in exact
    arithmetic, on a grid that holds one sample per point, the mean lies
    between the minimum and the maximum and the standard deviation is not
    negative. *)
Theorem find_value_stats_consistent (scalarGrid : UniformGrid R R) (ix iy iz : nat) :
  Size scalarGrid = GetGridCapacity scalarGrid ->
  (ix < numPoints0 scalarGrid)%nat -> (iy < numPoints1 scalarGrid)%nat ->
  (iz < numPoints2 scalarGrid)%nat ->
  let stats := FindValueStats scalarGrid in
  let valMin := fst (fst (fst stats)) in
  let valMax := snd (fst (fst stats)) in
  let valMean := snd (fst stats) in
  let valStdDev := snd stats in
  (valMin, valMax) = FindValueRange scalarGrid /\
  valMin <= valMean <= valMax /\ 0 <= valStdDev.
Proof.
  intros Hsize Hx Hy Hz stats valMin valMax valMean valStdDev.
  unfold valMin, valMax, valMean, valStdDev, stats, FindValueStats, FindValueRange.
  cbn [GetNumPoints].
  set (pts := allPoints (numPoints0 scalarGrid) (numPoints1 scalarGrid)
                (numPoints2 scalarGrid)).
  pose proof (tallyValue_range scalarGrid pts FLT_MAX (fopp FLT_MAX) (fconst 0)
                (fconst 0)) as Hrange.
  pose proof (tallyValue_sum scalarGrid pts 0 FLT_MAX (fopp FLT_MAX) (fconst 0)
                (fconst 0)) as Hsum.
  cbv zeta in Hsum.
  destruct (fold_left (tallyValue scalarGrid) pts
              (FLT_MAX, fopp FLT_MAX, fconst 0, fconst 0))
    as [[[mn mx] sum] sum2].
  cbn [fst snd] in *.
  assert (Hlen : length pts = Size scalarGrid).
  { unfold pts. rewrite allPoints_length, Hsize. reflexivity. }
  assert (Hpos : (0 < length pts)%nat).
  { assert (Hin : In (ix, iy, iz) pts) by (apply allPoints_In; auto).
    destruct pts; [destruct Hin|simpl; lia]. }
  rewrite Hlen in Hsum, Hpos.
  split; [rewrite <- Hrange; reflexivity|].
  split.
  - assert (Hn : 0 < INR (Size scalarGrid)) by (apply lt_0_INR; exact Hpos).
    simpl (0 + _)%nat in Hsum.
    specialize (Hsum ltac:(simpl; unfold Q2R; simpl; lra)).
    simpl fdiv. simpl fofnat. unfold Rdiv.
    pose proof (Rinv_0_lt_compat _ Hn) as Hi.
    assert (E : INR (Size scalarGrid) * / INR (Size scalarGrid) = 1)
      by (field; lra).
    split.
    + replace mn with (INR (Size scalarGrid) * mn * / INR (Size scalarGrid))
        by (field; lra).
      apply Rmult_le_compat_r; lra.
    + replace mx with (INR (Size scalarGrid) * mx * / INR (Size scalarGrid))
        by (field; lra).
      apply Rmult_le_compat_r; lra.
  - apply sqrt_pos.
Qed.

Lemma relaxPoint_tallies (lap : UniformGrid R (Vec3 R)) :
  forall (l : list Index) (st : RelaxState),
    0 <= mMin (rsStats st) ->
    INR (rsCount st) * mMin (rsStats st) <= mMean (rsStats st)
      <= INR (rsCount st) * mMax (rsStats st) ->
    let st' := fold_left (relaxPoint lap) l st in
    0 <= mMin (rsStats st') /\
    INR (rsCount st') * mMin (rsStats st') <= mMean (rsStats st')
      <= INR (rsCount st') * mMax (rsStats st').
Proof.
  induction l as [|p l IH]; intros st Hmin Hinv; [simpl; auto|].
  simpl fold_left. apply IH.
  - unfold relaxPoint. cbn [rsStats mMin].
    match goal with |- 0 <= Min2 ?r _ =>
      assert (Hr : 0 <= r) by (unfold Magnitude; apply sqrt_pos);
      destruct (Min2_cases r (mMin (rsStats st))) as [-> | ->]; assumption
    end.
  - unfold relaxPoint. cbn [rsStats rsCount mMin mMax mMean].
    match goal with |- _ * Min2 ?m _ <= _ <= _ =>
      assert (Hr : 0 <= m) by (unfold Magnitude; apply sqrt_pos);
      set (r := m) in *
    end.
    clearbody r. rewrite S_INR.
    pose proof (Min2_le_l r (mMin (rsStats st))).
    pose proof (Min2_le_r r (mMin (rsStats st))).
    pose proof (Max2_ge_l r (mMax (rsStats st))).
    pose proof (Max2_ge_r r (mMax (rsStats st))).
    pose proof (pos_INR (rsCount st)). simpl fadd. nra.
Qed.

(** X19.  The residual statistics of a pass are ordered: in exact
    arithmetic, when the pass relaxes at least one point, the statistics it
    reports satisfy 0 <= minimum <= mean <= maximum, for either boundary
    condition.  (Rounding can break the order: see
    [residual_mean_rounds_above_maximum].) *)
Theorem residual_statistics_ordered (soln lap : UniformGrid R (Vec3 R))
    (izStart izEnd : nat) (redOrBlack : GaussSeidelPortionE)
    (boundaryCondition : BoundaryConditionE) (residualStats : Stats_Float R)
    (ix iy iz : nat) :
  ShapeMatches soln lap = true -> Size soln = GetGridCapacity soln ->
  (izEnd <= numPoints2 lap)%nat ->
  In (ix, iy, iz)
     (interiorPoints (numPoints0 lap) (numPoints1 lap) (numPoints2 lap)
        izStart izEnd redOrBlack) ->
  let stats := snd (StepTowardVectorPoissonSolution soln lap izStart izEnd
                      redOrBlack boundaryCondition residualStats) in
  0 <= mMin stats /\ mMin stats <= mMean stats /\ mMean stats <= mMax stats.
Proof.
  intros _ _ _ Hin stats. unfold stats, StepTowardVectorPoissonSolution.
  cbn [snd GetNumPoints].
  set (pts := interiorPoints (numPoints0 lap) (numPoints1 lap) (numPoints2 lap)
                izStart izEnd redOrBlack) in *.
  set (st0 := {| rsSoln := soln;
                 rsStats := {| mMean := fconst 0; mStdDev := fconst 0;
                               mMin := FLT_MAX; mMax := fopp FLT_MAX |};
                 rsCount := 0 |}).
  pose proof (relaxPoint_tallies lap pts st0) as Ht.
  pose proof (rsCount_fold lap pts st0) as Hc.
  assert (Hpos : (0 < length pts)%nat) by (destruct pts; [destruct Hin|simpl; lia]).
  specialize (Ht ltac:(simpl; lra) ltac:(simpl; unfold Q2R; simpl; lra)).
  cbv zeta in Ht. destruct Ht as (Hmin & Hlo & Hhi).
  set (st1 := fold_left (relaxPoint lap) pts st0) in *.
  simpl rsCount in Hc. rewrite Nat.add_0_r in Hc. rewrite Hc in Hlo, Hhi |- *.
  unfold cookResidualStats.
  destruct (Nat.eqb_spec (length pts) 0) as [E|_]; [lia|].
  cbn [mMin mMean mMax]. simpl fdiv. simpl fofnat.
  assert (Hn : 0 < INR (length pts)) by (apply lt_0_INR; exact Hpos).
  pose proof (Rinv_0_lt_compat _ Hn) as Hi.
  split; [exact Hmin|]. unfold Rdiv. split.
  - replace (mMin (rsStats st1))
      with (INR (length pts) * mMin (rsStats st1) * / INR (length pts))
      by (field; lra).
    apply Rmult_le_compat_r; lra.
  - replace (mMax (rsStats st1))
      with (INR (length pts) * mMax (rsStats st1) * / INR (length pts))
      by (field; lra).
    apply Rmult_le_compat_r; lra.
Qed.

End StatsExact.

(** In binary32 the order can fail by rounding: on the 3x3x8 box whose three
    black interior points have equal residuals, the mean the black pass
    reports is above the maximum it reports. *)
Lemma residual_mean_rounds_above_maximum :
  let stats := snd (SolveVectorPoisson ResidualExamples.soln ResidualExamples.lap 1
                      BC_DIRICHLET FloatExamples.stats0) in
  fltb (mMax stats) (mMean stats) = true.
Proof. vm_compute. reflexivity. Qed.

(** ** Empty grids *)

(** X20.  On a grid without points (some axis has no point, and no sample is
    stored) the reductions return what their accumulators start from: in
    binary32, [FindValueRange] returns the inverted range (FLT_MAX,
    -FLT_MAX), [FindMagnitudeRange] returns the root of FLT_MAX and, for the
    maximum, the root of -FLT_MAX, a NaN; the mean of [FindValueStats] is
    0/0, a NaN. *)
Theorem reductions_of_empty_grid (scalarGrid : UniformGrid spec_float spec_float)
    (vec : UniformGrid spec_float (Vec3 spec_float)) :
  GetGridCapacity scalarGrid = 0 -> Size scalarGrid = 0 ->
  GetGridCapacity vec = 0 ->
  FindValueRange scalarGrid = (FLT_MAX, fopp FLT_MAX) /\
  fst (FindMagnitudeRange vec) = fsqrt FLT_MAX /\
  snd (FindMagnitudeRange vec) = S754_nan /\
  fst (fst (fst (FindValueStats scalarGrid))) = FLT_MAX /\
  snd (fst (fst (FindValueStats scalarGrid))) = fopp FLT_MAX /\
  snd (fst (FindValueStats scalarGrid)) = S754_nan.
Proof.
  intros Hcap Hsize Hvec.
  assert (Hs : allPoints (numPoints0 scalarGrid) (numPoints1 scalarGrid)
                 (numPoints2 scalarGrid) = []).
  { apply allPoints_nil. unfold GetGridCapacity in Hcap.
    apply Nat.eq_mul_0 in Hcap as [Hcap|Hcap]; [|auto].
    apply Nat.eq_mul_0 in Hcap as [Hcap|Hcap]; auto. }
  assert (Hv : allPoints (numPoints0 vec) (numPoints1 vec) (numPoints2 vec) = []).
  { apply allPoints_nil. unfold GetGridCapacity in Hvec.
    apply Nat.eq_mul_0 in Hvec as [Hvec|Hvec]; [|auto].
    apply Nat.eq_mul_0 in Hvec as [Hvec|Hvec]; auto. }
  unfold FindValueRange, FindMagnitudeRange, FindValueStats. cbn [GetNumPoints].
  rewrite Hs, Hv, Hsize. cbn [fold_left fst snd].
  repeat split; reflexivity.
Qed.
(** ** Worked cases *)

(** On the 3x3x3 boxes the three operators leave the same samples in a zeroed
    output grid and in one that held other values. *)
Lemma operators_overwrite_every_sample_witness :
  contents (ComputeGradient ConditionalExamples.gradZero ConditionalExamples.rampX)
  = contents (ComputeGradient OperatorExamples.gradOnes ConditionalExamples.rampX) /\
  contents (ComputeJacobian OperatorExamples.jacZero FloatExamples.lapCentre)
  = contents (ComputeJacobian OperatorExamples.jacSkew FloatExamples.lapCentre) /\
  contents (ComputeLaplacian FloatExamples.solnZero FloatExamples.lapCentre)
  = contents (ComputeLaplacian OperatorExamples.gradOnes FloatExamples.lapCentre).
Proof.
  destruct (operators_overwrite_every_sample ConditionalExamples.rampX
              FloatExamples.lapCentre
              ltac:(simpl; lia) ltac:(simpl; lia) ltac:(simpl; lia)
              ltac:(simpl; lia) ltac:(simpl; lia) ltac:(simpl; lia))
    as (Hg & Hj & Hl).
  split; [apply Hg; reflexivity|]. split; [apply Hj; reflexivity|apply Hl; reflexivity].
Defined.

(** The curl of the matrix grid that holds the Jacobian of the rotation about
    z at every point. *)
Lemma curl_is_pointwise_map_witness :
  contents (ComputeCurlFromJacobian FloatExamples.solnZero OperatorExamples.jacSkew)
  = map curlOfJacobian (contents OperatorExamples.jacSkew).
Proof.
  apply (curl_is_pointwise_map FloatExamples.solnZero OperatorExamples.jacSkew);
    reflexivity.
Defined.

(** The x component, at the point (1,1,2) of the 3x3x3 box. *)
Lemma jacobian_columns_are_component_gradients_witness :
  let j := gridGet (ComputeJacobian OperatorExamples.jacZero FloatExamples.lapCentre)
                   (OffsetFromIndices OperatorExamples.jacZero (1, 1, 2)) in
  gridGet (ComputeGradient FloatExamples.solnZero
             (componentGrid Vec3.x FloatExamples.lapCentre))
          (OffsetFromIndices FloatExamples.solnZero (1, 1, 2))
  = Vec3.mk (Vec3.x (Mat33.x j)) (Vec3.x (Mat33.y j)) (Vec3.x (Mat33.z j)).
Proof.
  apply (jacobian_columns_are_component_gradients Vec3.x OperatorExamples.jacZero
           FloatExamples.solnZero FloatExamples.lapCentre 1 1 2);
    [left; reflexivity | reflexivity | reflexivity | reflexivity | reflexivity
    | simpl; lia | simpl; lia | simpl; lia].
Defined.

(** The sample of the point (0,1,1) of the 3x3x3 box keeps its (1,1,1). *)
Lemma conditional_gradient_skips_index_zero_witness :
  ~ In (0, 1, 1) (conditionalPoints 3 3 1 3) /\
  gridGet (ComputeGradientConditionally OperatorExamples.gradOnes
             ConditionalExamples.rampX)
          (OffsetFromIndices OperatorExamples.gradOnes (0, 1, 1))
  = gridGet OperatorExamples.gradOnes
            (OffsetFromIndices OperatorExamples.gradOnes (0, 1, 1)).
Proof.
  apply (conditional_gradient_skips_index_zero OperatorExamples.gradOnes
           ConditionalExamples.rampX 0 1 1);
    [reflexivity | reflexivity | simpl; lia | simpl; lia | simpl; lia
    | left; reflexivity].
Defined.

(** The slices [1,2) and [2,4) of the 3x3x5 ramp. *)
Lemma gradient_interior_slices_compose_witness :
  ComputeGradientInteriorSlice
    (ComputeGradientInteriorSlice OperatorExamples.gradOnes5
       OperatorExamples.rampX5 1 2)
    OperatorExamples.rampX5 2 4
  = ComputeGradientInteriorSlice OperatorExamples.gradOnes5
      OperatorExamples.rampX5 1 4 /\
  ComputeGradientInteriorSlice
    (ComputeGradientInteriorSlice OperatorExamples.gradOnes5
       OperatorExamples.rampX5 2 4)
    OperatorExamples.rampX5 1 2
  = ComputeGradientInteriorSlice OperatorExamples.gradOnes5
      OperatorExamples.rampX5 1 4.
Proof.
  apply (gradient_interior_slices_compose OperatorExamples.gradOnes5
           OperatorExamples.rampX5 1 2 4);
    [reflexivity | reflexivity | simpl; lia | simpl; lia | simpl; lia
    | lia | lia | lia | simpl; lia].
Defined.

(** The slices [0,4) and [4,8) of the black pass on the 3x3x8 box. *)
Lemma dirichlet_pass_slices_compose_witness :
  let pass g izStart izEnd stats :=
    fst (StepTowardVectorPoissonSolution g ResidualExamples.lap izStart izEnd
           GS_BLACK BC_DIRICHLET stats) in
  pass (pass ResidualExamples.soln 0 4 FloatExamples.stats0) 4 8 FloatExamples.stats0
  = pass ResidualExamples.soln 0 8 FloatExamples.stats0 /\
  pass (pass ResidualExamples.soln 4 8 FloatExamples.stats0) 0 4 FloatExamples.stats0
  = pass ResidualExamples.soln 0 8 FloatExamples.stats0.
Proof.
  apply (dirichlet_pass_slices_compose ResidualExamples.soln ResidualExamples.lap
           0 4 8 GS_BLACK FloatExamples.stats0 FloatExamples.stats0
           FloatExamples.stats0);
    [reflexivity | reflexivity | simpl; lia | simpl; lia | discriminate
    | lia | lia | simpl; lia].
Defined.

(** Three rounds on the 2x3x3 box. *)
Lemma dirichlet_solve_without_interior_witness :
  SolveVectorPoisson OperatorExamples.thinSoln OperatorExamples.thinLap 3
    BC_DIRICHLET FloatExamples.stats0
  = (OperatorExamples.thinSoln,
     mkStats (fconst 0) (fconst 0) FLT_MAX (fopp FLT_MAX)).
Proof.
  apply (dirichlet_solve_without_interior OperatorExamples.thinSoln
           OperatorExamples.thinLap 3 FloatExamples.stats0);
    [reflexivity | reflexivity | simpl; lia | simpl; lia | simpl; lia
    | left; simpl; lia].
Defined.

(** The face point (2,1,1) of the 3x3x3 box, which a round of a red and a
    black pass leaves stale. *)
Lemma neumann_full_pass_mirrors_interior_witness :
  let after := fst (StepTowardVectorPoissonSolution FloatExamples.solnZero
                      FloatExamples.lapCentre 0 (numPoints2 FloatExamples.lapCentre)
                      GS_BOTH BC_NEUMANN FloatExamples.stats0) in
  gridGet after (pointOffset FloatExamples.lapCentre (2, 1, 1))
  = gridGet after (interiorOffset FloatExamples.lapCentre (2, 1, 1)).
Proof.
  apply (neumann_full_pass_mirrors_interior FloatExamples.solnZero
           FloatExamples.lapCentre FloatExamples.stats0 2 1 1);
    [reflexivity | reflexivity | simpl; lia | simpl; lia | simpl; lia
    | simpl; lia | simpl; lia | simpl; lia
    | right; right; right; left; reflexivity].
Defined.

Section ExactWitnesses.
#[local] Open Scope R_scope.

(** Two rounds on the field (x^2, 0, 0) of the 3x3x3 box. *)
Lemma solver_keeps_solution_of_its_laplacian_witness :
  fst (SolveVectorPoisson FieldExamples.parabola
         (ComputeLaplacian FieldExamples.lapZero FieldExamples.parabola) 2
         BC_DIRICHLET ExactExamples.stats0)
  = FieldExamples.parabola.
Proof.
  apply (solver_keeps_solution_of_its_laplacian FieldExamples.parabola
           FieldExamples.lapZero 2 ExactExamples.stats0);
    [reflexivity | reflexivity | reflexivity | simpl; lia | simpl; lia | simpl; lia
    | reflexivity | simpl; lra].
Defined.

(** The field of [FieldExamples.plane] is 1 + 2x + 3y + 4z. *)
Lemma plane_affine : isAffineScalar FieldExamples.plane 1 (Vec3.mk 2 3 4).
Proof.
  intros ix iy iz Hx Hy Hz r. unfold r. simpl in Hx, Hy, Hz.
  assert (Cx : ix = 0%nat \/ ix = 1%nat) by lia.
  assert (Cy : iy = 0%nat \/ iy = 1%nat) by lia.
  assert (Cz : iz = 0%nat \/ iz = 1%nat) by lia.
  destruct Cx as [-> | ->], Cy as [-> | ->], Cz as [-> | ->];
    unfold gridGet; simpl; lra.
Qed.

(** The gradient of 1 + 2x + 3y + 4z at the face point (1,0,1). *)
Lemma gradient_of_affine_field_witness :
  gridGet (ComputeGradient GradientExamples.gradZero FieldExamples.plane)
          (OffsetFromIndices GradientExamples.gradZero (1, 0, 1)%nat)
  = Vec3.mk 2 3 4.
Proof.
  apply (gradient_of_affine_field GradientExamples.gradZero FieldExamples.plane 1
           (Vec3.mk 2 3 4) 1 0 1);
    [reflexivity | reflexivity | simpl; lia | simpl; lia | simpl; lia
    | simpl; lra | simpl; lra | simpl; lra | exact plane_affine
    | simpl; lia | simpl; lia | simpl; lia].
Defined.

(** The field of [FieldExamples.rotation] is affine, with derivatives
    (0,1,0) along x and (-1,0,0) along y. *)
Lemma rotation_affine :
  isAffineVector FieldExamples.rotation (Vec3.mk 0 0 0) (Vec3.mk 0 1 0)
    (Vec3.mk (-1) 0 0) (Vec3.mk 0 0 0).
Proof.
  intros ix iy iz Hx Hy Hz r. unfold r. simpl in Hx, Hy, Hz.
  assert (Cx : ix = 0%nat \/ ix = 1%nat) by lia.
  assert (Cy : iy = 0%nat \/ iy = 1%nat) by lia.
  assert (Cz : iz = 0%nat \/ iz = 1%nat) by lia.
  destruct Cx as [-> | ->], Cy as [-> | ->], Cz as [-> | ->];
    unfold gridGet, vadd, svmul; simpl; f_equal; lra.
Qed.

(** The Jacobian of the rotation about z at the corner (0,1,1). *)
Lemma jacobian_of_affine_field_witness :
  gridGet (ComputeJacobian FieldExamples.jacZero FieldExamples.rotation)
          (OffsetFromIndices FieldExamples.jacZero (0, 1, 1)%nat)
  = Mat33.mk (Vec3.mk 0 1 0) (Vec3.mk (-1) 0 0) (Vec3.mk 0 0 0).
Proof.
  apply (jacobian_of_affine_field FieldExamples.jacZero FieldExamples.rotation
           (Vec3.mk 0 0 0) (Vec3.mk 0 1 0) (Vec3.mk (-1) 0 0) (Vec3.mk 0 0 0) 0 1 1);
    [reflexivity | reflexivity | simpl; lia | simpl; lia | simpl; lia
    | simpl; lra | simpl; lra | simpl; lra | exact rotation_affine
    | simpl; lia | simpl; lia | simpl; lia].
Defined.

(** It is the rotation about z with angular velocity (0,0,1). *)
Lemma rotation_rigid :
  isRotationField FieldExamples.rotation (Vec3.mk 0 0 1) (Vec3.mk 0 0 0).
Proof.
  intros ix iy iz Hx Hy Hz. simpl in Hx, Hy, Hz.
  assert (Cx : ix = 0%nat \/ ix = 1%nat) by lia.
  assert (Cy : iy = 0%nat \/ iy = 1%nat) by lia.
  assert (Cz : iz = 0%nat \/ iz = 1%nat) by lia.
  destruct Cx as [-> | ->], Cy as [-> | ->], Cz as [-> | ->];
    unfold gridGet, cross, vsub, positionOf; simpl; f_equal; lra.
Qed.

(** The curl of the rotation about z with angular velocity (0,0,1) is (0,0,2). *)
Lemma curl_of_rigid_rotation_witness :
  gridGet (ComputeCurlFromJacobian FieldExamples.curlZero
             (ComputeJacobian FieldExamples.jacZero FieldExamples.rotation))
          (OffsetFromIndices FieldExamples.curlZero (1, 1, 0)%nat)
  = svmul 2 (Vec3.mk 0 0 1).
Proof.
  apply (curl_of_rigid_rotation FieldExamples.curlZero FieldExamples.jacZero
           FieldExamples.rotation (Vec3.mk 0 0 1) (Vec3.mk 0 0 0) 1 1 0);
    [reflexivity | reflexivity | reflexivity | reflexivity
    | simpl; lia | simpl; lia | simpl; lia
    | simpl; lra | simpl; lra | simpl; lra | exact rotation_rigid
    | simpl; lia | simpl; lia | simpl; lia].
Defined.

(** The field of [FieldExamples.parabola] is (x^2, 0, 0). *)
Lemma parabola_quadratic :
  isQuadraticVector FieldExamples.parabola (Vec3.mk 0 0 0) (Vec3.mk 0 0 0)
    (Vec3.mk 0 0 0) (Vec3.mk 0 0 0) (Vec3.mk 1 0 0) (Vec3.mk 0 0 0) (Vec3.mk 0 0 0).
Proof.
  intros ix iy iz Hx Hy Hz r. unfold r. simpl in Hx, Hy, Hz.
  assert (Cx : ix = 0%nat \/ ix = 1%nat \/ ix = 2%nat) by lia.
  assert (Cy : iy = 0%nat \/ iy = 1%nat \/ iy = 2%nat) by lia.
  assert (Cz : iz = 0%nat \/ iz = 1%nat \/ iz = 2%nat) by lia.
  destruct Cx as [-> | [-> | ->]], Cy as [-> | [-> | ->]], Cz as [-> | [-> | ->]];
    unfold gridGet, vadd, svmul; simpl; f_equal; lra.
Qed.

(** The Laplacian of (x^2, 0, 0) at the face point (0,1,2) is (2,0,0). *)
Lemma laplacian_of_quadratic_field_witness :
  gridGet (ComputeLaplacian FieldExamples.lapZero FieldExamples.parabola)
          (OffsetFromIndices FieldExamples.lapZero (0, 1, 2)%nat)
  = svmul 2 (vadd (vadd (Vec3.mk 1 0 0) (Vec3.mk 0 0 0)) (Vec3.mk 0 0 0)).
Proof.
  apply (laplacian_of_quadratic_field FieldExamples.lapZero FieldExamples.parabola
           (Vec3.mk 0 0 0) (Vec3.mk 0 0 0) (Vec3.mk 0 0 0) (Vec3.mk 0 0 0)
           (Vec3.mk 1 0 0) (Vec3.mk 0 0 0) (Vec3.mk 0 0 0) 0 1 2);
    [reflexivity | reflexivity | simpl; lia | simpl; lia | simpl; lia
    | simpl; lra | simpl; lra | simpl; lra | exact parabola_quadratic
    | simpl; lia | simpl; lia | simpl; lia].
Defined.

(** The range of the field 1 + 2x + 3y + 4z on the 2x2x2 box. *)
Lemma find_value_range_encloses_witness :
  let sample p := gridGet FieldExamples.plane (OffsetFromIndices FieldExamples.plane p) in
  let inGrid (p : Index) :=
    (fst (fst p) < numPoints0 FieldExamples.plane)%nat /\
    (snd (fst p) < numPoints1 FieldExamples.plane)%nat /\
    (snd p < numPoints2 FieldExamples.plane)%nat in
  let valMin := fst (FindValueRange FieldExamples.plane) in
  let valMax := snd (FindValueRange FieldExamples.plane) in
  valMin <= sample (1, 1, 0)%nat <= valMax /\
  ((forall p, inGrid p -> - FLT_MAX <= sample p <= FLT_MAX) ->
   (exists p, inGrid p /\ valMin = sample p) /\
   (exists q, inGrid q /\ valMax = sample q)).
Proof.
  apply (find_value_range_encloses FieldExamples.plane 1 1 0); simpl; lia.
Defined.

(** The magnitudes of the rotation field on the 2x2x2 box. *)
Lemma find_magnitude_range_encloses_witness :
  let magnitude :=
    Magnitude (gridGet FieldExamples.rotation
                 (OffsetFromIndices FieldExamples.rotation (1, 1, 0)%nat)) in
  fst (FindMagnitudeRange FieldExamples.rotation) <= magnitude
  <= snd (FindMagnitudeRange FieldExamples.rotation).
Proof.
  apply (find_magnitude_range_encloses FieldExamples.rotation 1 1 0); simpl; lia.
Defined.

(** The second of the two matrices of the 1x1x2 box. *)
Lemma matrix_statistics_enclose_witness :
  let sample := gridGet FieldExamples.matrices
                  (OffsetFromIndices FieldExamples.matrices (0, 0, 1)%nat) in
  mat33Le (fst (ComputeStatistics FieldExamples.matrices)) sample /\
  mat33Le sample (snd (ComputeStatistics FieldExamples.matrices)).
Proof.
  apply (matrix_statistics_enclose FieldExamples.matrices 0 0 1); simpl; lia.
Defined.

(** The statistics of the field 1 + 2x + 3y + 4z on the 2x2x2 box. *)
Lemma find_value_stats_consistent_witness :
  let stats := FindValueStats FieldExamples.plane in
  let valMin := fst (fst (fst stats)) in
  let valMax := snd (fst (fst stats)) in
  let valMean := snd (fst stats) in
  let valStdDev := snd stats in
  (valMin, valMax) = FindValueRange FieldExamples.plane /\
  valMin <= valMean <= valMax /\ 0 <= valStdDev.
Proof.
  apply (find_value_stats_consistent FieldExamples.plane 0 0 0);
    [reflexivity | simpl; lia | simpl; lia | simpl; lia].
Defined.

(** The two red interior points of the 3x3x5 box, (1,1,1) and (1,1,3), are
    relaxed from 0 to -1.72 and -3.44 along x. *)
Lemma relaxPair_first : updatedVal FieldExamples.relaxSoln FieldExamples.relaxLap (1, 1, 1)%nat = Vec3.mk (-1.72) 0 0.
Proof.
  unfold updatedVal, vSolution, HalfSpacing2Sum, reciprocalSpacing2, reciprocalSpacing,
    oneMinusRelax, relax, POW2, vadd, vsub, vscale, svmul, gridGet.
  cbn -[Rplus Rmult Rminus Rdiv Rinv Rlt_dec Q2R IZR].
  destruct (Rlt_dec (/ 8388608) 1) as [_|Hn]; [|exfalso; lra].
  unfold Q2R; simpl. f_equal; field.
Qed.

Lemma relaxPair_second :
  updatedVal (gridSet FieldExamples.relaxSoln 13 (Vec3.mk (-1.72) 0 0)) FieldExamples.relaxLap (1, 1, 3)%nat
  = Vec3.mk (-3.44) 0 0.
Proof.
  unfold updatedVal, vSolution, HalfSpacing2Sum, reciprocalSpacing2, reciprocalSpacing,
    oneMinusRelax, relax, POW2, vadd, vsub, vscale, svmul, gridGet, gridSet.
  cbn -[Rplus Rmult Rminus Rdiv Rinv Rlt_dec Q2R IZR].
  destruct (Rlt_dec (/ 8388608) 1) as [_|Hn]; [|exfalso; lra].
  unfold Q2R; simpl. f_equal; field.
Qed.

Lemma Magnitude_along_x (a : R) : a <= 0 ->
  Magnitude (vsub (Vec3.mk a 0 0) (Vec3.mk 0 0 0)) = - a.
Proof.
  intros Ha. unfold Magnitude, vsub; simpl.
  replace ((a - 0) * (a - 0) + (0 - 0) * (0 - 0) + (0 - 0) * (0 - 0))
    with (- a * - a) by ring.
  apply sqrt_square. lra.
Qed.

(** The residuals of that pass are 1.72 and 3.44. *)
Lemma relaxPair_statistics :
  let stats := snd (StepTowardVectorPoissonSolution FieldExamples.relaxSoln FieldExamples.relaxLap 0 5 GS_RED
                      BC_DIRICHLET ExactExamples.stats0) in
  mMin stats = 1.72 /\ mMean stats = 2.58 /\ mMax stats = 3.44.
Proof.
  cbv zeta. unfold StepTowardVectorPoissonSolution.
  change (interiorPoints (GetNumPoints FieldExamples.relaxLap 0) (GetNumPoints FieldExamples.relaxLap 1)
            (GetNumPoints FieldExamples.relaxLap 2) 0 5 GS_RED)
    with [(1, 1, 1)%nat; (1, 1, 3)%nat].
  cbn [fold_left snd]. unfold relaxPoint.
  cbn [rsSoln rsStats rsCount mMean mStdDev mMin mMax].
  change (offsetX0Y0Z0 (ASSIGN_XYZ_OFFSETS (GetNumPoints FieldExamples.relaxLap 0)
            (GetNumPoints FieldExamples.relaxLap 1) (1, 1, 1)%nat)) with 13%nat.
  change (offsetX0Y0Z0 (ASSIGN_XYZ_OFFSETS (GetNumPoints FieldExamples.relaxLap 0)
            (GetNumPoints FieldExamples.relaxLap 1) (1, 1, 3)%nat)) with 31%nat.
  rewrite relaxPair_first, relaxPair_second.
  change (gridGet FieldExamples.relaxSoln 13) with (Vec3.mk 0 0 0 : Vec3 R).
  change (gridGet (gridSet FieldExamples.relaxSoln 13 (Vec3.mk (-1.72) 0 0)) 31)
    with (Vec3.mk 0 0 0 : Vec3 R).
  rewrite !Magnitude_along_x by lra.
  unfold cookResidualStats. cbn [Nat.eqb mMean mStdDev mMin mMax].
  unfold Min2, Max2. simpl fltb. simpl fadd. simpl fdiv. simpl fofnat. simpl fconst.
  simpl FLT_MAX. simpl fopp.
  repeat match goal with
         | |- context [Rlt_dec ?a ?b] =>
             lazymatch a with
             | context [Rlt_dec] => fail
             | _ => lazymatch b with
                    | context [Rlt_dec] => fail
                    | _ => destruct (Rlt_dec a b); try (exfalso; lra)
                    end
             end
         end.
  all: unfold Q2R; simpl; repeat split; lra.
Qed.

(** The red pass on the 3x3x5 box relaxes two points, with residuals 1.72
    and 3.44: the minimum, the mean and the maximum differ. *)
Lemma residual_statistics_ordered_witness :
  let stats := snd (StepTowardVectorPoissonSolution FieldExamples.relaxSoln
                      FieldExamples.relaxLap 0 5 GS_RED BC_DIRICHLET
                      ExactExamples.stats0) in
  (0 <= mMin stats /\ mMin stats <= mMean stats /\ mMean stats <= mMax stats) /\
  mMin stats = 1.72 /\ mMean stats = 2.58 /\ mMax stats = 3.44.
Proof.
  split; [|exact relaxPair_statistics].
  apply (residual_statistics_ordered FieldExamples.relaxSoln FieldExamples.relaxLap
           0 5 GS_RED BC_DIRICHLET ExactExamples.stats0 1 1 1);
    [reflexivity | reflexivity | simpl; lia | simpl; left; reflexivity].
Defined.

End ExactWitnesses.

(** The 0x3x3 grids. *)
Lemma reductions_of_empty_grid_witness :
  FindValueRange OperatorExamples.emptyScalar = (FLT_MAX, fopp FLT_MAX) /\
  fst (FindMagnitudeRange OperatorExamples.emptyVec) = fsqrt FLT_MAX /\
  snd (FindMagnitudeRange OperatorExamples.emptyVec) = S754_nan /\
  fst (fst (fst (FindValueStats OperatorExamples.emptyScalar))) = FLT_MAX /\
  snd (fst (fst (FindValueStats OperatorExamples.emptyScalar))) = fopp FLT_MAX /\
  snd (fst (FindValueStats OperatorExamples.emptyScalar)) = S754_nan.
Proof.
  apply (reductions_of_empty_grid OperatorExamples.emptyScalar
           OperatorExamples.emptyVec); reflexivity.
Defined.
